(** * CMSIS-NN INT-Q mixed-precision kernels: a shallow embedding

    The development follows the five C sources of the library:

    - [arm_u2_to_int16_reordered.c]
    - [arm_nn_mat_mult_kernel_reordered_u8_int16_u4.c]
    - [arm_nn_mat_mult_kernel_reordered_u4_int16_u2.c]
    - [arm_nn_mat_mult_kernel_reordered_u8_int16_u4_thr.c]
    - [arm_depthwise_separable_conv_HWC_u8_u2_u8_thr.c]

    Machine integers are values of [Z] with their wrap-around written out
    ([wrap32], [int16], [uint8], ...).  A C pointer into a buffer is an
    element index into a memory, and a memory is a total map from indices to
    values: reading past the logical end of an operand yields whatever the
    map holds there, exactly as the load instruction would. *)

From Stdlib Require Import ZArith List Lia Bool.
Import ListNotations.
Local Open Scope Z_scope.

(** ** Fixed-width integers *)

Module Int.

Definition uint8 (x : Z) : Z := x mod 2 ^ 8.
Definition uint16 (x : Z) : Z := x mod 2 ^ 16.
Definition uint32 (x : Z) : Z := x mod 2 ^ 32.

(** Conversion to a signed type of [w] bits: reduction modulo [2^w] into
    [-2^(w-1) .. 2^(w-1) - 1]. *)
Definition sint (w : Z) (x : Z) : Z :=
  (x + 2 ^ (w - 1)) mod 2 ^ w - 2 ^ (w - 1).

Definition int8 (x : Z) : Z := sint 8 x.
Definition int16 (x : Z) : Z := sint 16 x.
Definition wrap32 (x : Z) : Z := sint 32 x.

Definition in_int32 (x : Z) : Prop := - 2 ^ 31 <= x < 2 ^ 31.
Definition in_int16 (x : Z) : Prop := - 2 ^ 15 <= x < 2 ^ 15.
Definition in_uint8 (x : Z) : Prop := 0 <= x < 2 ^ 8.

(** [x << n] and [x >> n] on an [int32_t]. *)
Definition shl32 (x n : Z) : Z := wrap32 (Z.shiftl x n).
Definition asr32 (x n : Z) : Z := Z.shiftr x n.

End Int.
Import Int.

(** ** The DSP intrinsics used by the kernels

    A 32-bit register holds two 16-bit lanes; [lo16s] and [hi16s] read them
    as signed halfwords. *)

Module Simd.

Definition lo16s (w : Z) : Z := int16 w.
Definition hi16s (w : Z) : Z := int16 (Z.shiftr w 16).

(** Two halfwords stored at consecutive addresses, read as one little-endian
    word ([*__SIMD32(p)]). *)
Definition pack16 (lo hi : Z) : Z :=
  wrap32 (Z.lor (uint16 lo) (Z.shiftl (uint16 hi) 16)).

(** Four bytes stored at consecutive addresses, read as one little-endian
    word. *)
Definition pack8 (b0 b1 b2 b3 : Z) : Z :=
  wrap32 (Z.lor (Z.lor (uint8 b0) (Z.shiftl (uint8 b1) 8))
                (Z.lor (Z.shiftl (uint8 b2) 16) (Z.shiftl (uint8 b3) 24))).

(** [__SMLAD]: dual signed 16x16 multiply, both products added to the
    accumulator. *)
Definition SMLAD (x y acc : Z) : Z :=
  wrap32 (acc + lo16s x * lo16s y + hi16s x * hi16s y).

(** [__UXTB16]: bytes 0 and 2, each zero-extended to a halfword. *)
Definition UXTB16 (x : Z) : Z := wrap32 (Z.land x 16711935).

(** [__ROR]: rotate right. *)
Definition ROR (x n : Z) : Z :=
  let u := uint32 x in
  wrap32 (Z.lor (Z.shiftr u n) (uint32 (Z.shiftl u (32 - n)))).

(** [__SSUB16]: lane-wise signed subtraction. *)
Definition SSUB16 (x y : Z) : Z :=
  pack16 (lo16s x - lo16s y) (hi16s x - hi16s y).

(** [__PKHBT(a, b, 16)] and [__PKHTB(a, b, 16)]. *)
Definition PKHBT16 (a b : Z) : Z :=
  wrap32 (Z.lor (Z.land a 65535) (Z.land (Z.shiftl b 16) 4294901760)).
Definition PKHTB16 (a b : Z) : Z :=
  wrap32 (Z.lor (Z.land a 4294901760) (Z.land (Z.shiftr b 16) 65535)).

(** [__USAT(x, n)]: the signed value [x] saturated to [0 .. 2^n - 1]. *)
Definition USAT (x n : Z) : Z :=
  if x <? 0 then 0 else if 2 ^ n - 1 <? x then 2 ^ n - 1 else x.

(** Saturation by clamping to [lo .. hi], as the specification words it. *)
Definition clamp (lo hi x : Z) : Z := Z.min (Z.max lo x) hi.

(** Fields of a packed output byte, LSB first: the [k]-th 2-bit and the
    [k]-th 4-bit code. *)
Definition crumb (k byte : Z) : Z := Z.land (Z.shiftr byte (2 * k)) 3.
Definition nibble (k byte : Z) : Z := Z.land (Z.shiftr byte (4 * k)) 15.

(** The two bits of a word from bit [t] on, and byte [k] of a word
    ([union arm_nnword]). *)
Definition bits2 (x t : Z) : Z := Z.land (Z.shiftr x t) 3.
Definition byte_of (w k : Z) : Z := uint8 (Z.shiftr w (8 * k)).

(** Modelled from the spec: the macro [__HI_SMULL] is defined in a header
    that is not part of the sources; the requantization is described as a
    high-word fixed-point multiply, that is the upper 32 bits of the signed
    64-bit product of its operands. *)
Definition HI_SMULL (a b : Z) : Z := Z.shiftr (a * b) 32.

End Simd.
Import Simd.

(** ** Memories *)

Definition mem := Z -> Z.

Definition store (m : mem) (p v : Z) : mem :=
  fun q => if q =? p then v else m q.

Definition mem_of_list (l : list Z) : mem :=
  fun p => if p <? 0 then 0 else nth (Z.to_nat p) l 0.

(** [*__SIMD32(p)] on an [int16_t] buffer and on a byte buffer. *)
Definition load_simd16 (m : mem) (p : Z) : Z := pack16 (m p) (m (p + 1)).
Definition load_simd8 (m : mem) (p : Z) : Z :=
  pack8 (m p) (m (p + 1)) (m (p + 2)) (m (p + 3)).

(** [n] rounds of a loop body. *)
Fixpoint loop {St : Type} (n : nat) (body : St -> St) (s : St) : St :=
  match n with
  | O => s
  | S k => loop k body (body s)
  end.

(** [&m[base]]: the sub-array that starts at [base]. *)
Definition offset_mem (m : mem) (base : Z) : mem := fun k => m (base + k).

(** ** The matrix-multiplication kernels *)

Module MatMult.

(** The four running sums of a row pair: [sum] and [sum2] belong to row [i]
    (first and second activation vector), [sum3] and [sum4] to row [i+1]. *)
Record accs := Accs { sum : Z; sum2 : Z; sum3 : Z; sum4 : Z }.

(** Cursors of the accumulation loop. *)
Record cursors := Cursors { pA : Z; pA2 : Z; pB : Z; pB2 : Z }.

(** Output side of a kernel: the output memory and the two stream
    pointers. *)
Record out_state := OutState { out : mem; pOut : Z; pOut2 : Z }.

(** *** Negative [n_zero] handling *)

Definition n_zero_split (n_zero : Z) : Z * Z :=
  if 0 <? n_zero then (0, n_zero) else (int8 (- n_zero), 0).

(** [((__HI_SMULL(s << n_zero1, m_zero)) >> n_zero2) + z_out]. *)
Definition requant (s m_zero n_zero z_out : Z) : Z :=
  let '(n_zero1, n_zero2) := n_zero_split n_zero in
  wrap32 (asr32 (HI_SMULL (shl32 s n_zero1) m_zero) n_zero2 + z_out).

Definition requant_accs (a : accs) (m_zero n_zero z_out : Z) : accs :=
  Accs (requant (sum a) m_zero n_zero z_out)
       (requant (sum2 a) m_zero n_zero z_out)
       (requant (sum3 a) m_zero n_zero z_out)
       (requant (sum4 a) m_zero n_zero z_out).

(** The output code of the affine requantization for [bits]-wide outputs. *)
Definition requant_code (bits s m_zero n_zero z_out : Z) : Z :=
  USAT (requant s m_zero n_zero z_out) bits.

(** *** Pre-computation of the [z_a] offset over the inputs *)

Definition z_a_offset_step (pInBuffer : mem) (inzA : Z)
    (s : Z * Z * Z * Z) : Z * Z * Z * Z :=
  let '(z_a_offset, z_a_offset2, pB, pB2) := s in
  let inB1 := load_simd16 pInBuffer pB in
  let inB2 := load_simd16 pInBuffer pB2 in
  (SMLAD inzA inB1 z_a_offset, SMLAD inzA inB2 z_a_offset2, pB + 2, pB2 + 2).

(** Trip count of [for (i = 0; i < n; i += 2)]. *)
Definition trips_by2 (n : Z) : nat := Z.to_nat ((n + 1) / 2).

Definition z_a_offsets (pInBuffer : mem) (numCol_A z_a : Z) : Z * Z :=
  let inzA := pack16 z_a z_a in
  let '(z_a_offset, z_a_offset2, pB, pB2) :=
    loop (trips_by2 numCol_A) (z_a_offset_step pInBuffer inzA)
         (0, 0, 0, numCol_A) in
  if negb (Z.land numCol_A 1 =? 0) then
    let inB1 := int16 (pInBuffer pB) in
    let inB2 := int16 (pInBuffer pB2) in
    (wrap32 (z_a_offset + inB1 * z_a), wrap32 (z_a_offset2 + inB2 * z_a))
  else (z_a_offset, z_a_offset2).

(** Initial value of the four sums for the row pair that starts at row [i]. *)
Definition init_accs (bias : mem) (i : Z) (offs : Z * Z) : accs :=
  let '(z_a_offset, z_a_offset2) := offs in
  Accs (wrap32 (wrap32 (bias i) - z_a_offset))
       (wrap32 (wrap32 (bias i) - z_a_offset2))
       (wrap32 (wrap32 (bias (i + 1)) - z_a_offset))
       (wrap32 (wrap32 (bias (i + 1)) - z_a_offset2)).

(** One dual multiply-accumulate of all four sums: weights [inA1] (row [i])
    and [inA2] (row [i+1]) against the two activation words. *)
Definition mac4 (inA1 inA2 inB1 inB2 : Z) (a : accs) : accs :=
  Accs (SMLAD inA1 inB1 (sum a)) (SMLAD inA1 inB2 (sum2 a))
       (SMLAD inA2 inB1 (sum3 a)) (SMLAD inA2 inB2 (sum4 a)).

Section Kernels.

(** The inline helpers [read_and_pad_reordered_u8],
    [read_and_pad_reordered_u4] and [__int16_to_u4] live in a header that is
    not part of the sources; the kernels are parameterised by them.  A reader
    takes the weight memory and a pointer and returns the advanced pointer
    with the expanded words. *)
Variable read_and_pad_reordered_u8 : mem -> Z -> Z * Z * Z.
Variable read_and_pad_reordered_u4 : mem -> Z -> Z * Z * Z * Z * Z.
Variable int16_to_u4 : Z -> mem -> Z.

(** Body of [while (colCnt)] for u8 weights: four columns per pass. *)
Definition mac_step_u8 (A pInBuffer : mem) (s : accs * cursors)
    : accs * cursors :=
  let '(a, c) := s in
  let inB1 := load_simd16 pInBuffer (pB c) in
  let inB2 := load_simd16 pInBuffer (pB2 c) in
  let '(pA', inA11, inA12) := read_and_pad_reordered_u8 A (pA c) in
  let '(pA2', inA21, inA22) := read_and_pad_reordered_u8 A (pA2 c) in
  let a := mac4 inA11 inA21 inB1 inB2 a in
  let inB1 := load_simd16 pInBuffer (pB c + 2) in
  let inB2 := load_simd16 pInBuffer (pB2 c + 2) in
  let a := mac4 inA12 inA22 inB1 inB2 a in
  (a, Cursors pA' pA2' (pB c + 4) (pB2 c + 4)).

(** Body of [while (colCnt)] for u4 weights: eight columns per pass. *)
Definition mac_step_u4 (A pInBuffer : mem) (s : accs * cursors)
    : accs * cursors :=
  let '(a, c) := s in
  let inB1 := load_simd16 pInBuffer (pB c) in
  let inB2 := load_simd16 pInBuffer (pB2 c) in
  let '(pA', inA11, inA12, inA13, inA14) :=
    read_and_pad_reordered_u4 A (pA c) in
  let '(pA2', inA21, inA22, inA23, inA24) :=
    read_and_pad_reordered_u4 A (pA2 c) in
  let a := mac4 inA11 inA21 inB1 inB2 a in
  let inB1 := load_simd16 pInBuffer (pB c + 2) in
  let inB2 := load_simd16 pInBuffer (pB2 c + 2) in
  let a := mac4 inA12 inA22 inB1 inB2 a in
  let inB1 := load_simd16 pInBuffer (pB c + 4) in
  let inB2 := load_simd16 pInBuffer (pB2 c + 4) in
  let a := mac4 inA13 inA23 inB1 inB2 a in
  let inB1 := load_simd16 pInBuffer (pB c + 6) in
  let inB2 := load_simd16 pInBuffer (pB2 c + 6) in
  let a := mac4 inA14 inA24 inB1 inB2 a in
  (a, Cursors pA' pA2' (pB c + 8) (pB2 c + 8)).

(** The sums of the row pair at row [i] when the accumulation loop is left,
    with the cursors; [offs] are the two pre-computed [z_a] offsets.  The
    scalar loop over the [numCol_A & 0x3] left-over columns is compiled out
    in all three kernels ([#if 0]). *)
Definition row_accs_u8 (A pInBuffer bias : mem) (numCol_A : Z)
    (offs : Z * Z) (pA0 i : Z) : accs * cursors :=
  let c := Cursors pA0 (pA0 + numCol_A) 0 numCol_A in
  let a := init_accs bias i offs in
  let colCnt := uint16 (Z.shiftr numCol_A 2) in
  loop (Z.to_nat colCnt) (mac_step_u8 A pInBuffer) (a, c).

Definition row_accs_u4 (A pInBuffer bias : mem) (numCol_A : Z)
    (offs : Z * Z) (pA0 i : Z) : accs * cursors :=
  let c := Cursors pA0 (pA0 + Z.shiftr numCol_A 1) 0 numCol_A in
  let a := init_accs bias i offs in
  let colCnt := uint16 (Z.shiftr numCol_A 3) in
  loop (Z.to_nat colCnt) (mac_step_u4 A pInBuffer) (a, c).

(** *** Store Outputs *)

(** u4 output: row [i] in the low nibble, row [i+1] in the high nibble. *)
Definition nibbles (lo hi : Z) : Z :=
  uint8 (Z.lor (Z.land lo 15) (Z.land (Z.shiftl hi 4) 240)).

Definition store_u4 (a : accs) (o : out_state) : out_state :=
  let m1 := store (out o) (pOut o)
                  (nibbles (USAT (sum a) 4) (USAT (sum3 a) 4)) in
  let m2 := store m1 (pOut2 o)
                  (nibbles (USAT (sum2 a) 4) (USAT (sum4 a) 4)) in
  OutState m2 (pOut o + 1) (pOut2 o + 1).

(** u2 output, [i & 0x0002] set: or-ed above the low half that is already
    there. *)
Definition crumbs_hi (c c' old : Z) : Z :=
  uint8 (Z.lor (Z.lor (Z.land (Z.shiftl c 4) 48) (Z.land (Z.shiftl c' 6) 192))
               (uint8 old)).

(** u2 output, [i & 0x0002] clear: the byte is overwritten. *)
Definition crumbs_lo (c c' : Z) : Z :=
  uint8 (Z.lor (Z.land c 3) (Z.land (Z.shiftl c' 2) 12)).

Definition store_u2 (i : Z) (a : accs) (o : out_state) : out_state :=
  if negb (Z.land i 2 =? 0) then
    let m1 := store (out o) (pOut o)
                (crumbs_hi (USAT (sum a) 2) (USAT (sum3 a) 2)
                           (out o (pOut o))) in
    let m2 := store m1 (pOut2 o)
                (crumbs_hi (USAT (sum2 a) 2) (USAT (sum4 a) 2)
                           (m1 (pOut2 o))) in
    OutState m2 (pOut o + 1) (pOut2 o + 1)
  else
    let m1 := store (out o) (pOut o)
                (crumbs_lo (USAT (sum a) 2) (USAT (sum3 a) 2)) in
    let m2 := store m1 (pOut2 o)
                (crumbs_lo (USAT (sum2 a) 2) (USAT (sum4 a) 2)) in
    OutState m2 (pOut o) (pOut2 o).

(** *** The three kernels

    Each returns the output memory and the returned output pointer.  The
    operand [A] is addressed from [0], the output from [pOut0].  The state
    of the loop over the rows of [A] is the weight pointer, the row index
    [i] and the output side; [rows_...  k] is that state after [k] row
    pairs. *)

Definition row_step_u8_u4 (A pInBuffer bias : mem) (numCol_A : Z)
    (offs : Z * Z) (z_out m_zero n_zero : Z)
    (s : Z * Z * out_state) : Z * Z * out_state :=
  let '(pA0, i, o) := s in
  let '(a, c) := row_accs_u8 A pInBuffer bias numCol_A offs pA0 i in
  let a := requant_accs a m_zero n_zero z_out in
  (pA c + numCol_A, i + 2, store_u4 a o).

Definition rows_u8_int16_u4
    (A pInBuffer : mem) (ch_im_out numCol_A : Z) (bias Out : mem)
    (pOut0 z_a z_out m_zero n_zero : Z) (k : nat) : Z * Z * out_state :=
  let o := OutState Out pOut0 (pOut0 + Z.shiftr ch_im_out 1) in
  let offs := z_a_offsets pInBuffer numCol_A z_a in
  loop k (row_step_u8_u4 A pInBuffer bias numCol_A offs z_out m_zero n_zero)
       (0, 0, o).

Definition arm_nn_mat_mult_kernel_reordered_u8_int16_u4
    (A pInBuffer : mem) (ch_im_out numCol_A : Z) (bias Out : mem)
    (pOut0 z_a z_out m_zero n_zero : Z) : mem * Z :=
  let '(_, _, o) :=
    rows_u8_int16_u4 A pInBuffer ch_im_out numCol_A bias Out pOut0 z_a
                     z_out m_zero n_zero (trips_by2 ch_im_out) in
  (out o, pOut o + Z.shiftr ch_im_out 1).

Definition row_step_u4_u2 (A pInBuffer bias : mem) (numCol_A : Z)
    (offs : Z * Z) (z_out m_zero n_zero : Z)
    (s : Z * Z * out_state) : Z * Z * out_state :=
  let '(pA0, i, o) := s in
  let '(a, c) := row_accs_u4 A pInBuffer bias numCol_A offs pA0 i in
  let a := requant_accs a m_zero n_zero z_out in
  (pA c + Z.shiftr numCol_A 1, i + 2, store_u2 i a o).

Definition rows_u4_int16_u2
    (A pInBuffer : mem) (ch_im_out numCol_A : Z) (bias Out : mem)
    (pOut0 z_a z_out m_zero n_zero : Z) (k : nat) : Z * Z * out_state :=
  let o := OutState Out pOut0 (pOut0 + Z.shiftr ch_im_out 2) in
  let offs := z_a_offsets pInBuffer numCol_A z_a in
  loop k (row_step_u4_u2 A pInBuffer bias numCol_A offs z_out m_zero n_zero)
       (0, 0, o).

Definition arm_nn_mat_mult_kernel_reordered_u4_int16_u2
    (A pInBuffer : mem) (ch_im_out numCol_A : Z) (bias Out : mem)
    (pOut0 z_a z_out m_zero n_zero : Z) : mem * Z :=
  let '(_, _, o) :=
    rows_u4_int16_u2 A pInBuffer ch_im_out numCol_A bias Out pOut0 z_a
                     z_out m_zero n_zero (trips_by2 ch_im_out) in
  (out o, pOut o + Z.shiftr ch_im_out 2).

(** Threshold folding: the four codes of a row pair, each the quantizer's
    result for one sum and the sub-array of the threshold table it is
    handed. *)
Definition thr_codes_u4 (thresholds : mem) (i : Z) (a : accs) : accs :=
  let qsum :=
    uint8 (int16_to_u4 (int16 (sum a))
                       (offset_mem thresholds (Z.shiftl i 4))) in
  let qsum3 :=
    uint8 (int16_to_u4 (int16 (sum3 a))
                       (offset_mem thresholds (Z.shiftl (i + 1) 4))) in
  let qsum2 :=
    uint8 (int16_to_u4 (int16 (sum2 a))
                       (offset_mem thresholds (Z.shiftl i 4))) in
  let qsum4 :=
    uint8 (int16_to_u4 (int16 (sum4 a))
                       (offset_mem thresholds (Z.shiftl (i + 1) 4))) in
  Accs qsum qsum2 qsum3 qsum4.

Definition store_u4_thr (q : accs) (o : out_state) : out_state :=
  let m1 := store (out o) (pOut o) (nibbles (sum q) (sum3 q)) in
  let m2 := store m1 (pOut2 o) (nibbles (sum2 q) (sum4 q)) in
  OutState m2 (pOut o + 1) (pOut2 o + 1).

Definition row_step_u8_u4_thr (A pInBuffer bias : mem) (numCol_A : Z)
    (offs : Z * Z) (thresholds : mem)
    (s : Z * Z * out_state) : Z * Z * out_state :=
  let '(pA0, i, o) := s in
  let '(a, c) := row_accs_u8 A pInBuffer bias numCol_A offs pA0 i in
  let q := thr_codes_u4 thresholds i a in
  (pA c + numCol_A, i + 2, store_u4_thr q o).

Definition rows_u8_int16_u4_thr
    (A pInBuffer : mem) (ch_im_out numCol_A : Z) (bias Out : mem)
    (pOut0 z_a : Z) (thresholds : mem) (k : nat) : Z * Z * out_state :=
  let o := OutState Out pOut0 (pOut0 + Z.shiftr ch_im_out 1) in
  let offs := z_a_offsets pInBuffer numCol_A z_a in
  loop k (row_step_u8_u4_thr A pInBuffer bias numCol_A offs thresholds)
       (0, 0, o).

Definition arm_nn_mat_mult_kernel_reordered_u8_int16_u4_thr
    (A pInBuffer : mem) (ch_im_out numCol_A : Z) (bias Out : mem)
    (pOut0 z_a : Z) (thresholds : mem) : mem * Z :=
  let '(_, _, o) :=
    rows_u8_int16_u4_thr A pInBuffer ch_im_out numCol_A bias Out pOut0 z_a
                         thresholds (trips_by2 ch_im_out) in
  (out o, pOut o + Z.shiftr ch_im_out 1).

End Kernels.

(** *** The scalar reference of the dot product

    [bias + sum over all numCol_A columns of (weight - z_a) * activation],
    as the specification words it, for the weight row [w] and the
    activation vector [b]. *)
Fixpoint naive_dot (n : nat) (w b : Z -> Z) (z_a : Z) : Z :=
  match n with
  | O => 0
  | S k => naive_dot k w b z_a + (w (Z.of_nat k) - z_a) * b (Z.of_nat k)
  end.

Definition naive_reference (bias : Z) (numCol_A : Z) (w b : Z -> Z)
    (z_a : Z) : Z :=
  bias + naive_dot (Z.to_nat numCol_A) w b z_a.

(** Sum of the first [n] activations of a vector. *)
Fixpoint sum_B (n : nat) (b : Z -> Z) : Z :=
  match n with
  | O => 0
  | S k => sum_B k b + b (Z.of_nat k)
  end.

End MatMult.

(** ** Conversion of a packed u2 vector to a reordered int16 vector *)

Module U2ToInt16.

(** [__UXTB16(__ROR(__UXTB16(x), 6))]. *)
Definition lanes_of (x : Z) : Z := UXTB16 (ROR (UXTB16 x) 6).

(** The words [in8, in7, ..., in1] of one unrolled pass, in the order in
    which the little-endian build stores them. *)
Definition block_words (inw : Z) : list Z :=
  [ lanes_of (shl32 inw 6); lanes_of (shl32 inw 4);
    lanes_of (shl32 inw 2); lanes_of inw;
    lanes_of (asr32 inw 2); lanes_of (asr32 inw 4);
    lanes_of (asr32 inw 6); lanes_of (asr32 inw 8) ].

(** [*__SIMD32(pDst)++ = w]: the two halfwords written, lower address
    first. *)
Definition store_simd16 (w : Z) : list Z := [lo16s w; hi16s w].

(** The destination is the sequence of halfwords written from [pDst] on. *)
Definition block_body_offset (pSrc : mem) (offset_vect : Z)
    (s : Z * list Z) : Z * list Z :=
  let '(pIn, dst) := s in
  let inw := load_simd8 pSrc pIn in
  let ws := map (fun w => SSUB16 w offset_vect) (block_words inw) in
  (pIn + 4, dst ++ flat_map store_simd16 ws).

Definition block_body_plain (pSrc : mem) (s : Z * list Z) : Z * list Z :=
  let '(pIn, dst) := s in
  let inw := load_simd8 pSrc pIn in
  (pIn + 4, dst ++ flat_map store_simd16 (block_words inw)).

Definition tail_body (s : Z * list Z) : Z * list Z :=
  let '(in_32, dst) := s in
  (ROR in_32 2, dst ++ [int16 (lanes_of (shl32 in_32 6))]).

Definition arm_u2_to_int16_reordered (pSrc : mem) (blockSize offset : Z)
    : list Z :=
  let offset_vect := pack16 offset offset in
  let blkCnt := Z.shiftr blockSize 4 in
  let '(pIn, dst) :=
    if negb (offset =? 0) then
      loop (Z.to_nat blkCnt) (block_body_offset pSrc offset_vect) (0, [])
    else
      loop (Z.to_nat blkCnt) (block_body_plain pSrc) (0, []) in
  let blkCnt := blockSize mod 22 in
  let in_32 := load_simd8 pSrc pIn in
  snd (loop (Z.to_nat blkCnt) tail_body (in_32, dst)).

(** The [k]-th 2-bit code of a packed vector, LSB first within a byte, and
    the zero-point-adjusted lane the specification asks for. *)
Definition u2_code (pSrc : mem) (k : Z) : Z :=
  Z.land (Z.shiftr (uint8 (pSrc (k / 4))) (2 * (k mod 4))) 3.

Definition adjusted_lane (pSrc : mem) (offset k : Z) : Z :=
  u2_code pSrc k - offset.

(** The order in which the sixteen codes of a word reach the destination:
    the codes of the lower halfword alternate with those of the upper. *)
Definition reorder16 : list Z :=
  [0; 8; 1; 9; 2; 10; 3; 11; 4; 12; 5; 13; 6; 14; 7; 15].

End U2ToInt16.

(** The integers [start, start + 1, ...], [n] of them. *)
Fixpoint zrange (start : Z) (n : nat) : list Z :=
  match n with
  | O => []
  | S k => start :: zrange (start + 1) k
  end.

(** What the two loops of the conversion write, in closed form. *)
Module U2Closed.
Import U2ToInt16.

(** The lanes of the unrolled loop for the first [n] source words: for
    each word its sixteen codes minus the offset, in the order
    [reorder16]. *)
Definition unrolled_lanes (pSrc : mem) (offset : Z) (n : nat) : list Z :=
  flat_map (fun k => map (adjusted_lane (offset_mem pSrc (4 * k)) offset)
                         reorder16)
           (zrange 0 n).

(** The lanes of [n] rounds of the tail loop on the word at [base]: its
    codes as they are, in their order, starting over after sixteen. *)
Definition tail_lanes (pSrc : mem) (base : Z) (n : nat) : list Z :=
  map (fun k => u2_code (offset_mem pSrc base) (k mod 16)) (zrange 0 n).

End U2Closed.

(** ** The depthwise-separable convolution driver *)

Module Depthwise.

Inductive arm_status := ARM_MATH_SUCCESS | ARM_MATH_SIZE_MISMATCH.

(** The arguments of the driver.  [bufferA] is addressed byte-wise, as the
    driver does through [colBuffer]. *)
Record conv_args := ConvArgs {
  Im_in : mem; dim_im_in : Z; ch_im_in : Z;
  wt : mem; ch_im_out : Z; dim_kernel : Z;
  left_padding : Z; right_padding : Z; top_padding : Z; bottom_padding : Z;
  stride : Z; bias : mem; Im_out : mem; dim_im_out : Z;
  z_in : Z; z_wt : Z; thresholds : mem; bufferA : mem; bufferB : mem }.

(** [for (i = start; i < bound; i++)] with an [int16_t] counter.  The
    counter is converted back to [int16_t] after each increment, so that it
    never exceeds 32767; [fuel] bounds the number of iterations that are
    run, and the result is [None] when the loop has not been left by
    then. *)
Fixpoint for_int16 {St : Type} (fuel : nat) (i bound : Z)
    (body : Z -> St -> option St) (s : St) : option St :=
  match fuel with
  | O => None
  | S f =>
      if i <? bound then
        match body i s with
        | Some s' => for_int16 f (int16 (i + 1)) bound body s'
        | None => None
        end
      else Some s
  end.

Fixpoint memset0 (m : mem) (p : Z) (n : nat) : mem :=
  match n with
  | O => m
  | S k => memset0 (store m p 0) (p + 1) k
  end.

Fixpoint memcpy (dst : mem) (d : Z) (src : mem) (s : Z) (n : nat) : mem :=
  match n with
  | O => dst
  | S k => memcpy (store dst d (uint8 (src s))) (d + 1) src (s + 1) k
  end.

(** The four running sums of a 4-channel pass. *)
Record accs := Accs { sum : Z; sum2 : Z; sum3 : Z; sum4 : Z }.

(** State of the two channel loops of one output position. *)
Record chan_state := ChanState {
  pBias : Z; row_shift : Z; ch_out_id : Z;
  out : mem; pOut : Z; row_per_byte_out : Z }.

Section Driver.

(** The inline helper [__int16_to_u2] lives in a header that is not part of
    the sources; the driver is parameterised by it. *)
Variable int16_to_u2 : Z -> mem -> Z.

Variable a : conv_args.

Definition inz_wt : Z := pack16 (z_wt a) (z_wt a).
Definition inz_in : Z := pack16 (z_in a) (z_in a).

(** *** im2col *)

Definition im2col_tap (i_ker_y : Z) (i_ker_x : Z) (s : mem * Z)
    : option (mem * Z) :=
  let '(colBuffer, pBuffer) := s in
  let n := Z.to_nat (ch_im_in a) in
  let colBuffer :=
    if (i_ker_y <? 0) || (dim_im_in a <=? i_ker_y)
       || (i_ker_x <? 0) || (dim_im_in a <=? i_ker_x)
    then memset0 colBuffer pBuffer n
    else memcpy colBuffer pBuffer (Im_in a)
           (wrap32 (wrap32 (i_ker_y * dim_im_in a + i_ker_x) * ch_im_in a))
           n in
  Some (colBuffer, pBuffer + ch_im_in a).

Definition im2col_row (fuel : nat) (i_out_x : Z) (i_ker_y : Z) (s : mem * Z)
    : option (mem * Z) :=
  for_int16 fuel
    (int16 (i_out_x * stride a - left_padding a))
    (i_out_x * stride a - left_padding a + dim_kernel a)
    (im2col_tap i_ker_y) s.

Definition im2col (fuel : nat) (i_out_y i_out_x : Z) (s : mem * Z)
    : option (mem * Z) :=
  for_int16 fuel
    (int16 (i_out_y * stride a - top_padding a))
    (i_out_y * stride a - top_padding a + dim_kernel a)
    (im2col_row fuel i_out_x) s.

(** *** The 4-channel pass *)

Definition mac_lane (inA inB acc : Z) : Z :=
  let opA := SSUB16 (UXTB16 inA) inz_wt in
  let opB := SSUB16 (UXTB16 inB) inz_in in
  SMLAD opA opB acc.

(** Body of the first [while (colCnt)]: two kernel taps per pass. *)
Definition quad_col_step (colBuffer : mem) (s : accs * Z * Z)
    : accs * Z * Z :=
  let '(c, pA, pB) := s in
  let inB1 := load_simd8 colBuffer pB in
  let opB := load_simd8 colBuffer (pB + ch_im_in a) in
  let inB2 := PKHTB16 opB inB1 in
  let inB1 := PKHBT16 inB1 opB in
  let inA1 := load_simd8 (wt a) pA in
  let opB := load_simd8 (wt a) (pA + ch_im_in a) in
  let inA2 := PKHTB16 opB inA1 in
  let inA1 := PKHBT16 inA1 opB in
  (Accs (mac_lane inA1 inB1 (sum c))
        (mac_lane (ROR inA1 8) (ROR inB1 8) (sum2 c))
        (mac_lane inA2 inB2 (sum3 c))
        (mac_lane (ROR inA2 8) (ROR inB2 8) (sum4 c)),
   pA + 2 * ch_im_in a, pB + 2 * ch_im_in a).

(** Body of the second [while (colCnt)]: the odd last tap. *)
Definition quad_col_tail (colBuffer : mem) (s : accs * Z * Z)
    : accs * Z * Z :=
  let '(c, pA, pB) := s in
  let inA := load_simd8 (wt a) pA in
  let inB := load_simd8 colBuffer pB in
  let mac k acc :=
    wrap32 (acc + (byte_of inA k - z_wt a) * (byte_of inB k - z_in a)) in
  (Accs (mac 0 (sum c)) (mac 1 (sum2 c)) (mac 2 (sum3 c)) (mac 3 (sum4 c)),
   pA + ch_im_in a, pB + ch_im_in a).

(** The four sums of the channels [row_shift .. row_shift + 3]. *)
Definition quad_accs (colBuffer : mem) (pBias0 row_shift0 : Z) : accs :=
  let c := Accs (wrap32 (bias a pBias0)) (wrap32 (bias a (pBias0 + 1)))
                (wrap32 (bias a (pBias0 + 2))) (wrap32 (bias a (pBias0 + 3))) in
  let kk := wrap32 (dim_kernel a * dim_kernel a) in
  let colCnt := uint16 (Z.shiftr kk 1) in
  let s := loop (Z.to_nat colCnt) (quad_col_step colBuffer)
                (c, row_shift0, row_shift0) in
  let colCnt := uint16 (Z.land kk 1) in
  let '(c, _, _) := loop (Z.to_nat colCnt) (quad_col_tail colBuffer) s in
  c.

Definition quantize (x : Z) (idx : Z) : Z :=
  uint8 (int16_to_u2 (int16 x) (offset_mem (thresholds a) idx)).

Definition quad_step (colBuffer : mem) (s : chan_state) : chan_state :=
  let c := quad_accs colBuffer (pBias s) (row_shift s) in
  let id := ch_out_id s in
  let qsum := quantize (sum c) (Z.shiftl id 2) in
  let qsum2 := quantize (sum2 c) (Z.shiftl (id + 1) 2) in
  let qsum3 := quantize (sum3 c) (Z.shiftl (id + 2) 2) in
  let qsum4 := quantize (sum4 c) (Z.shiftl (id + 3) 2) in
  let v := uint8 (Z.lor (Z.lor (Z.lor (USAT qsum 2)
                                      (Z.shiftl (USAT qsum2 2) 2))
                               (Z.shiftl (USAT qsum3 2) 4))
                        (Z.shiftl (USAT qsum4 2) 6)) in
  ChanState (pBias s + 4) (uint16 (row_shift s + 4)) (id + 4)
            (store (out s) (pOut s) v) (pOut s + 1) (row_per_byte_out s).

(** *** The 1-channel remainder loop *)

Definition rem_col_step (colBuffer : mem) (s : Z * Z * Z) : Z * Z * Z :=
  let '(acc, pA, pB) := s in
  let B1 := uint8 (colBuffer pB) in
  let A1 := uint8 (USAT (uint8 (wt a pA)) 8) in
  let A1 := uint8 (A1 - z_wt a) in
  let B1 := uint8 (B1 - z_in a) in
  (wrap32 (acc + A1 * B1), pA + ch_im_in a, pB + ch_im_in a).

(** The sum of channel [row_shift]. *)
Definition rem_acc (colBuffer : mem) (pBias0 row_shift0 : Z) : Z :=
  let colCnt := uint16 (wrap32 (dim_kernel a * dim_kernel a)) in
  let '(acc, _, _) :=
    loop (Z.to_nat colCnt) (rem_col_step colBuffer)
         (wrap32 (bias a pBias0), row_shift0, row_shift0) in
  acc.

Definition rem_step (colBuffer : mem) (s : chan_state) : chan_state :=
  let acc := rem_acc colBuffer (pBias s) (row_shift s) in
  let id := ch_out_id s in
  let qsum := quantize acc (Z.shiftl id 2) in
  let old := uint8 (out s (pOut s)) in
  let '(m, p, rpb) :=
    match row_per_byte_out s with
    | 4 => (store (out s) (pOut s) (uint8 (USAT qsum 2)),
            pOut s, row_per_byte_out s - 1)
    | 3 => (store (out s) (pOut s)
                  (uint8 (Z.lor old (Z.shiftl (USAT qsum 2) 2))),
            pOut s, row_per_byte_out s - 1)
    | 2 => (store (out s) (pOut s)
                  (uint8 (Z.lor old (Z.shiftl (USAT qsum 2) 4))),
            pOut s, row_per_byte_out s - 1)
    | 1 => (store (out s) (pOut s)
                  (uint8 (Z.lor old (Z.shiftl (USAT qsum 2) 6))),
            pOut s + 1, row_per_byte_out s - 4)
    | _ => (out s, pOut s, row_per_byte_out s)
    end in
  ChanState (pBias s + 1) (uint16 (row_shift s + 1)) (id + 1) m p rpb.

(** The first channel loop of one output position after [k] passes, and
    the second, entered when the first is left, after [k] passes. *)
Definition quad_loop (colBuffer : mem) (Out : mem) (pOut0 : Z) (k : nat)
    : chan_state :=
  loop k (quad_step colBuffer) (ChanState 0 0 0 Out pOut0 4).

Definition rem_loop (colBuffer : mem) (Out : mem) (pOut0 : Z) (k : nat)
    : chan_state :=
  let rowCnt := uint16 (Z.shiftr (ch_im_out a) 2) in
  loop k (rem_step colBuffer)
       (quad_loop colBuffer Out pOut0 (Z.to_nat rowCnt)).

(** Both channel loops of one output position, from the staged patch. *)
Definition channel_pass (colBuffer : mem) (Out : mem) (pOut0 : Z)
    : chan_state :=
  let rowCnt := uint16 (Z.land (ch_im_out a) 3) in
  rem_loop colBuffer Out pOut0 (Z.to_nat rowCnt).

(** *** The driver *)

(** State carried over the output positions: column buffer, [pBuffer],
    output tensor and [pOut]. *)
Definition drv_state : Type := mem * Z * mem * Z.

Definition position (fuel : nat) (i_out_y i_out_x : Z) (s : drv_state)
    : option drv_state :=
  let '(colBuffer, pBuffer, Out, pOut0) := s in
  match im2col fuel i_out_y i_out_x (colBuffer, pBuffer) with
  | Some (colBuffer, _) =>
      let c := channel_pass colBuffer Out pOut0 in
      Some (colBuffer, 0, out c, pOut c)
  | None => None
  end.

Definition out_rows (fuel : nat) (s : drv_state) : option drv_state :=
  for_int16 fuel 0 (dim_im_out a)
    (fun i_out_y => for_int16 fuel 0 (dim_im_out a) (position fuel i_out_y))
    s.

(** The status, with the final contents of [Im_out], [bufferA] and
    [bufferB]. *)
Definition arm_depthwise_separable_conv_HWC_u8_u2_u8_thr (fuel : nat)
    : option (arm_status * mem * mem * mem) :=
  if negb (ch_im_in a =? ch_im_out a) then
    Some (ARM_MATH_SIZE_MISMATCH, Im_out a, bufferA a, bufferB a)
  else
    match out_rows fuel (bufferA a, 0, Im_out a, 0) with
    | Some (colBuffer, _, Out, _) =>
        Some (ARM_MATH_SUCCESS, Out, colBuffer, bufferB a)
    | None => None
    end.

End Driver.

(** One tap of the specified sum: the offset-adjusted weight code times the
    offset-adjusted input code, both read at the address [q]. *)
Definition tap (a : conv_args) (colBuffer : mem) (q : Z) : Z :=
  (uint8 (wt a q) - z_wt a) * (uint8 (colBuffer q) - z_in a).

(** The accumulator the specification asks for:
    [bias + sum over the staged taps of (weight - z_wt) * (input - z_in)],
    for the channel [ch], with [taps] staged kernel positions. *)
Fixpoint reference_acc (taps : nat) (a : conv_args) (colBuffer : mem)
    (ch : Z) : Z :=
  match taps with
  | O => bias a ch
  | S k =>
      reference_acc k a colBuffer ch
      + tap a colBuffer (ch + Z.of_nat k * ch_im_in a)
  end.

(** The four specified sums of the channels from [ch] on, as [int32_t]. *)
Definition reference_accs (taps : nat) (a : conv_args) (colBuffer : mem)
    (ch : Z) : accs :=
  Accs (wrap32 (reference_acc taps a colBuffer ch))
       (wrap32 (reference_acc taps a colBuffer (ch + 1)))
       (wrap32 (reference_acc taps a colBuffer (ch + 2)))
       (wrap32 (reference_acc taps a colBuffer (ch + 3))).

(** The same sum with both factors reduced to [uint8_t]. *)
Fixpoint unsigned_acc (taps : nat) (a : conv_args) (colBuffer : mem)
    (ch : Z) : Z :=
  match taps with
  | O => bias a ch
  | S k =>
      unsigned_acc k a colBuffer ch
      + uint8 (uint8 (wt a (ch + Z.of_nat k * ch_im_in a)) - z_wt a)
        * uint8 (uint8 (colBuffer (ch + Z.of_nat k * ch_im_in a)) - z_in a)
  end.

Definition status_of (r : arm_status * mem * mem * mem) : arm_status :=
  let '(st, _, _, _) := r in st.

(** The loop counters of the driver are [int16_t]: they reach the bounds
    they are compared with when the output dimension and the end of the
    last kernel window do not exceed 32767. *)
Record counters_fit (a : conv_args) : Prop := CountersFit {
  fit_dim_out : 0 <= dim_im_out a <= 32767;
  fit_stride : 0 <= stride a;
  fit_kernel : 0 <= dim_kernel a;
  fit_top : 0 <= top_padding a <= 255;
  fit_left : 0 <= left_padding a <= 255;
  fit_window_y :
    (dim_im_out a - 1) * stride a - top_padding a + dim_kernel a <= 32767;
  fit_window_x :
    (dim_im_out a - 1) * stride a - left_padding a + dim_kernel a <= 32767 }.

End Depthwise.

(** ** The layout of the threshold table

    [channel_thresholds thresholds stride c] is the sub-array that belongs
    to channel [c] when every channel owns [stride] consecutive entries of
    the flat table, and [channel_code] is the code of channel [c] for the
    sum [x]: the answer of the quantizer, as [uint8_t], on that
    sub-array. *)

Definition channel_thresholds (thresholds : mem) (stride c : Z) : mem :=
  offset_mem thresholds (c * stride).

Definition channel_code (quantizer : Z -> mem -> Z) (thresholds : mem)
    (stride c x : Z) : Z :=
  uint8 (quantizer (int16 x) (channel_thresholds thresholds stride c)).

(** ** Concrete inputs *)

Module Examples.

Definition zero_mem : mem := fun _ => 0.

(** Stand-ins for the helpers the kernels are parameterised by. *)
Definition quant_zero : Z -> mem -> Z := fun _ _ => 0.
Definition reader_zero : mem -> Z -> Z * Z * Z := fun _ p => (p + 4, 0, 0).
Definition reader_zero4 : mem -> Z -> Z * Z * Z * Z * Z :=
  fun _ p => (p + 4, 0, 0, 0, 0).

(** A quantizer that answers with the first entry of the sub-array it is
    handed, and two threshold tables that tell the entries 3 and 4
    (respectively 15 and 16) apart. *)
Definition quant_first : Z -> mem -> Z := fun _ th => th 0.
(** A quantizer that answers with the sum itself. *)
Definition quant_id : Z -> mem -> Z := fun x _ => x.
Definition first_table4 : mem := mem_of_list [0; 0; 0; 1; 2].
Definition first_table16 : mem :=
  mem_of_list [0; 0; 0; 0; 0; 0; 0; 0; 0; 0; 0; 0; 0; 0; 0; 1; 2].

(** A 2x2 output of one channel, 1x1 kernel. *)
Definition small_args : Depthwise.conv_args :=
  Depthwise.ConvArgs (mem_of_list [1; 2; 3; 4]) 2 1 (mem_of_list [1]) 1 1
    0 0 0 0 1 (mem_of_list [0]) zero_mem 2 0 0
    zero_mem zero_mem zero_mem.

(** An output dimension of 32768 with no channels and an empty kernel:
    the channel counts agree and no buffer is read or written. *)
Definition wide_args : Depthwise.conv_args :=
  Depthwise.ConvArgs zero_mem 0 0 zero_mem 0 0 0 0 0 0 0 zero_mem zero_mem
    32768 0 0 zero_mem zero_mem zero_mem.

(** One input channel against two output channels. *)
Definition mismatched_args : Depthwise.conv_args :=
  Depthwise.ConvArgs (mem_of_list [1; 2; 3; 4]) 2 1 (mem_of_list [1; 1]) 2 1
    0 0 0 0 1 (mem_of_list [0; 0]) (mem_of_list [7; 7; 7; 7]) 2 0 0
    zero_mem (mem_of_list [9; 9]) (mem_of_list [5]).

(** Five channels, one kernel tap: all codes are 0 and both zero points
    are 1, so that every offset-adjusted value is -1. *)
Definition five_ch_args : Depthwise.conv_args :=
  Depthwise.ConvArgs (mem_of_list [0; 0; 0; 0; 0]) 1 5
    (mem_of_list [0; 0; 0; 0; 0]) 5 1 0 0 0 0 1
    (mem_of_list [0; 0; 0; 0; 0]) zero_mem 1 1 1
    zero_mem zero_mem zero_mem.
Definition five_ch_patch : mem := mem_of_list [0; 0; 0; 0; 0].

(** Two channels, one kernel tap, with the threshold table
    [first_table4]. *)
Definition two_ch_args : Depthwise.conv_args :=
  Depthwise.ConvArgs (mem_of_list [1; 2]) 1 2 (mem_of_list [1; 1]) 2 1
    0 0 0 0 1 (mem_of_list [0; 0]) zero_mem 1 0 0
    first_table4 zero_mem zero_mem.
Definition two_ch_patch : mem := mem_of_list [1; 2].

(** Two activation vectors of two columns with the sums -1 and -2. *)
Definition two_col_vectors : mem := mem_of_list [-1; 0; -2; 0].

End Examples.

(** * Properties *)

(** ** Fixed-width integers *)

Section IntFacts.

Lemma pow2_split w : 0 < w -> 2 ^ w = 2 * 2 ^ (w - 1).
Proof.
  intros Hw. replace w with (Z.succ (w - 1)) at 1 by lia.
  apply Z.pow_succ_r. lia.
Qed.

Lemma sint_small w x :
  0 < w -> - 2 ^ (w - 1) <= x < 2 ^ (w - 1) -> sint w x = x.
Proof.
  intros Hw Hx. unfold sint. pose proof (pow2_split w Hw).
  rewrite Z.mod_small; lia.
Qed.

Lemma sint_range w x : 0 < w -> - 2 ^ (w - 1) <= sint w x < 2 ^ (w - 1).
Proof.
  intros Hw. unfold sint. pose proof (pow2_split w Hw).
  assert (0 < 2 ^ (w - 1)) by (apply Z.pow_pos_nonneg; lia).
  pose proof (Z.mod_pos_bound (x + 2 ^ (w - 1)) (2 ^ w)). lia.
Qed.

(** Signed conversion only depends on the residue modulo [2^w]. *)
Lemma sint_add_multiple w x k : 0 < w -> sint w (x + k * 2 ^ w) = sint w x.
Proof.
  intros Hw. unfold sint.
  replace (x + k * 2 ^ w + 2 ^ (w - 1)) with (x + 2 ^ (w - 1) + k * 2 ^ w)
    by ring.
  now rewrite Z_mod_plus_full.
Qed.

Lemma sint_mod w x : 0 < w -> sint w (x mod 2 ^ w) = sint w x.
Proof.
  intros Hw. rewrite (Z.div_mod x (2 ^ w)) at 2
    by (apply Z.pow_nonzero; lia).
  rewrite Z.add_comm, (Z.mul_comm (2 ^ w)). now rewrite sint_add_multiple.
Qed.

Lemma sint_eq_sub w x : 0 < w -> exists k, sint w x = x + k * 2 ^ w.
Proof.
  intros Hw. unfold sint. exists (- ((x + 2 ^ (w - 1)) / 2 ^ w)).
  pose proof (Z.div_mod (x + 2 ^ (w - 1)) (2 ^ w)
                ltac:(apply Z.pow_nonzero; lia)).
  lia.
Qed.

Lemma wrap32_small x : in_int32 x -> wrap32 x = x.
Proof. intros H. apply sint_small; [lia | exact H]. Qed.

Lemma wrap32_range x : in_int32 (wrap32 x).
Proof. apply (sint_range 32 x). lia. Qed.

Lemma wrap32_add_l x y : wrap32 (wrap32 x + y) = wrap32 (x + y).
Proof.
  destruct (sint_eq_sub 32 x ltac:(lia)) as [k E].
  unfold wrap32 at 2. rewrite E.
  replace (x + k * 2 ^ 32 + y) with (x + y + k * 2 ^ 32) by ring.
  apply sint_add_multiple. lia.
Qed.

Lemma int16_small x : in_int16 x -> int16 x = x.
Proof. intros H. apply sint_small; [lia | exact H]. Qed.

Lemma int16_range x : in_int16 (int16 x).
Proof. apply (sint_range 16 x). lia. Qed.

Lemma int16_wrap32 x : int16 (wrap32 x) = int16 x.
Proof.
  destruct (sint_eq_sub 32 x ltac:(lia)) as [k E].
  unfold wrap32. rewrite E. unfold int16.
  replace (k * 2 ^ 32) with (k * 2 ^ 16 * 2 ^ 16) by lia.
  apply sint_add_multiple. lia.
Qed.

Lemma uint8_range x : in_uint8 (uint8 x).
Proof. apply Z.mod_pos_bound. lia. Qed.

Lemma uint8_land x : uint8 x = Z.land x 255.
Proof. unfold uint8. change 255 with (Z.ones 8). now rewrite Z.land_ones. Qed.

Lemma uint8_small x : in_uint8 x -> uint8 x = x.
Proof. intros H. apply Z.mod_small. exact H. Qed.

Lemma uint8_idem x : uint8 (uint8 x) = uint8 x.
Proof. unfold uint8. apply Z.mod_mod. lia. Qed.

End IntFacts.

(** ** Lanes of a packed word *)

Section LaneFacts.

Lemma lor_shiftl_add x y n :
  0 <= n -> 0 <= x < 2 ^ n -> Z.lor x (Z.shiftl y n) = x + y * 2 ^ n.
Proof.
  intros Hn Hx.
  assert (D : Z.land x (Z.shiftl y n) = 0).
  { apply Z.bits_inj'. intros i Hi. rewrite Z.land_spec, Z.bits_0.
    destruct (Z.ltb_spec i n).
    - rewrite Z.shiftl_spec_low by lia. apply andb_false_r.
    - rewrite <- (Z.mod_small x (2 ^ n)) by lia.
      rewrite Z.mod_pow2_bits_high by lia. reflexivity. }
  rewrite <- Z.lxor_lor, <- Z.add_nocarry_lxor by exact D.
  now rewrite Z.shiftl_mul_pow2.
Qed.

Lemma pack16_add lo hi :
  pack16 lo hi = wrap32 (uint16 lo + uint16 hi * 2 ^ 16).
Proof.
  unfold pack16. rewrite lor_shiftl_add; [reflexivity | lia |].
  apply Z.mod_pos_bound. lia.
Qed.

Lemma lo16s_pack16 lo hi : lo16s (pack16 lo hi) = int16 lo.
Proof.
  unfold lo16s. rewrite pack16_add, int16_wrap32. unfold int16.
  rewrite sint_add_multiple by lia. apply sint_mod. lia.
Qed.

Lemma hi16s_pack16 lo hi : hi16s (pack16 lo hi) = int16 hi.
Proof.
  unfold hi16s. rewrite pack16_add.
  destruct (sint_eq_sub 32 (uint16 lo + uint16 hi * 2 ^ 16) ltac:(lia))
    as [k E].
  unfold wrap32. rewrite E, Z.shiftr_div_pow2 by lia.
  replace (uint16 lo + uint16 hi * 2 ^ 16 + k * 2 ^ 32)
    with (uint16 lo + (uint16 hi + k * 2 ^ 16) * 2 ^ 16) by lia.
  rewrite Z.div_add by lia.
  rewrite (Z.div_small (uint16 lo)) by (apply Z.mod_pos_bound; lia).
  cbn [Z.add]. unfold int16. rewrite sint_add_multiple by lia.
  apply sint_mod. lia.
Qed.

(** [__SMLAD] on two words read from memory: both lane products are added
    to the accumulator. *)
Lemma SMLAD_pack16 a b c d acc :
  SMLAD (pack16 a b) (pack16 c d) acc
  = wrap32 (acc + (int16 a * int16 c + int16 b * int16 d)).
Proof.
  unfold SMLAD. now rewrite !lo16s_pack16, !hi16s_pack16, Z.add_assoc.
Qed.

End LaneFacts.

(** ** Bits and bytes of a word *)

Section MaskFacts.

(** Masking with a 32-bit mask only looks at the residue modulo [2^32]. *)
Lemma land_mod32 x M :
  0 <= M < 2 ^ 32 -> Z.land (x mod 2 ^ 32) M = Z.land x M.
Proof.
  intros HM. rewrite <- (Z.land_ones x 32) by lia.
  rewrite <- Z.land_assoc. f_equal.
  rewrite Z.land_comm, Z.land_ones by lia. apply Z.mod_small. exact HM.
Qed.

Lemma land_wrap32 x M : 0 <= M < 2 ^ 32 -> Z.land (wrap32 x) M = Z.land x M.
Proof.
  intros HM.
  rewrite <- (land_mod32 (wrap32 x)), <- (land_mod32 x) by exact HM.
  f_equal. destruct (sint_eq_sub 32 x ltac:(lia)) as [k E].
  unfold wrap32. rewrite E. apply Z_mod_plus_full.
Qed.

Lemma land_bound x M n : 0 <= n -> 0 <= M < 2 ^ n -> 0 <= Z.land x M < 2 ^ n.
Proof.
  intros Hn HM.
  assert (E : Z.land x M = Z.land x M mod 2 ^ n).
  { rewrite <- Z.land_ones, <- Z.land_assoc by lia. f_equal.
    rewrite Z.land_ones by lia. symmetry. apply Z.mod_small. exact HM. }
  rewrite E. apply Z.mod_pos_bound. apply Z.pow_pos_nonneg; lia.
Qed.

Lemma land_shiftl_above x M n :
  0 <= n -> 0 <= M < 2 ^ n -> Z.land (Z.shiftl x n) M = 0.
Proof.
  intros Hn HM. apply Z.bits_inj'. intros i Hi.
  rewrite Z.land_spec, Z.bits_0. destruct (Z.ltb_spec i n).
  - now rewrite Z.shiftl_spec_low by lia.
  - rewrite <- (Z.mod_small M (2 ^ n)) by lia.
    rewrite Z.mod_pow2_bits_high by lia. apply andb_false_r.
Qed.

Lemma UXTB16_land x : UXTB16 x = Z.land x 16711935.
Proof.
  unfold UXTB16. apply wrap32_small.
  pose proof (land_bound x 16711935 24 ltac:(lia) ltac:(lia)).
  unfold in_int32. lia.
Qed.

End MaskFacts.

Section Bits2Facts.

Lemma bits2_mask x t :
  0 <= t -> bits2 x t = Z.shiftr (Z.land x (Z.shiftl 3 t)) t.
Proof.
  intros Ht. unfold bits2. rewrite Z.shiftr_land, Z.shiftr_shiftl_l by lia.
  now rewrite Z.sub_diag.
Qed.

Lemma bits2_wrap32 x t : 0 <= t <= 30 -> bits2 (wrap32 x) t = bits2 x t.
Proof.
  intros Ht. rewrite !bits2_mask by lia. f_equal. apply land_wrap32.
  rewrite Z.shiftl_mul_pow2 by lia. split; [nia|].
  assert (2 ^ t <= 2 ^ 30) by (apply Z.pow_le_mono_r; lia). lia.
Qed.

Lemma bits2_range x t : 0 <= bits2 x t <= 3.
Proof.
  unfold bits2. change 3 with (Z.ones 2) at 1 2. rewrite Z.land_ones by lia.
  pose proof (Z.mod_pos_bound (Z.shiftr x t) (2 ^ 2) ltac:(lia)). lia.
Qed.

Lemma bits2_div x t : 0 <= t -> bits2 x t = (x / 2 ^ t) mod 4.
Proof.
  intros Ht. unfold bits2. rewrite Z.shiftr_div_pow2 by lia.
  change 3 with (Z.ones 2). now rewrite Z.land_ones by lia.
Qed.

Lemma bits2_shl32 x s t :
  0 <= s <= t -> t <= 30 -> bits2 (shl32 x s) t = bits2 x (t - s).
Proof.
  intros Hs Ht. unfold shl32. rewrite bits2_wrap32 by lia.
  unfold bits2. now rewrite Z.shiftr_shiftl_r by lia.
Qed.

Lemma bits2_asr32 x s t :
  0 <= s -> 0 <= t -> bits2 (asr32 x s) t = bits2 x (s + t).
Proof.
  intros Hs Ht. unfold asr32, bits2. now rewrite Z.shiftr_shiftr by lia.
Qed.

Lemma pack8_add b0 b1 b2 b3 :
  pack8 b0 b1 b2 b3
  = wrap32 (uint8 b0 + uint8 b1 * 2 ^ 8 + uint8 b2 * 2 ^ 16
            + uint8 b3 * 2 ^ 24).
Proof.
  unfold pack8.
  pose proof (uint8_range b0). pose proof (uint8_range b1).
  pose proof (uint8_range b2). pose proof (uint8_range b3).
  unfold in_uint8 in *.
  rewrite (lor_shiftl_add (uint8 b0)) by lia.
  replace (Z.lor (Z.shiftl (uint8 b2) 16) (Z.shiftl (uint8 b3) 24))
    with (Z.shiftl (Z.lor (uint8 b2) (Z.shiftl (uint8 b3) 8)) 16).
  2:{ rewrite Z.shiftl_lor, Z.shiftl_shiftl by lia. reflexivity. }
  rewrite (lor_shiftl_add (uint8 b2)) by lia.
  rewrite lor_shiftl_add by lia. f_equal. lia.
Qed.

End Bits2Facts.

Section ByteFacts.

Lemma byte_of_land_shift x k : byte_of x k = Z.land (Z.shiftr x (8 * k)) 255.
Proof. unfold byte_of. apply uint8_land. Qed.

Lemma byte_of_range x k : 0 <= byte_of x k < 256.
Proof. apply (uint8_range _). Qed.

Lemma byte_of_mask x k :
  0 <= k -> byte_of x k = Z.shiftr (Z.land x (Z.shiftl 255 (8 * k))) (8 * k).
Proof.
  intros Hk. rewrite byte_of_land_shift, Z.shiftr_land.
  rewrite Z.shiftr_shiftl_l, Z.sub_diag by lia. reflexivity.
Qed.

Lemma byte_of_wrap32 x k : 0 <= k <= 3 -> byte_of (wrap32 x) k = byte_of x k.
Proof.
  intros Hk. rewrite !byte_of_mask by lia. f_equal. apply land_wrap32.
  assert (C : k = 0 \/ k = 1 \/ k = 2 \/ k = 3) by lia.
  destruct C as [-> | [-> | [-> | ->]]]; cbn; lia.
Qed.

Lemma byte_of_uint32 x k : 0 <= k <= 3 -> byte_of (uint32 x) k = byte_of x k.
Proof.
  intros Hk. rewrite !byte_of_mask by lia. f_equal. apply land_mod32.
  assert (C : k = 0 \/ k = 1 \/ k = 2 \/ k = 3) by lia.
  destruct C as [-> | [-> | [-> | ->]]]; cbn; lia.
Qed.

Lemma byte_of_lor x y k :
  byte_of (Z.lor x y) k = Z.lor (byte_of x k) (byte_of y k).
Proof.
  rewrite !byte_of_land_shift, Z.shiftr_lor. apply Z.land_lor_distr_l.
Qed.

Lemma byte_of_land x M k :
  byte_of (Z.land x M) k = Z.land (byte_of x k) (byte_of M k).
Proof.
  rewrite !byte_of_land_shift, Z.shiftr_land.
  rewrite <- !Z.land_assoc. f_equal.
  rewrite (Z.land_comm 255), <- Z.land_assoc.
  change (Z.land 255 255) with 255. reflexivity.
Qed.

Lemma byte_of_shiftr x j k :
  0 <= j -> 0 <= k -> byte_of (Z.shiftr x (8 * j)) k = byte_of x (j + k).
Proof.
  intros Hj Hk. rewrite !byte_of_land_shift, Z.shiftr_shiftr by lia.
  do 2 f_equal. lia.
Qed.

Lemma byte_of_shiftl x j k :
  0 <= j <= k -> byte_of (Z.shiftl x (8 * j)) k = byte_of x (k - j).
Proof.
  intros Hj. rewrite !byte_of_land_shift, Z.shiftr_shiftl_r by lia.
  do 2 f_equal. lia.
Qed.

Lemma byte_of_shiftl_below x j k :
  0 <= k < j -> byte_of (Z.shiftl x (8 * j)) k = 0.
Proof.
  intros Hj. rewrite byte_of_land_shift, Z.shiftr_shiftl_l by lia.
  change 255 with (Z.ones 8). rewrite Z.land_ones, Z.shiftl_mul_pow2 by lia.
  replace (8 * j - 8 * k) with (8 * (j - k - 1) + 8) by lia.
  rewrite Z.pow_add_r, Z.mul_assoc by lia. apply Z_mod_mult.
Qed.

Lemma byte_of_byte b k : 0 <= b < 256 -> 1 <= k -> byte_of b k = 0.
Proof.
  intros Hb Hk. rewrite byte_of_land_shift.
  rewrite Z.shiftr_div_pow2 by lia.
  rewrite Z.div_small; [reflexivity|].
  assert (2 ^ 8 <= 2 ^ (8 * k)) by (apply Z.pow_le_mono_r; lia). lia.
Qed.

Lemma byte_of_0 b : 0 <= b < 256 -> byte_of b 0 = b.
Proof.
  intros Hb. unfold byte_of. rewrite Z.shiftr_0_r. apply Z.mod_small. lia.
Qed.

Lemma byte_of_shifted_byte b j k :
  0 <= b < 256 -> 0 <= j -> 0 <= k ->
  byte_of (Z.shiftl b (8 * j)) k = if k =? j then b else 0.
Proof.
  intros Hb Hj Hk. destruct (Z.eqb_spec k j) as [-> | Hne].
  - rewrite byte_of_shiftl, Z.sub_diag by lia. now apply byte_of_0.
  - destruct (Z.lt_ge_cases k j).
    + apply byte_of_shiftl_below. lia.
    + rewrite byte_of_shiftl by lia. apply byte_of_byte; lia.
Qed.

Lemma pack8_shifts b0 b1 b2 b3 :
  pack8 b0 b1 b2 b3
  = wrap32 (Z.lor (Z.lor (Z.shiftl (uint8 b0) (8 * 0))
                         (Z.shiftl (uint8 b1) (8 * 1)))
                  (Z.lor (Z.shiftl (uint8 b2) (8 * 2))
                         (Z.shiftl (uint8 b3) (8 * 3)))).
Proof.
  unfold pack8. change (8 * 0) with 0. now rewrite Z.shiftl_0_r.
Qed.

(** The bytes of a word read from memory are the four bytes stored from
    its address on. *)
Lemma byte_of_load m p :
  byte_of (load_simd8 m p) 0 = uint8 (m p) /\
  byte_of (load_simd8 m p) 1 = uint8 (m (p + 1)) /\
  byte_of (load_simd8 m p) 2 = uint8 (m (p + 2)) /\
  byte_of (load_simd8 m p) 3 = uint8 (m (p + 3)).
Proof.
  unfold load_simd8.
  rewrite pack8_shifts, !byte_of_wrap32, !byte_of_lor by lia.
  rewrite !byte_of_shifted_byte by (apply (uint8_range _) || lia).
  cbn [Z.eqb Pos.eqb]. rewrite !Z.lor_0_r, ?Z.lor_0_l. auto.
Qed.

Lemma lo16s_UXTB16 x : lo16s (UXTB16 x) = byte_of x 0.
Proof.
  unfold lo16s, int16. rewrite UXTB16_land, <- sint_mod by lia.
  rewrite <- Z.land_ones, <- Z.land_assoc by lia.
  change (Z.land 16711935 (Z.ones 16)) with 255.
  rewrite byte_of_land_shift, Z.shiftr_0_r.
  pose proof (land_bound x 255 8 ltac:(lia) ltac:(lia)).
  apply sint_small; lia.
Qed.

Lemma hi16s_UXTB16 x : hi16s (UXTB16 x) = byte_of x 2.
Proof.
  unfold hi16s, int16. rewrite UXTB16_land, Z.shiftr_land.
  change (Z.shiftr 16711935 16) with 255.
  rewrite byte_of_land_shift. change (8 * 2) with 16.
  pose proof (land_bound (Z.shiftr x 16) 255 8 ltac:(lia) ltac:(lia)).
  apply sint_small; lia.
Qed.

Lemma byte_of_ROR8 x k :
  0 <= k <= 2 -> byte_of (ROR x 8) k = byte_of x (k + 1).
Proof.
  intros Hk. unfold ROR. rewrite byte_of_wrap32, byte_of_lor by lia.
  rewrite byte_of_uint32 by lia.
  change (32 - 8) with (8 * 3). rewrite byte_of_shiftl_below by lia.
  change 8 with (8 * 1) at 1. rewrite byte_of_shiftr by lia.
  rewrite byte_of_uint32 by lia. rewrite Z.lor_0_r. f_equal. lia.
Qed.

Lemma byte_of_PKHBT16 a b :
  byte_of (PKHBT16 a b) 0 = byte_of a 0 /\
  byte_of (PKHBT16 a b) 1 = byte_of a 1 /\
  byte_of (PKHBT16 a b) 2 = byte_of b 0 /\
  byte_of (PKHBT16 a b) 3 = byte_of b 1.
Proof.
  unfold PKHBT16. rewrite !byte_of_wrap32, !byte_of_lor, !byte_of_land by lia.
  change 16 with (8 * 2).
  rewrite !byte_of_shiftl_below, !byte_of_shiftl by lia.
  change (byte_of 65535 0) with 255. change (byte_of 65535 1) with 255.
  change (byte_of 65535 2) with 0. change (byte_of 65535 3) with 0.
  change (byte_of 4294901760 2) with 255.
  change (byte_of 4294901760 3) with 255.
  rewrite !Z.land_0_l, !Z.land_0_r, !Z.lor_0_r, !Z.lor_0_l.
  change (2 - 2) with 0. change (3 - 2) with 1.
  rewrite <- !uint8_land.
  unfold byte_of. rewrite !uint8_idem. auto.
Qed.

Lemma byte_of_PKHTB16 a b :
  byte_of (PKHTB16 a b) 0 = byte_of b 2 /\
  byte_of (PKHTB16 a b) 1 = byte_of b 3 /\
  byte_of (PKHTB16 a b) 2 = byte_of a 2 /\
  byte_of (PKHTB16 a b) 3 = byte_of a 3.
Proof.
  unfold PKHTB16. rewrite !byte_of_wrap32, !byte_of_lor, !byte_of_land by lia.
  change 16 with (8 * 2).
  rewrite !byte_of_shiftr by lia.
  change (byte_of 65535 0) with 255. change (byte_of 65535 1) with 255.
  change (byte_of 65535 2) with 0. change (byte_of 65535 3) with 0.
  change (byte_of 4294901760 0) with 0. change (byte_of 4294901760 1) with 0.
  change (byte_of 4294901760 2) with 255.
  change (byte_of 4294901760 3) with 255.
  rewrite !Z.land_0_r, !Z.lor_0_r, !Z.lor_0_l.
  change (2 + 0) with 2. change (2 + 1) with 3.
  rewrite <- !uint8_land.
  unfold byte_of. rewrite !uint8_idem. auto.
Qed.

End ByteFacts.

(** ** Saturation and the high-word multiply *)

Section SaturationFacts.

Lemma USAT_clamp x n : 0 <= n -> USAT x n = clamp 0 (2 ^ n - 1) x.
Proof.
  intros Hn. unfold USAT, clamp.
  assert (0 < 2 ^ n) by (apply Z.pow_pos_nonneg; lia).
  destruct (x <? 0) eqn:E1; [lia|].
  destruct (2 ^ n - 1 <? x) eqn:E2; lia.
Qed.

Lemma USAT_range x n : 0 <= n -> 0 <= USAT x n <= 2 ^ n - 1.
Proof.
  intros Hn. rewrite USAT_clamp by lia. unfold clamp.
  assert (0 < 2 ^ n) by (apply Z.pow_pos_nonneg; lia). lia.
Qed.

Lemma USAT_mono x y n : 0 <= n -> x <= y -> USAT x n <= USAT y n.
Proof. intros Hn Hxy. rewrite !USAT_clamp by lia. unfold clamp. lia. Qed.

Lemma HI_SMULL_mono x y m :
  0 <= m -> x <= y -> HI_SMULL x m <= HI_SMULL y m.
Proof.
  intros Hm Hxy. unfold HI_SMULL. rewrite !Z.shiftr_div_pow2 by lia.
  apply Z.div_le_mono; [lia | nia].
Qed.

Lemma HI_SMULL_bound x m :
  in_int32 x -> in_int32 m -> - 2 ^ 30 <= HI_SMULL x m <= 2 ^ 30.
Proof.
  unfold in_int32, HI_SMULL. intros Hx Hm.
  rewrite Z.shiftr_div_pow2 by lia. split.
  - apply Z.div_le_lower_bound; [lia | nia].
  - apply Z.div_le_upper_bound; [lia | nia].
Qed.

Lemma asr32_mono x y n : 0 <= n -> x <= y -> asr32 x n <= asr32 y n.
Proof.
  intros Hn Hxy. unfold asr32. rewrite !Z.shiftr_div_pow2 by lia.
  apply Z.div_le_mono; [apply Z.pow_pos_nonneg; lia | lia].
Qed.

Lemma asr32_bound x n k :
  0 <= n -> 0 <= k -> - k <= x <= k -> - k <= asr32 x n <= k.
Proof.
  intros Hn Hk Hx. unfold asr32. rewrite Z.shiftr_div_pow2 by lia.
  assert (0 < 2 ^ n) by (apply Z.pow_pos_nonneg; lia). split.
  - apply Z.div_le_lower_bound; [lia | nia].
  - apply Z.div_le_upper_bound; [lia | nia].
Qed.

Lemma shl32_exact x n :
  0 <= n -> in_int32 (x * 2 ^ n) -> shl32 x n = x * 2 ^ n.
Proof.
  intros Hn Hx. unfold shl32. rewrite Z.shiftl_mul_pow2 by lia.
  apply wrap32_small. exact Hx.
Qed.

End SaturationFacts.

(** ** Memories and loops *)

Section MemFacts.

Lemma store_same m p v : store m p v p = v.
Proof. unfold store. now rewrite Z.eqb_refl. Qed.

Lemma store_other m p v q : q <> p -> store m p v q = m q.
Proof.
  unfold store. intros H.
  destruct (Z.eqb_spec q p); [contradiction | reflexivity].
Qed.

Lemma loop_succ_r {St : Type} (n : nat) (f : St -> St) s :
  loop (S n) f s = f (loop n f s).
Proof.
  revert s. induction n as [|n IH]; intros s; [reflexivity|].
  cbn [loop] in *. now rewrite IH.
Qed.

Lemma zrange_app start n m :
  zrange start (n + m)%nat
  = zrange start n ++ zrange (start + Z.of_nat n) m.
Proof.
  revert start. induction n as [|n IH]; intros start.
  - cbn. now rewrite Z.add_0_r.
  - cbn [zrange Nat.add app]. rewrite IH. do 3 f_equal. lia.
Qed.

Lemma length_zrange s n : length (zrange s n) = n.
Proof.
  revert s. induction n; intros s; cbn; [reflexivity | now rewrite IHn].
Qed.

End MemFacts.

(** ** The matrix-multiplication kernels *)

Module MatMultFacts.
Import MatMult Examples.

(** *** Fields of the stored bytes *)

Section FieldFacts.

Lemma crumb_lor k x y : crumb k (Z.lor x y) = Z.lor (crumb k x) (crumb k y).
Proof. unfold crumb. rewrite Z.shiftr_lor. apply Z.land_lor_distr_l. Qed.

Lemma crumb_uint8 k x : 0 <= k < 4 -> crumb k (uint8 x) = crumb k x.
Proof.
  intros Hk. unfold crumb.
  rewrite uint8_land, Z.shiftr_land, <- Z.land_assoc.
  assert (E : k = 0 \/ k = 1 \/ k = 2 \/ k = 3) by lia.
  destruct E as [-> | [-> | [-> | ->]]]; reflexivity.
Qed.

Lemma USAT2_cases x :
  USAT x 2 = 0 \/ USAT x 2 = 1 \/ USAT x 2 = 2 \/ USAT x 2 = 3.
Proof.
  pose proof (USAT_range x 2 ltac:(lia)).
  change (2 ^ 2 - 1) with 3 in *. lia.
Qed.

Lemma USAT4_cases x :
  USAT x 4 = 0 \/ USAT x 4 = 1 \/ USAT x 4 = 2 \/ USAT x 4 = 3 \/
  USAT x 4 = 4 \/ USAT x 4 = 5 \/ USAT x 4 = 6 \/ USAT x 4 = 7 \/
  USAT x 4 = 8 \/ USAT x 4 = 9 \/ USAT x 4 = 10 \/ USAT x 4 = 11 \/
  USAT x 4 = 12 \/ USAT x 4 = 13 \/ USAT x 4 = 14 \/ USAT x 4 = 15.
Proof.
  pose proof (USAT_range x 4 ltac:(lia)).
  change (2 ^ 4 - 1) with 15 in *. lia.
Qed.

(** Case analysis on the value of a saturated code. *)
Ltac usat_cases x n :=
  let H := fresh "H" in
  match n with
  | 2 => pose proof (USAT2_cases x) as H
  | 4 => pose proof (USAT4_cases x) as H
  end;
  repeat (destruct H as [H | H]; [rewrite H | ]); try rewrite H; clear H.

Lemma nibbles_fields r r' :
  nibble 0 (nibbles (USAT r 4) (USAT r' 4)) = USAT r 4 /\
  nibble 1 (nibbles (USAT r 4) (USAT r' 4)) = USAT r' 4.
Proof. usat_cases r 4; usat_cases r' 4; split; reflexivity. Qed.

Lemma crumbs_lo_fields r r' :
  crumb 0 (crumbs_lo (USAT r 2) (USAT r' 2)) = USAT r 2 /\
  crumb 1 (crumbs_lo (USAT r 2) (USAT r' 2)) = USAT r' 2 /\
  crumb 2 (crumbs_lo (USAT r 2) (USAT r' 2)) = 0 /\
  crumb 3 (crumbs_lo (USAT r 2) (USAT r' 2)) = 0.
Proof. usat_cases r 2; usat_cases r' 2; repeat split; reflexivity. Qed.

Lemma crumbs_hi_fields r r' old :
  crumb 0 (crumbs_hi (USAT r 2) (USAT r' 2) old) = crumb 0 old /\
  crumb 1 (crumbs_hi (USAT r 2) (USAT r' 2) old) = crumb 1 old /\
  crumb 2 (crumbs_hi (USAT r 2) (USAT r' 2) old)
    = Z.lor (USAT r 2) (crumb 2 old) /\
  crumb 3 (crumbs_hi (USAT r 2) (USAT r' 2) old)
    = Z.lor (USAT r' 2) (crumb 3 old).
Proof.
  unfold crumbs_hi.
  rewrite !crumb_uint8, !crumb_lor, !crumb_uint8 by lia.
  usat_cases r 2; usat_cases r' 2; repeat split; reflexivity.
Qed.

End FieldFacts.

(** *** Affine requantization *)

Section Requantization.

Lemma n_zero_split_max n_zero :
  -128 < n_zero <= 127 ->
  n_zero_split n_zero = (Z.max 0 (- n_zero), Z.max 0 n_zero).
Proof.
  intros H. unfold n_zero_split. destruct (0 <? n_zero) eqn:E.
  - f_equal; lia.
  - unfold int8. rewrite sint_small by lia. f_equal; lia.
Qed.

(** With an [int32_t] multiplier and a [uint8_t] offset the final addition
    does not leave the [int32_t] range. *)
Lemma requant_no_wrap s m_zero n_zero z_out :
  in_int32 m_zero -> in_uint8 z_out -> -128 < n_zero <= 127 ->
  requant s m_zero n_zero z_out =
  asr32 (HI_SMULL (shl32 s (Z.max 0 (- n_zero))) m_zero) (Z.max 0 n_zero)
  + z_out.
Proof.
  intros Hm Hz Hn. unfold requant. rewrite n_zero_split_max by exact Hn.
  apply wrap32_small.
  pose proof (HI_SMULL_bound (shl32 s (Z.max 0 (- n_zero))) m_zero
                (wrap32_range _) Hm) as Hb.
  pose proof (asr32_bound _ (Z.max 0 n_zero) (2 ^ 30)
                ltac:(lia) ltac:(lia) Hb).
  unfold in_int32, in_uint8 in *. lia.
Qed.

Lemma requant_mono m_zero n_zero z_out s t :
  in_int32 m_zero -> 0 <= m_zero -> in_uint8 z_out -> -128 < n_zero <= 127 ->
  in_int32 (s * 2 ^ Z.max 0 (- n_zero)) ->
  in_int32 (t * 2 ^ Z.max 0 (- n_zero)) ->
  s <= t ->
  requant s m_zero n_zero z_out <= requant t m_zero n_zero z_out.
Proof.
  intros Hm Hm0 Hz Hn Hs Ht Hst.
  rewrite !requant_no_wrap by assumption.
  rewrite !shl32_exact by (assumption || lia).
  apply Z.add_le_mono_r, asr32_mono; [lia|].
  apply HI_SMULL_mono; [exact Hm0|].
  apply Z.mul_le_mono_nonneg_r; [apply Z.pow_nonneg; lia | exact Hst].
Qed.



(** C9, as amended.  The output code always lies in [0 .. 2^bits - 1].
    For a fixed non-negative multiplier [m_zero], a fixed [n_zero] other
    than -128 and a fixed [z_out], and for accumulators [s <= t] whose left
    pre-shift by [n_zero1] does not overflow [int32_t] (no condition when
    [n_zero >= 0]), the output code at [s] is at most the output code at
    [t]. *)
Theorem requant_code_range_and_monotone :
  forall bits : Z, 0 <= bits ->
    (forall s m_zero n_zero z_out,
        0 <= requant_code bits s m_zero n_zero z_out <= 2 ^ bits - 1) /\
    (forall m_zero n_zero z_out s t,
        in_int32 m_zero -> 0 <= m_zero -> in_uint8 z_out ->
        -128 < n_zero <= 127 ->
        in_int32 (s * 2 ^ Z.max 0 (- n_zero)) ->
        in_int32 (t * 2 ^ Z.max 0 (- n_zero)) ->
        s <= t ->
        requant_code bits s m_zero n_zero z_out
        <= requant_code bits t m_zero n_zero z_out).
Proof.
  intros bits Hb. split.
  - intros. apply USAT_range. exact Hb.
  - intros. apply USAT_mono; [exact Hb|]. now apply requant_mono.
Qed.

Lemma requant_code_range_and_monotone_witness :
  0 <= 4 /\ in_int32 (2 ^ 30) /\ 0 <= 2 ^ 30 /\ in_uint8 8 /\
  -128 < -3 <= 127 /\
  in_int32 (-5 * 2 ^ Z.max 0 (- (-3))) /\
  in_int32 (100 * 2 ^ Z.max 0 (- (-3))) /\ -5 <= 100 /\
  requant_code 4 (-5) (2 ^ 30) (-3) 8 <= requant_code 4 100 (2 ^ 30) (-3) 8.
Proof.
  assert (H4 : 0 <= 4) by lia.
  assert (Hm : in_int32 (2 ^ 30)) by (unfold in_int32; lia).
  assert (Hm0 : 0 <= 2 ^ 30) by lia.
  assert (Hz : in_uint8 8) by (unfold in_uint8; lia).
  assert (Hn : -128 < -3 <= 127) by lia.
  assert (Hs : in_int32 (-5 * 2 ^ Z.max 0 (- (-3))))
    by (unfold in_int32; simpl; lia).
  assert (Ht : in_int32 (100 * 2 ^ Z.max 0 (- (-3))))
    by (unfold in_int32; simpl; lia).
  assert (Hst : -5 <= 100) by lia.
  repeat (split; [assumption|]).
  exact (proj2 (requant_code_range_and_monotone 4 H4)
               (2 ^ 30) (-3) 8 (-5) 100 Hm Hm0 Hz Hn Hs Ht Hst).
Defined.

(** C9 as stated fails for a negative multiplier, and for a positive one
    when the left pre-shift overflows. *)
Lemma requant_code_not_monotone :
  (-4 <= 0 /\
   ~ requant_code 4 (-4) (- 2 ^ 30) 0 0 <= requant_code 4 0 (- 2 ^ 30) 0 0) /\
  (2 ^ 29 <= 2 ^ 30 /\
   ~ requant_code 4 (2 ^ 29) (2 ^ 30) (-1) 0
     <= requant_code 4 (2 ^ 30) (2 ^ 30) (-1) 0).
Proof.
  split; (split; [lia | vm_compute; intros H; apply H; reflexivity]).
Qed.

End Requantization.

(** *** Dual-row packing of the u2 kernel *)

Section PackingU2.

Lemma row_pair_parity k : (Z.land (2 * k) 2 =? 0) = Z.even k.
Proof.
  assert (E : Z.land (2 * k) 2 = 2 * (k mod 2)).
  { replace (2 * k) with (Z.shiftl k 1)
      by (rewrite Z.shiftl_mul_pow2; lia).
    replace 2 with (Z.shiftl (Z.ones 1) 1) at 1 by reflexivity.
    rewrite <- Z.shiftl_land, Z.land_ones, Z.shiftl_mul_pow2 by lia.
    change (2 ^ 1) with 2. lia. }
  rewrite E, Zdiv.Zeven_mod.
  destruct (Z.eqb_spec (k mod 2) 0), (Z.eqb_spec (2 * (k mod 2)) 0);
    try reflexivity; lia.
Qed.


Lemma store_u2_even k a o :
  Z.even k = true ->
  store_u2 (2 * k) a o =
  let m1 := store (out o) (pOut o)
              (crumbs_lo (USAT (sum a) 2) (USAT (sum3 a) 2)) in
  OutState (store m1 (pOut2 o)
              (crumbs_lo (USAT (sum2 a) 2) (USAT (sum4 a) 2)))
           (pOut o) (pOut2 o).
Proof.
  intros Hk. unfold store_u2. rewrite row_pair_parity, Hk. reflexivity.
Qed.

Lemma store_u2_odd k a o :
  Z.even k = false ->
  store_u2 (2 * k) a o =
  let m1 := store (out o) (pOut o)
              (crumbs_hi (USAT (sum a) 2) (USAT (sum3 a) 2)
                         (out o (pOut o))) in
  OutState (store m1 (pOut2 o)
              (crumbs_hi (USAT (sum2 a) 2) (USAT (sum4 a) 2) (m1 (pOut2 o))))
           (pOut o + 1) (pOut2 o + 1).
Proof.
  intros Hk. unfold store_u2. rewrite row_pair_parity, Hk. reflexivity.
Qed.

(** Two consecutive row pairs, the first with an even index, fill one byte
    of the first stream with the codes of four rows, when the two streams
    do not share the byte. *)
Lemma store_u2_two_row_pairs k a a' o :
  Z.even k = true -> pOut o <> pOut2 o ->
  let o' := store_u2 (2 * (k + 1)) a' (store_u2 (2 * k) a o) in
  let v := out o' (pOut o) in
  crumb 0 v = USAT (sum a) 2 /\ crumb 1 v = USAT (sum3 a) 2 /\
  crumb 2 v = USAT (sum a') 2 /\ crumb 3 v = USAT (sum3 a') 2 /\
  pOut o' = pOut o + 1.
Proof.
  intros Hk Hp. cbv zeta.
  rewrite (store_u2_even k a o Hk).
  rewrite store_u2_odd by (rewrite Z.even_add, Hk; reflexivity).
  cbn [out pOut pOut2].
  rewrite (store_other _ (pOut2 o) _ (pOut o)) by exact Hp.
  rewrite store_same.
  rewrite (store_other _ (pOut2 o) _ (pOut o)) by exact Hp.
  rewrite store_same.
  destruct (crumbs_hi_fields (sum a') (sum3 a')
              (crumbs_lo (USAT (sum a) 2) (USAT (sum3 a) 2)))
    as (E0 & E1 & E2 & E3).
  destruct (crumbs_lo_fields (sum a) (sum3 a)) as (F0 & F1 & F2 & F3).
  rewrite E0, E1, E2, E3, F0, F1, F2, F3, !Z.lor_0_r. repeat split.
Qed.

End PackingU2.

(** *** The loop over the rows of [A] *)

Section RowLoops.

Variable rap8 : mem -> Z -> Z * Z * Z.
Variable rap4 : mem -> Z -> Z * Z * Z * Z * Z.
Variable q : Z -> mem -> Z.
Variables (A pInBuffer : mem) (ch_im_out numCol_A : Z) (bias Out : mem).
Variables (pOut0 z_a z_out m_zero n_zero : Z) (thresholds : mem).

Let offs := z_a_offsets pInBuffer numCol_A z_a.
Let rows84 :=
  rows_u8_int16_u4 rap8 A pInBuffer ch_im_out numCol_A bias Out pOut0 z_a
                   z_out m_zero n_zero.
Let rows42 :=
  rows_u4_int16_u2 rap4 A pInBuffer ch_im_out numCol_A bias Out pOut0 z_a
                   z_out m_zero n_zero.
Let rowsthr :=
  rows_u8_int16_u4_thr rap8 q A pInBuffer ch_im_out numCol_A bias Out pOut0
                       z_a thresholds.

Lemma rows84_succ k :
  rows84 (S k)
  = row_step_u8_u4 rap8 A pInBuffer bias numCol_A offs z_out m_zero n_zero
                   (rows84 k).
Proof. apply loop_succ_r. Qed.

Lemma rows42_succ k :
  rows42 (S k)
  = row_step_u4_u2 rap4 A pInBuffer bias numCol_A offs z_out m_zero n_zero
                   (rows42 k).
Proof. apply loop_succ_r. Qed.

Lemma rowsthr_succ k :
  rowsthr (S k)
  = row_step_u8_u4_thr rap8 q A pInBuffer bias numCol_A offs thresholds
                       (rowsthr k).
Proof. apply loop_succ_r. Qed.

Lemma rowsthr_index k : snd (fst (rowsthr k)) = 2 * Z.of_nat k.
Proof.
  induction k as [|k IH]; [reflexivity|].
  rewrite rowsthr_succ. destruct (rowsthr k) as [[pA0 i] o].
  cbn [fst snd] in IH. unfold row_step_u8_u4_thr.
  destruct (row_accs_u8 _ _ _ _ _ _ _ _) as [acc c]. cbn [fst snd]. lia.
Qed.

Lemma even_of_nat k : Z.even (Z.of_nat k) = Nat.even k.
Proof.
  induction k as [|k IH]; [reflexivity|].
  rewrite Nat2Z.inj_succ, Z.even_succ, Nat.even_succ.
  rewrite <- Z.negb_even, <- Nat.negb_even. now rewrite IH.
Qed.

(** The invariant of the row loop of the u4-to-u2 kernel: the row index is
    twice the number of row pairs done, the two stream pointers keep their
    distance, and after an even row pair the upper halves of the bytes
    under both pointers are clear when the streams do not share them. *)
Lemma rows42_invariant k :
  let '(_, i, o) := rows42 k in
  i = 2 * Z.of_nat k /\
  pOut2 o = pOut o + Z.shiftr ch_im_out 2 /\
  (Nat.even k = false -> Z.shiftr ch_im_out 2 <> 0 ->
   crumb 2 (out o (pOut o)) = 0 /\ crumb 3 (out o (pOut o)) = 0 /\
   crumb 2 (out o (pOut2 o)) = 0 /\ crumb 3 (out o (pOut2 o)) = 0).
Proof.
  induction k as [|k IH].
  - cbn. repeat split; try lia; discriminate.
  - rewrite rows42_succ. destruct (rows42 k) as [[pA0 i] o].
    destruct IH as (Hi & Hp & _). unfold row_step_u4_u2.
    destruct (row_accs_u4 _ _ _ _ _ _ _ _) as [acc c].
    split; [lia|]. rewrite Hi.
    destruct (Nat.even k) eqn:Ek.
    + rewrite store_u2_even by (now rewrite even_of_nat).
      cbn [out pOut pOut2]. split; [exact Hp|].
      intros _ Hq.
      rewrite (store_other _ (pOut2 o) _ (pOut o)) by lia.
      rewrite !store_same.
      destruct (crumbs_lo_fields
                  (sum (requant_accs acc m_zero n_zero z_out))
                  (sum3 (requant_accs acc m_zero n_zero z_out)))
        as (_ & _ & E2 & E3).
      destruct (crumbs_lo_fields
                  (sum2 (requant_accs acc m_zero n_zero z_out))
                  (sum4 (requant_accs acc m_zero n_zero z_out)))
        as (_ & _ & F2 & F3).
      auto.
    + rewrite store_u2_odd by (now rewrite even_of_nat).
      cbn [out pOut pOut2]. split; [lia|].
      intros E. rewrite Nat.even_succ, <- Nat.negb_even, Ek in E.
      discriminate E.
Qed.

(** The two bytes the store step of the u8-to-u4 kernel writes. *)
Lemma store_u4_bytes a o :
  exists v v2 : Z,
    out (store_u4 a o) = store (store (out o) (pOut o) v) (pOut2 o) v2 /\
    nibble 0 v = clamp 0 (2 ^ 4 - 1) (sum a) /\
    nibble 1 v = clamp 0 (2 ^ 4 - 1) (sum3 a) /\
    nibble 0 v2 = clamp 0 (2 ^ 4 - 1) (sum2 a) /\
    nibble 1 v2 = clamp 0 (2 ^ 4 - 1) (sum4 a).
Proof.
  exists (nibbles (USAT (sum a) 4) (USAT (sum3 a) 4)).
  exists (nibbles (USAT (sum2 a) 4) (USAT (sum4 a) 4)).
  rewrite <- !USAT_clamp by lia.
  destruct (nibbles_fields (sum a) (sum3 a)) as [E0 E1].
  destruct (nibbles_fields (sum2 a) (sum4 a)) as [F0 F1].
  repeat split; assumption.
Qed.

End RowLoops.






(** *** Pointers, frame and layout of the output *)

Section RowPointersU8U4.

Variable rap8 : mem -> Z -> Z * Z * Z.
Variables (A pInBuffer : mem) (ch_im_out numCol_A : Z) (bias Out : mem).
Variables (pOut0 z_a z_out m_zero n_zero : Z).

Let rows84 :=
  rows_u8_int16_u4 rap8 A pInBuffer ch_im_out numCol_A bias Out pOut0 z_a
                   z_out m_zero n_zero.

Lemma rows84_pointers k :
  let '(_, i, o) := rows84 k in
  i = 2 * Z.of_nat k /\
  pOut o = pOut0 + Z.of_nat k /\
  pOut2 o = pOut0 + Z.shiftr ch_im_out 1 + Z.of_nat k /\
  forall p,
    ~ pOut0 <= p < pOut0 + Z.of_nat k ->
    ~ pOut0 + Z.shiftr ch_im_out 1 <= p
      < pOut0 + Z.shiftr ch_im_out 1 + Z.of_nat k ->
    out o p = Out p.
Proof.
  induction k as [|k IH].
  - cbn. repeat split; lia.
  - unfold rows84 in IH |- *. rewrite rows84_succ.
    destruct (rows_u8_int16_u4 _ _ _ _ _ _ _ _ _ _ _ _ k) as [[pA0 i] o].
    destruct IH as (Hi & Hp & Hp2 & Hf). unfold row_step_u8_u4.
    destruct (row_accs_u8 _ _ _ _ _ _ _ _) as [acc c].
    unfold store_u4. cbn [out pOut pOut2].
    repeat split; try lia.
    intros p H1 H2. rewrite !store_other by lia. apply Hf; lia.
Qed.

(** Later row pairs leave the bytes of earlier ones alone. *)
Lemma rows84_frame k d p :
  ~ pOut0 + Z.of_nat k <= p < pOut0 + Z.of_nat (k + d) ->
  ~ pOut0 + Z.shiftr ch_im_out 1 + Z.of_nat k <= p
    < pOut0 + Z.shiftr ch_im_out 1 + Z.of_nat (k + d) ->
  out (snd (rows84 (k + d))) p = out (snd (rows84 k)) p.
Proof.
  induction d as [|d IH]; intros H1 H2.
  - now rewrite Nat.add_0_r.
  - replace (k + S d)%nat with (S (k + d)) in * by lia.
    pose proof (rows84_pointers (k + d)) as P.
    unfold rows84 in P, IH |- *. rewrite rows84_succ.
    destruct (rows_u8_int16_u4 _ _ _ _ _ _ _ _ _ _ _ _ (k + d))
      as [[pA0 i] o].
    destruct P as (_ & Hp & Hp2 & _). unfold row_step_u8_u4.
    destruct (row_accs_u8 _ _ _ _ _ _ _ _) as [acc c].
    unfold store_u4. cbn [snd out]. cbn [snd] in IH.
    rewrite !store_other by lia. apply IH; lia.
Qed.

End RowPointersU8U4.

Section RowPointersThr.

Variable rap8 : mem -> Z -> Z * Z * Z.
Variable q : Z -> mem -> Z.
Variables (A pInBuffer : mem) (ch_im_out numCol_A : Z) (bias Out : mem).
Variables (pOut0 z_a : Z) (thresholds : mem).

Let rowsthr :=
  rows_u8_int16_u4_thr rap8 q A pInBuffer ch_im_out numCol_A bias Out pOut0
                       z_a thresholds.

Lemma rowsthr_pointers k :
  let '(_, i, o) := rowsthr k in
  pOut o = pOut0 + Z.of_nat k /\
  pOut2 o = pOut0 + Z.shiftr ch_im_out 1 + Z.of_nat k /\
  forall p,
    ~ pOut0 <= p < pOut0 + Z.of_nat k ->
    ~ pOut0 + Z.shiftr ch_im_out 1 <= p
      < pOut0 + Z.shiftr ch_im_out 1 + Z.of_nat k ->
    out o p = Out p.
Proof.
  induction k as [|k IH].
  - cbn. repeat split; lia.
  - unfold rowsthr in IH |- *. rewrite rowsthr_succ.
    destruct (rows_u8_int16_u4_thr _ _ _ _ _ _ _ _ _ _ _ k) as [[pA0 i] o].
    destruct IH as (Hp & Hp2 & Hf). unfold row_step_u8_u4_thr.
    destruct (row_accs_u8 _ _ _ _ _ _ _ _) as [acc c].
    unfold store_u4_thr. cbn [out pOut pOut2].
    repeat split; try lia.
    intros p H1 H2. rewrite !store_other by lia. apply Hf; lia.
Qed.

Lemma rowsthr_frame k d p :
  ~ pOut0 + Z.of_nat k <= p < pOut0 + Z.of_nat (k + d) ->
  ~ pOut0 + Z.shiftr ch_im_out 1 + Z.of_nat k <= p
    < pOut0 + Z.shiftr ch_im_out 1 + Z.of_nat (k + d) ->
  out (snd (rowsthr (k + d))) p = out (snd (rowsthr k)) p.
Proof.
  induction d as [|d IH]; intros H1 H2.
  - now rewrite Nat.add_0_r.
  - replace (k + S d)%nat with (S (k + d)) in * by lia.
    pose proof (rowsthr_pointers (k + d)) as P.
    unfold rowsthr in P, IH |- *. rewrite rowsthr_succ.
    destruct (rows_u8_int16_u4_thr _ _ _ _ _ _ _ _ _ _ _ (k + d))
      as [[pA0 i] o].
    destruct P as (Hp & Hp2 & _). unfold row_step_u8_u4_thr.
    destruct (row_accs_u8 _ _ _ _ _ _ _ _) as [acc c].
    unfold store_u4_thr. cbn [snd out]. cbn [snd] in IH.
    rewrite !store_other by lia. apply IH; lia.
Qed.

End RowPointersThr.

Section RowPointersU4U2.

Variable rap4 : mem -> Z -> Z * Z * Z * Z * Z.
Variables (A pInBuffer : mem) (ch_im_out numCol_A : Z) (bias Out : mem).
Variables (pOut0 z_a z_out m_zero n_zero : Z).

Let rows42 :=
  rows_u4_int16_u2 rap4 A pInBuffer ch_im_out numCol_A bias Out pOut0 z_a
                   z_out m_zero n_zero.

Lemma rows42_pointers k :
  let '(_, i, o) := rows42 k in
  pOut o = pOut0 + Z.of_nat k / 2 /\
  pOut2 o = pOut0 + Z.shiftr ch_im_out 2 + Z.of_nat k / 2 /\
  forall p,
    ~ pOut0 <= p < pOut0 + (Z.of_nat k + 1) / 2 ->
    ~ pOut0 + Z.shiftr ch_im_out 2 <= p
      < pOut0 + Z.shiftr ch_im_out 2 + (Z.of_nat k + 1) / 2 ->
    out o p = Out p.
Proof.
  induction k as [|k IH].
  - cbn. repeat split; lia.
  - pose proof (rows42_invariant rap4 A pInBuffer ch_im_out numCol_A bias
                  Out pOut0 z_a z_out m_zero n_zero k) as I.
    unfold rows42 in IH, I |- *. rewrite rows42_succ.
    destruct (rows_u4_int16_u2 _ _ _ _ _ _ _ _ _ _ _ _ k) as [[pA0 i] o].
    destruct IH as (Hp & Hp2 & Hf). destruct I as (Hi & _ & _).
    unfold row_step_u4_u2.
    destruct (row_accs_u4 _ _ _ _ _ _ _ _) as [acc c].
    rewrite Hi. rewrite Nat2Z.inj_succ.
    pose proof (even_of_nat k) as Ev. rewrite Zdiv.Zeven_mod in Ev.
    assert (H0 : 0 <= Z.of_nat k / 2) by (apply Z.div_pos; lia).
    destruct (Nat.even k) eqn:Ek.
    + rewrite store_u2_even by (now rewrite even_of_nat).
      apply Z.eqb_eq in Ev. cbn [out pOut pOut2].
      assert (E1 : Z.succ (Z.of_nat k) / 2 = Z.of_nat k / 2)
        by (Z.div_mod_to_equations; lia).
      assert (E2 : (Z.succ (Z.of_nat k) + 1) / 2 = Z.of_nat k / 2 + 1)
        by (Z.div_mod_to_equations; lia).
      assert (E3 : (Z.of_nat k + 1) / 2 = Z.of_nat k / 2)
        by (Z.div_mod_to_equations; lia).
      rewrite E1, E2. rewrite E3 in Hf. repeat split; try lia.
      intros p H1 H2. rewrite !store_other by lia. apply Hf; lia.
    + rewrite store_u2_odd by (now rewrite even_of_nat).
      apply Z.eqb_neq in Ev. cbn [out pOut pOut2].
      assert (E1 : Z.succ (Z.of_nat k) / 2 = Z.of_nat k / 2 + 1)
        by (Z.div_mod_to_equations; lia).
      assert (E2 : (Z.succ (Z.of_nat k) + 1) / 2 = Z.of_nat k / 2 + 1)
        by (Z.div_mod_to_equations; lia).
      assert (E3 : (Z.of_nat k + 1) / 2 = Z.of_nat k / 2 + 1)
        by (Z.div_mod_to_equations; lia).
      rewrite E1, E2. rewrite E3 in Hf. repeat split; try lia.
      intros p H1 H2. rewrite !store_other by lia. apply Hf; lia.
Qed.

Lemma rows42_frame k d p :
  ~ pOut0 + Z.of_nat k / 2 <= p < pOut0 + (Z.of_nat (k + d) + 1) / 2 ->
  ~ pOut0 + Z.shiftr ch_im_out 2 + Z.of_nat k / 2 <= p
    < pOut0 + Z.shiftr ch_im_out 2 + (Z.of_nat (k + d) + 1) / 2 ->
  out (snd (rows42 (k + d))) p = out (snd (rows42 k)) p.
Proof.
  induction d as [|d IH]; intros H1 H2.
  - now rewrite Nat.add_0_r.
  - replace (k + S d)%nat with (S (k + d)) in * by lia.
    pose proof (rows42_pointers (k + d)) as P.
    pose proof (rows42_invariant rap4 A pInBuffer ch_im_out numCol_A bias
                  Out pOut0 z_a z_out m_zero n_zero (k + d)) as I.
    unfold rows42 in P, I, IH |- *. rewrite rows42_succ.
    destruct (rows_u4_int16_u2 _ _ _ _ _ _ _ _ _ _ _ _ (k + d))
      as [[pA0 i] o].
    destruct P as (Hp & Hp2 & _). destruct I as (Hi & _ & _).
    unfold row_step_u4_u2.
    destruct (row_accs_u4 _ _ _ _ _ _ _ _) as [acc c].
    cbn [snd] in *. rewrite Hi.
    rewrite Nat2Z.inj_succ in H1, H2.
    assert (B : Z.of_nat k / 2 <= Z.of_nat (k + d) / 2
                /\ Z.of_nat (k + d) / 2 < (Z.succ (Z.of_nat (k + d)) + 1) / 2
                /\ (Z.of_nat (k + d) + 1) / 2
                   <= (Z.succ (Z.of_nat (k + d)) + 1) / 2).
    { rewrite Nat2Z.inj_add. Z.div_mod_to_equations. lia. }
    destruct (Nat.even (k + d)) eqn:Ek.
    + rewrite store_u2_even by (now rewrite even_of_nat).
      cbn [out]. rewrite !store_other by lia. apply IH; lia.
    + rewrite store_u2_odd by (now rewrite even_of_nat).
      cbn [out]. rewrite !store_other by lia. apply IH; lia.
Qed.

End RowPointersU4U2.

Lemma trips_by2_Z n : 0 <= n -> Z.of_nat (trips_by2 n) = (n + 1) / 2.
Proof.
  intros H. unfold trips_by2. apply Z2Nat.id. apply Z.div_pos; lia.
Qed.

Lemma shiftr1_div n : Z.shiftr n 1 = n / 2.
Proof. now rewrite Z.shiftr_div_pow2 by lia. Qed.

Lemma shiftr2_div n : Z.shiftr n 2 = n / 4.
Proof. now rewrite Z.shiftr_div_pow2 by lia. Qed.

(** The u8-to-u4 kernel returns the output pointer advanced by one byte
    per output row, and changes no byte outside the block that starts at
    [pOut] and holds one byte per row (one more when the number of rows is
    odd). *)
Theorem u8_u4_output_block :
  forall (rap8 : mem -> Z -> Z * Z * Z) (A pInBuffer : mem)
         (ch_im_out numCol_A : Z) (bias Out : mem)
         (pOut0 z_a z_out m_zero n_zero : Z),
    0 <= ch_im_out ->
    let r :=
      arm_nn_mat_mult_kernel_reordered_u8_int16_u4 rap8 A pInBuffer
        ch_im_out numCol_A bias Out pOut0 z_a z_out m_zero n_zero in
    snd r = pOut0 + ch_im_out /\
    forall p,
      p < pOut0 \/ pOut0 + 2 * ((ch_im_out + 1) / 2) <= p ->
      fst r p = Out p.
Proof.
  intros rap8 A pInBuffer ch_im_out numCol_A bias Out pOut0 z_a z_out m_zero
         n_zero Hc r.
  subst r. unfold arm_nn_mat_mult_kernel_reordered_u8_int16_u4.
  pose proof (rows84_pointers rap8 A pInBuffer ch_im_out numCol_A bias Out
                pOut0 z_a z_out m_zero n_zero (trips_by2 ch_im_out)) as P.
  destruct (rows_u8_int16_u4 _ _ _ _ _ _ _ _ _ _ _ _ _) as [[pA0 i] o].
  destruct P as (_ & Hp & _ & Hf). cbn [fst snd].
  rewrite trips_by2_Z in * by exact Hc. rewrite shiftr1_div in *.
  assert (0 <= ch_im_out / 2) by (apply Z.div_pos; lia).
  split.
  - rewrite Hp. Z.div_mod_to_equations. lia.
  - intros p Hp'. apply Hf; Z.div_mod_to_equations; lia.
Qed.

Lemma u8_u4_output_block_witness :
  0 <= 4 /\
  snd (arm_nn_mat_mult_kernel_reordered_u8_int16_u4 reader_zero zero_mem
         two_col_vectors 4 2 zero_mem zero_mem 10 1 8 1073741824 (-3))
  = 14.
Proof.
  assert (H : 0 <= 4) by lia. split; [exact H|].
  exact (proj1 (u8_u4_output_block reader_zero zero_mem two_col_vectors 4 2
                  zero_mem zero_mem 10 1 8 1073741824 (-3) H)).
Defined.

(** Where the codes of the u8-to-u4 kernel land, for an even number of
    rows: when the kernel returns, byte [k] of the output block holds the
    requantized sums of the rows [2k] and [2k + 1] against the first
    activation vector, clamped to [0 .. 15], in its low and high nibble,
    and byte [ch_im_out / 2 + k] those against the second vector. *)
Theorem u8_u4_output_layout :
  forall (rap8 : mem -> Z -> Z * Z * Z) (A pInBuffer : mem)
         (ch_im_out numCol_A : Z) (bias Out : mem)
         (pOut0 z_a z_out m_zero n_zero : Z) (k : nat),
    0 <= ch_im_out -> Z.even ch_im_out = true ->
    (k < trips_by2 ch_im_out)%nat ->
    let '(pA0, i, _) :=
      rows_u8_int16_u4 rap8 A pInBuffer ch_im_out numCol_A bias Out pOut0
                       z_a z_out m_zero n_zero k in
    let s :=
      requant_accs
        (fst (row_accs_u8 rap8 A pInBuffer bias numCol_A
                (z_a_offsets pInBuffer numCol_A z_a) pA0 i))
        m_zero n_zero z_out in
    let M :=
      fst (arm_nn_mat_mult_kernel_reordered_u8_int16_u4 rap8 A pInBuffer
             ch_im_out numCol_A bias Out pOut0 z_a z_out m_zero n_zero) in
    let b := M (pOut0 + Z.of_nat k) in
    let b2 := M (pOut0 + ch_im_out / 2 + Z.of_nat k) in
    i = 2 * Z.of_nat k /\
    nibble 0 b = clamp 0 (2 ^ 4 - 1) (sum s) /\
    nibble 1 b = clamp 0 (2 ^ 4 - 1) (sum3 s) /\
    nibble 0 b2 = clamp 0 (2 ^ 4 - 1) (sum2 s) /\
    nibble 1 b2 = clamp 0 (2 ^ 4 - 1) (sum4 s).
Proof.
  intros rap8 A pInBuffer ch_im_out numCol_A bias Out pOut0 z_a z_out m_zero
         n_zero k Hc He Hk.
  assert (Ht : Z.of_nat (trips_by2 ch_im_out) = ch_im_out / 2).
  { rewrite trips_by2_Z by exact Hc. rewrite Zdiv.Zeven_mod in He.
    apply Z.eqb_eq in He. Z.div_mod_to_equations. lia. }
  pose proof (rows84_pointers rap8 A pInBuffer ch_im_out numCol_A bias Out
                pOut0 z_a z_out m_zero n_zero k) as P.
  pose proof (rows84_succ rap8 A pInBuffer ch_im_out numCol_A bias Out
                pOut0 z_a z_out m_zero n_zero k) as Sk.
  pose proof (rows84_frame rap8 A pInBuffer ch_im_out numCol_A bias Out
                pOut0 z_a z_out m_zero n_zero (S k)
                (trips_by2 ch_im_out - S k)) as F.
  replace (S k + (trips_by2 ch_im_out - S k))%nat
    with (trips_by2 ch_im_out) in F by lia.
  unfold arm_nn_mat_mult_kernel_reordered_u8_int16_u4.
  destruct (rows_u8_int16_u4 _ _ _ _ _ _ _ _ _ _ _ _ (trips_by2 ch_im_out))
    as [[pAn i_n] o_n] eqn:En.
  cbn [fst snd] in F. rewrite Sk in F.
  destruct (rows_u8_int16_u4 _ _ _ _ _ _ _ _ _ _ _ _ k) as [[pA0 i] o].
  destruct P as (Hi & Hp & Hp2 & _).
  unfold row_step_u8_u4 in F.
  destruct (row_accs_u8 _ _ _ _ _ _ _ _) as [acc cur]. cbn [fst snd] in *.
  rewrite shiftr1_div in *.
  split; [exact Hi|].
  destruct (store_u4_bytes (requant_accs acc m_zero n_zero z_out) o)
    as (v & v2 & E & N0 & N1 & N2 & N3).
  rewrite E, Hp, Hp2 in F.
  rewrite (F (pOut0 + Z.of_nat k)) by lia.
  rewrite (F (pOut0 + ch_im_out / 2 + Z.of_nat k)) by lia.
  rewrite store_same, store_other, store_same by lia. auto.
Qed.

Lemma u8_u4_output_layout_witness :
  0 <= 4 /\ Z.even 4 = true /\ (1 < trips_by2 4)%nat /\
  let M :=
    fst (arm_nn_mat_mult_kernel_reordered_u8_int16_u4 reader_zero zero_mem
           two_col_vectors 4 2 zero_mem zero_mem 10 1 8 1073741824 (-3)) in
  nibble 0 (M 11) = 10 /\ nibble 1 (M 11) = 10 /\
  nibble 0 (M 13) = 12 /\ nibble 1 (M 13) = 12.
Proof.
  assert (Hc : 0 <= 4) by lia.
  assert (He : Z.even 4 = true) by reflexivity.
  assert (Hk : (1 < trips_by2 4)%nat) by (vm_compute; lia).
  split; [exact Hc|]. split; [exact He|]. split; [exact Hk|].
  pose proof (u8_u4_output_layout reader_zero zero_mem two_col_vectors 4 2
                zero_mem zero_mem 10 1 8 1073741824 (-3) 1%nat Hc He Hk)
    as T.
  hnf in T. destruct T as (_ & N0 & N1 & N2 & N3).
  repeat split; assumption.
Defined.

Lemma nibbles_masks lo hi :
  nibble 0 (nibbles lo hi) = Z.land lo 15 /\
  nibble 1 (nibbles lo hi) = Z.land hi 15.
Proof.
  unfold nibble, nibbles. rewrite uint8_land. split.
  - change (4 * 0) with 0. rewrite Z.shiftr_0_r, <- Z.land_assoc.
    change (Z.land 255 15) with 15.
    rewrite Z.land_lor_distr_l, <- !Z.land_assoc.
    change (Z.land 15 15) with 15. change (Z.land 240 15) with 0.
    now rewrite Z.land_0_r, Z.lor_0_r.
  - change (4 * 1) with 4. rewrite Z.shiftr_land, <- Z.land_assoc.
    change (Z.land (Z.shiftr 255 4) 15) with 15.
    rewrite Z.shiftr_lor, !Z.shiftr_land, Z.land_lor_distr_l.
    change (Z.shiftr 15 4) with 0. change (Z.shiftr 240 4) with 15.
    rewrite Z.land_0_r, Z.land_0_l, Z.lor_0_l.
    rewrite Z.shiftr_shiftl_l, Z.sub_diag, Z.shiftl_0_r by lia.
    rewrite <- Z.land_assoc. reflexivity.
Qed.

(** The threshold-folding kernel returns the output pointer advanced by
    one byte per output row and changes no byte outside the block that
    starts at [pOut]. *)
Theorem u8_u4_thr_output_block :
  forall (rap8 : mem -> Z -> Z * Z * Z) (q : Z -> mem -> Z)
         (A pInBuffer : mem) (ch_im_out numCol_A : Z) (bias Out : mem)
         (pOut0 z_a : Z) (thresholds : mem),
    0 <= ch_im_out ->
    let r :=
      arm_nn_mat_mult_kernel_reordered_u8_int16_u4_thr rap8 q A pInBuffer
        ch_im_out numCol_A bias Out pOut0 z_a thresholds in
    snd r = pOut0 + ch_im_out /\
    forall p,
      p < pOut0 \/ pOut0 + 2 * ((ch_im_out + 1) / 2) <= p ->
      fst r p = Out p.
Proof.
  intros rap8 q A pInBuffer ch_im_out numCol_A bias Out pOut0 z_a thresholds
         Hc r.
  subst r. unfold arm_nn_mat_mult_kernel_reordered_u8_int16_u4_thr.
  pose proof (rowsthr_pointers rap8 q A pInBuffer ch_im_out numCol_A bias Out
                pOut0 z_a thresholds (trips_by2 ch_im_out)) as P.
  destruct (rows_u8_int16_u4_thr _ _ _ _ _ _ _ _ _ _ _ _) as [[pA0 i] o].
  destruct P as (Hp & _ & Hf). cbn [fst snd].
  rewrite trips_by2_Z in * by exact Hc. rewrite shiftr1_div in *.
  assert (0 <= ch_im_out / 2) by (apply Z.div_pos; lia).
  split.
  - rewrite Hp. Z.div_mod_to_equations. lia.
  - intros p Hp'. apply Hf; Z.div_mod_to_equations; lia.
Qed.

Lemma u8_u4_thr_output_block_witness :
  0 <= 2 /\
  snd (arm_nn_mat_mult_kernel_reordered_u8_int16_u4_thr reader_zero
         quant_first zero_mem zero_mem 2 0 zero_mem zero_mem 10 0
         first_table16)
  = 12.
Proof.
  assert (H : 0 <= 2) by lia. split; [exact H|].
  exact (proj1 (u8_u4_thr_output_block reader_zero quant_first zero_mem
                  zero_mem 2 0 zero_mem zero_mem 10 0 first_table16 H)).
Defined.

(** Where the codes of the threshold-folding kernel land, for an even
    number of rows: when the kernel returns, byte [k] of the output block
    holds the low four bits of the codes of the rows [2k] and [2k + 1]
    against the first activation vector, each the answer of the quantizer
    on the thresholds from index [16 * row] on, and byte
    [ch_im_out / 2 + k] those against the second vector. *)
Theorem u8_u4_thr_output_layout :
  forall (rap8 : mem -> Z -> Z * Z * Z) (q : Z -> mem -> Z)
         (A pInBuffer : mem) (ch_im_out numCol_A : Z) (bias Out : mem)
         (pOut0 z_a : Z) (thresholds : mem) (k : nat),
    0 <= ch_im_out -> Z.even ch_im_out = true ->
    (k < trips_by2 ch_im_out)%nat ->
    let '(pA0, i, _) :=
      rows_u8_int16_u4_thr rap8 q A pInBuffer ch_im_out numCol_A bias Out
                           pOut0 z_a thresholds k in
    let s :=
      fst (row_accs_u8 rap8 A pInBuffer bias numCol_A
             (z_a_offsets pInBuffer numCol_A z_a) pA0 i) in
    let M :=
      fst (arm_nn_mat_mult_kernel_reordered_u8_int16_u4_thr rap8 q A
             pInBuffer ch_im_out numCol_A bias Out pOut0 z_a thresholds) in
    let b := M (pOut0 + Z.of_nat k) in
    let b2 := M (pOut0 + ch_im_out / 2 + Z.of_nat k) in
    let code := channel_code q thresholds (2 ^ 4) in
    i = 2 * Z.of_nat k /\
    nibble 0 b = Z.land (code i (sum s)) 15 /\
    nibble 1 b = Z.land (code (i + 1) (sum3 s)) 15 /\
    nibble 0 b2 = Z.land (code i (sum2 s)) 15 /\
    nibble 1 b2 = Z.land (code (i + 1) (sum4 s)) 15.
Proof.
  intros rap8 q A pInBuffer ch_im_out numCol_A bias Out pOut0 z_a thresholds
         k Hc He Hk.
  assert (Ht : Z.of_nat (trips_by2 ch_im_out) = ch_im_out / 2).
  { rewrite trips_by2_Z by exact Hc. rewrite Zdiv.Zeven_mod in He.
    apply Z.eqb_eq in He. Z.div_mod_to_equations. lia. }
  pose proof (rowsthr_pointers rap8 q A pInBuffer ch_im_out numCol_A bias Out
                pOut0 z_a thresholds k) as P.
  pose proof (rowsthr_index rap8 q A pInBuffer ch_im_out numCol_A bias Out
                pOut0 z_a thresholds k) as I.
  pose proof (rowsthr_succ rap8 q A pInBuffer ch_im_out numCol_A bias Out
                pOut0 z_a thresholds k) as Sk.
  pose proof (rowsthr_frame rap8 q A pInBuffer ch_im_out numCol_A bias Out
                pOut0 z_a thresholds (S k)
                (trips_by2 ch_im_out - S k)) as F.
  replace (S k + (trips_by2 ch_im_out - S k))%nat
    with (trips_by2 ch_im_out) in F by lia.
  unfold arm_nn_mat_mult_kernel_reordered_u8_int16_u4_thr.
  destruct (rows_u8_int16_u4_thr _ _ _ _ _ _ _ _ _ _ _
              (trips_by2 ch_im_out)) as [[pAn i_n] o_n] eqn:En.
  cbn [fst snd] in F. rewrite Sk in F.
  destruct (rows_u8_int16_u4_thr _ _ _ _ _ _ _ _ _ _ _ k) as [[pA0 i] o].
  destruct P as (Hp & Hp2 & _). cbn [fst snd] in I.
  unfold row_step_u8_u4_thr in F.
  destruct (row_accs_u8 _ _ _ _ _ _ _ _) as [acc cur]. cbn [fst snd] in *.
  rewrite shiftr1_div in *.
  split; [exact I|].
  unfold store_u4_thr, thr_codes_u4 in F.
  cbn [out sum sum2 sum3 sum4] in F. rewrite Hp, Hp2 in F.
  rewrite (F (pOut0 + Z.of_nat k)) by lia.
  rewrite (F (pOut0 + ch_im_out / 2 + Z.of_nat k)) by lia.
  rewrite store_same, store_other, store_same by lia.
  unfold channel_code, channel_thresholds.
  rewrite !Z.shiftl_mul_pow2 by lia.
  split; [apply nibbles_masks|]. split; [apply nibbles_masks|].
  split; apply nibbles_masks.
Qed.

Lemma u8_u4_thr_output_layout_witness :
  0 <= 2 /\ Z.even 2 = true /\ (0 < trips_by2 2)%nat /\
  let M :=
    fst (arm_nn_mat_mult_kernel_reordered_u8_int16_u4_thr reader_zero
           quant_first zero_mem zero_mem 2 0 zero_mem zero_mem 10 0
           first_table16) in
  nibble 0 (M 10) = 0 /\ nibble 1 (M 10) = 2 /\
  nibble 0 (M 11) = 0 /\ nibble 1 (M 11) = 2.
Proof.
  assert (Hc : 0 <= 2) by lia.
  assert (He : Z.even 2 = true) by reflexivity.
  assert (Hk : (0 < trips_by2 2)%nat) by (vm_compute; lia).
  split; [exact Hc|]. split; [exact He|]. split; [exact Hk|].
  pose proof (u8_u4_thr_output_layout reader_zero quant_first zero_mem
                zero_mem 2 0 zero_mem zero_mem 10 0 first_table16 0%nat
                Hc He Hk) as T.
  hnf in T. destruct T as (_ & N0 & N1 & N2 & N3).
  repeat split; assumption.
Defined.

(** The u4-to-u2 kernel returns the output pointer advanced by one byte
    for every second row pair, and changes no byte outside the block that
    starts at [pOut]; for a number of rows that is a multiple of four the
    block holds one byte per two rows and the returned pointer is its
    end. *)
Theorem u4_u2_output_block :
  forall (rap4 : mem -> Z -> Z * Z * Z * Z * Z) (A pInBuffer : mem)
         (ch_im_out numCol_A : Z) (bias Out : mem)
         (pOut0 z_a z_out m_zero n_zero : Z),
    0 <= ch_im_out ->
    let r :=
      arm_nn_mat_mult_kernel_reordered_u4_int16_u2 rap4 A pInBuffer
        ch_im_out numCol_A bias Out pOut0 z_a z_out m_zero n_zero in
    snd r = pOut0 + (ch_im_out + 1) / 4 + ch_im_out / 4 /\
    (forall p,
        p < pOut0 \/ pOut0 + ch_im_out / 4 + (ch_im_out + 3) / 4 <= p ->
        fst r p = Out p) /\
    (ch_im_out mod 4 = 0 ->
     snd r = pOut0 + ch_im_out / 2 /\
     pOut0 + ch_im_out / 4 + (ch_im_out + 3) / 4 = pOut0 + ch_im_out / 2).
Proof.
  intros rap4 A pInBuffer ch_im_out numCol_A bias Out pOut0 z_a z_out m_zero
         n_zero Hc r.
  subst r. unfold arm_nn_mat_mult_kernel_reordered_u4_int16_u2.
  pose proof (rows42_pointers rap4 A pInBuffer ch_im_out numCol_A bias Out
                pOut0 z_a z_out m_zero n_zero (trips_by2 ch_im_out)) as P.
  destruct (rows_u4_int16_u2 _ _ _ _ _ _ _ _ _ _ _ _ _) as [[pA0 i] o].
  destruct P as (Hp & _ & Hf). cbn [fst snd].
  rewrite trips_by2_Z in * by exact Hc. rewrite shiftr2_div in *.
  assert (0 <= ch_im_out / 4) by (apply Z.div_pos; lia).
  assert (E1 : (ch_im_out + 1) / 2 / 2 = (ch_im_out + 1) / 4)
    by (Z.div_mod_to_equations; lia).
  assert (E2 : ((ch_im_out + 1) / 2 + 1) / 2 = (ch_im_out + 3) / 4)
    by (Z.div_mod_to_equations; lia).
  rewrite E1 in Hp. rewrite E2 in Hf.
  split; [lia|]. split.
  - intros p Hp'. apply Hf; lia.
  - intros Hm. rewrite Hp. split; Z.div_mod_to_equations; lia.
Qed.

Lemma u4_u2_output_block_witness :
  0 <= 4 /\
  snd (arm_nn_mat_mult_kernel_reordered_u4_int16_u2 reader_zero4 zero_mem
         two_col_vectors 4 2 zero_mem zero_mem 10 1 0 (2 ^ 30) (-2))
  = 12.
Proof.
  assert (H : 0 <= 4) by lia. split; [exact H|].
  exact (proj1 (u4_u2_output_block reader_zero4 zero_mem two_col_vectors 4 2
                  zero_mem zero_mem 10 1 0 (2 ^ 30) (-2) H)).
Defined.

(** Where the codes of the u4-to-u2 kernel land, for a number of rows that
    is a multiple of four: when the kernel returns, row [r] of the product
    with the first activation vector is in crumb [r mod 4] of byte [r / 4]
    of the output block, and that of the second vector in the same crumb
    of byte [ch_im_out / 4 + r / 4]; each code is the requantized sum
    clamped to [0 .. 3].  In terms of the row pair [k] (rows [2k] and
    [2k + 1]): the byte is [k / 2] and the crumbs are 0 and 1 for even
    [k], 2 and 3 for odd [k]. *)
Theorem u4_u2_output_layout :
  forall (rap4 : mem -> Z -> Z * Z * Z * Z * Z) (A pInBuffer : mem)
         (ch_im_out numCol_A : Z) (bias Out : mem)
         (pOut0 z_a z_out m_zero n_zero : Z) (k : nat),
    0 <= ch_im_out -> ch_im_out mod 4 = 0 ->
    (k < trips_by2 ch_im_out)%nat ->
    let '(pA0, i, _) :=
      rows_u4_int16_u2 rap4 A pInBuffer ch_im_out numCol_A bias Out pOut0
                       z_a z_out m_zero n_zero k in
    let s :=
      requant_accs
        (fst (row_accs_u4 rap4 A pInBuffer bias numCol_A
                (z_a_offsets pInBuffer numCol_A z_a) pA0 i))
        m_zero n_zero z_out in
    let M :=
      fst (arm_nn_mat_mult_kernel_reordered_u4_int16_u2 rap4 A pInBuffer
             ch_im_out numCol_A bias Out pOut0 z_a z_out m_zero n_zero) in
    let b := M (pOut0 + Z.of_nat k / 2) in
    let b2 := M (pOut0 + ch_im_out / 4 + Z.of_nat k / 2) in
    let h := if Nat.even k then 0 else 2 in
    i = 2 * Z.of_nat k /\
    crumb h b = clamp 0 (2 ^ 2 - 1) (sum s) /\
    crumb (h + 1) b = clamp 0 (2 ^ 2 - 1) (sum3 s) /\
    crumb h b2 = clamp 0 (2 ^ 2 - 1) (sum2 s) /\
    crumb (h + 1) b2 = clamp 0 (2 ^ 2 - 1) (sum4 s).
Proof.
  intros rap4 A pInBuffer ch_im_out numCol_A bias Out pOut0 z_a z_out m_zero
         n_zero k Hc Hm Hk.
  set (rows := rows_u4_int16_u2 rap4 A pInBuffer ch_im_out numCol_A bias Out
                 pOut0 z_a z_out m_zero n_zero).
  set (q := ch_im_out / 4).
  assert (Ht : Z.of_nat (trips_by2 ch_im_out) = 2 * q).
  { rewrite trips_by2_Z by exact Hc. subst q.
    Z.div_mod_to_equations. lia. }
  assert (Hq : Z.shiftr ch_im_out 2 = q) by apply shiftr2_div.
  assert (Hh : (2 * q + 1) / 2 = q) by (Z.div_mod_to_equations; lia).
  assert (K2 : 0 <= Z.of_nat k / 2 < q).
  { Z.div_mod_to_equations. lia. }
  pose proof (even_of_nat k) as Ev. rewrite Zdiv.Zeven_mod in Ev.
  unfold arm_nn_mat_mult_kernel_reordered_u4_int16_u2. fold rows.
  pose proof (rows42_invariant rap4 A pInBuffer ch_im_out numCol_A bias Out
                pOut0 z_a z_out m_zero n_zero k) as I.
  pose proof (rows42_pointers rap4 A pInBuffer ch_im_out numCol_A bias Out
                pOut0 z_a z_out m_zero n_zero k) as P.
  pose proof (rows42_succ rap4 A pInBuffer ch_im_out numCol_A bias Out
                pOut0 z_a z_out m_zero n_zero k) as Sk.
  fold rows in I, P, Sk. rewrite Hq in *.
  destruct (Nat.even k) eqn:Ek.
  - (* even: this row pair writes the byte, the next one completes it *)
    apply Z.eqb_eq in Ev.
    assert (Hk1 : (S k < trips_by2 ch_im_out)%nat).
    { apply Nat2Z.inj_lt. rewrite Ht, Nat2Z.inj_succ.
      Z.div_mod_to_equations. lia. }
    pose proof (rows42_succ rap4 A pInBuffer ch_im_out numCol_A bias Out
                  pOut0 z_a z_out m_zero n_zero (S k)) as Sk1.
    pose proof (rows42_frame rap4 A pInBuffer ch_im_out numCol_A bias Out
                  pOut0 z_a z_out m_zero n_zero (S (S k))
                  (trips_by2 ch_im_out - S (S k))) as F.
    replace (S (S k) + (trips_by2 ch_im_out - S (S k)))%nat
      with (trips_by2 ch_im_out) in F by lia.
    fold rows in Sk1, F. rewrite Hq, Ht, Hh in F.
    destruct (rows (trips_by2 ch_im_out)) as [[pAn i_n] o_n].
    cbn [fst snd] in F. rewrite Sk1, Sk in F.
    destruct (rows k) as [[pA0 i] o].
    destruct I as (Hi & Hp2 & _). destruct P as (Hp & _ & _).
    unfold row_step_u4_u2 in F at 2.
    destruct (row_accs_u4 rap4 A pInBuffer bias numCol_A
                (z_a_offsets pInBuffer numCol_A z_a) pA0 i) as [acc cur].
    cbn [fst]. split; [exact Hi|]. rewrite <- !USAT_clamp by lia.
    set (a := requant_accs acc m_zero n_zero z_out) in *.
    rewrite Hi in F.
    rewrite store_u2_even in F by (now rewrite even_of_nat).
    cbv zeta in F. unfold row_step_u4_u2 in F.
    destruct (row_accs_u4 _ _ _ _ _ _ _ _) as [acc' cur'].
    replace (2 * Z.of_nat k + 2) with (2 * Z.of_nat (S k)) in F by lia.
    rewrite store_u2_odd in F
      by (rewrite even_of_nat, Nat.even_succ, <- Nat.negb_even, Ek;
          reflexivity).
    cbv zeta in F. cbn [snd out pOut pOut2] in F.
    rewrite Hp2, Hp in F.
    assert (E2 : (Z.of_nat (S (S k)) / 2 = Z.of_nat k / 2 + 1)).
    { rewrite !Nat2Z.inj_succ. Z.div_mod_to_equations. lia. }
    rewrite E2 in F.
    rewrite (F (pOut0 + Z.of_nat k / 2)) by lia.
    rewrite (F (pOut0 + q + Z.of_nat k / 2)) by lia.
    replace (pOut0 + q + Z.of_nat k / 2)
      with (pOut0 + Z.of_nat k / 2 + q) by lia.
    repeat first [rewrite store_same | rewrite store_other by lia].
    set (a' := requant_accs acc' m_zero n_zero z_out).
    destruct (crumbs_hi_fields (sum a') (sum3 a')
                (crumbs_lo (USAT (sum a) 2) (USAT (sum3 a) 2)))
      as (E0 & E1 & _).
    destruct (crumbs_hi_fields (sum2 a') (sum4 a')
                (crumbs_lo (USAT (sum2 a) 2) (USAT (sum4 a) 2)))
      as (G0 & G1 & _).
    destruct (crumbs_lo_fields (sum a) (sum3 a)) as (L0 & L1 & _).
    destruct (crumbs_lo_fields (sum2 a) (sum4 a)) as (M0 & M1 & _).
    change (0 + 1) with 1.
    rewrite E0, E1, G0, G1. auto.
  - (* odd: this row pair completes the byte *)
    apply Z.eqb_neq in Ev.
    pose proof (rows42_frame rap4 A pInBuffer ch_im_out numCol_A bias Out
                  pOut0 z_a z_out m_zero n_zero (S k)
                  (trips_by2 ch_im_out - S k)) as F.
    replace (S k + (trips_by2 ch_im_out - S k))%nat
      with (trips_by2 ch_im_out) in F by lia.
    fold rows in F. rewrite Hq, Ht, Hh in F.
    destruct (rows (trips_by2 ch_im_out)) as [[pAn i_n] o_n].
    cbn [fst snd] in F. rewrite Sk in F.
    destruct (rows k) as [[pA0 i] o].
    destruct I as (Hi & Hp2 & Hz). destruct P as (Hp & _ & _).
    destruct (Hz eq_refl ltac:(lia)) as (C2 & C3 & D2 & D3).
    unfold row_step_u4_u2 in F.
    destruct (row_accs_u4 _ _ _ _ _ _ _ _) as [acc cur].
    cbn [fst]. split; [exact Hi|]. rewrite <- !USAT_clamp by lia.
    set (a := requant_accs acc m_zero n_zero z_out) in *.
    rewrite Hi in F.
    rewrite store_u2_odd in F by (now rewrite even_of_nat).
    cbv zeta in F. cbn [snd out] in F.
    rewrite Hp2, Hp in F. rewrite Hp2, Hp in D2, D3. rewrite Hp in C2, C3.
    assert (E2 : (Z.of_nat (S k) / 2 = Z.of_nat k / 2 + 1)).
    { rewrite !Nat2Z.inj_succ. Z.div_mod_to_equations. lia. }
    rewrite E2 in F.
    rewrite (F (pOut0 + Z.of_nat k / 2)) by lia.
    rewrite (F (pOut0 + q + Z.of_nat k / 2)) by lia.
    replace (pOut0 + q + Z.of_nat k / 2)
      with (pOut0 + Z.of_nat k / 2 + q) by lia.
    repeat first [rewrite store_same | rewrite store_other by lia].
    destruct (crumbs_hi_fields (sum a) (sum3 a)
                (out o (pOut0 + Z.of_nat k / 2)))
      as (_ & _ & E2' & E3').
    destruct (crumbs_hi_fields (sum2 a) (sum4 a)
                (out o (pOut0 + Z.of_nat k / 2 + q)))
      as (_ & _ & G2 & G3).
    change (2 + 1) with 3.
    rewrite E2', E3', G2, G3, C2, C3, D2, D3, !Z.lor_0_r. auto.
Qed.

Lemma u4_u2_output_layout_witness :
  0 <= 4 /\ 4 mod 4 = 0 /\ (1 < trips_by2 4)%nat /\
  let M :=
    fst (arm_nn_mat_mult_kernel_reordered_u4_int16_u2 reader_zero4 zero_mem
           two_col_vectors 4 2 zero_mem zero_mem 10 1 0 (2 ^ 30) (-2)) in
  crumb 2 (M 10) = 1 /\ crumb 3 (M 10) = 1 /\
  crumb 2 (M 11) = 2 /\ crumb 3 (M 11) = 2.
Proof.
  assert (Hc : 0 <= 4) by lia.
  assert (Hm : 4 mod 4 = 0) by reflexivity.
  assert (Hk : (1 < trips_by2 4)%nat) by (vm_compute; lia).
  split; [exact Hc|]. split; [exact Hm|]. split; [exact Hk|].
  pose proof (u4_u2_output_layout reader_zero4 zero_mem two_col_vectors 4 2
                zero_mem zero_mem 10 1 0 (2 ^ 30) (-2) 1%nat Hc Hm Hk) as T.
  hnf in T. destruct T as (_ & N0 & N1 & N2 & N3).
  repeat split; assumption.
Defined.

(** *** The pre-computed [z_a] offsets *)

Section ZaOffsetEven.

Variable pInBuffer : mem.
Variables numCol_A z_a : Z.
Hypothesis z_a_range : in_uint8 z_a.

Let b1 : Z -> Z := fun j => int16 (pInBuffer j).
Let b2 : Z -> Z := fun j => int16 (pInBuffer (numCol_A + j)).

Lemma z_a_offset_loop n :
  loop n (z_a_offset_step pInBuffer (pack16 z_a z_a)) (0, 0, 0, numCol_A)
  = (wrap32 (z_a * sum_B (2 * n) b1), wrap32 (z_a * sum_B (2 * n) b2),
     2 * Z.of_nat n, numCol_A + 2 * Z.of_nat n).
Proof.
  induction n as [|n IH].
  - cbn [loop Nat.mul sum_B Z.of_nat]. rewrite !Z.mul_0_r, Z.add_0_r.
    reflexivity.
  - rewrite loop_succ_r, IH. unfold z_a_offset_step, load_simd16.
    rewrite !SMLAD_pack16, !wrap32_add_l.
    assert (Ez : int16 z_a = z_a)
      by (apply int16_small; unfold in_uint8, in_int16 in *; lia).
    rewrite Ez.
    replace (2 * S n)%nat with (S (S (2 * n))) by lia.
    cbn [sum_B]. subst b1 b2. cbv beta.
    rewrite !Nat2Z.inj_succ, !Nat2Z.inj_mul.
    change (Z.of_nat 2) with 2.
    replace (Z.succ (2 * Z.of_nat n)) with (2 * Z.of_nat n + 1) by lia.
    replace (numCol_A + 2 * Z.of_nat n + 1)
      with (numCol_A + (2 * Z.of_nat n + 1)) by lia.
    f_equal; [f_equal; [f_equal|]|]; try (f_equal; ring); lia.
Qed.

(** For an even number of columns the two pre-computed terms are [z_a]
    times the sum of each activation vector. *)
Lemma z_a_offsets_even :
  0 <= numCol_A -> Z.even numCol_A = true ->
  z_a_offsets pInBuffer numCol_A z_a
  = (wrap32 (z_a * sum_B (Z.to_nat numCol_A) b1),
     wrap32 (z_a * sum_B (Z.to_nat numCol_A) b2)).
Proof.
  intros H0 He. unfold z_a_offsets. rewrite z_a_offset_loop.
  rewrite Zdiv.Zeven_mod in He. apply Z.eqb_eq in He.
  assert (E1 : Z.land numCol_A 1 = 0).
  { change 1 with (Z.ones 1). rewrite Z.land_ones by lia. exact He. }
  rewrite E1. cbn [Z.eqb negb].
  assert (E2 : (2 * trips_by2 numCol_A)%nat = Z.to_nat numCol_A).
  { unfold trips_by2.
    pose proof (Z.div_mod numCol_A 2 ltac:(lia)).
    pose proof (Z.div_mod (numCol_A + 1) 2 ltac:(lia)).
    pose proof (Z.mod_pos_bound (numCol_A + 1) 2 ltac:(lia)).
    lia. }
  now rewrite E2.
Qed.

End ZaOffsetEven.

Lemma z_a_offsets_even_witness :
  in_uint8 1 /\ 0 <= 2 /\ Z.even 2 = true /\
  z_a_offsets two_col_vectors 2 1 = (-1, -2).
Proof.
  assert (Hz : in_uint8 1) by (unfold in_uint8; lia).
  assert (H0 : 0 <= 2) by lia.
  assert (He : Z.even 2 = true) by reflexivity.
  split; [exact Hz|]. split; [exact H0|]. split; [exact He|].
  rewrite (z_a_offsets_even two_col_vectors 2 1 Hz H0 He). reflexivity.
Defined.

(** C7.  With three columns, [z_a = 1] and the activation vectors
    [1, 2, 3] and [4, 5, 6] (followed by zeros in memory), the pre-computed
    term of the first vector is 15, not [z_a * (1 + 2 + 3) = 6]: the
    pair-wise loop already runs over the odd last column and takes the
    first element of the second vector with it, and the left-over step
    then adds the element after that. *)
Theorem z_a_offsets_odd_columns :
  let pInBuffer := mem_of_list [1; 2; 3; 4; 5; 6] in
  z_a_offsets pInBuffer 3 1 = (15, 15) /\
  1 * sum_B 3 pInBuffer = 6 /\
  1 * sum_B 3 (offset_mem pInBuffer 3) = 15 /\
  init_accs zero_mem 0 (z_a_offsets pInBuffer 3 1)
  = Accs (-15) (-15) (-15) (-15).
Proof. repeat split; vm_compute; reflexivity. Qed.

(** *** The accumulation loop *)

Section Accumulation.

Variable read_and_pad_reordered_u8 : mem -> Z -> Z * Z * Z.
Variable read_and_pad_reordered_u4 : mem -> Z -> Z * Z * Z * Z * Z.

(** Fewer columns than one unrolled pass: the sums are left at their
    initial values, whatever the weights are. *)
Lemma row_accs_u8_short A pInBuffer bias numCol_A offs pA0 i :
  0 <= numCol_A < 4 ->
  fst (row_accs_u8 read_and_pad_reordered_u8 A pInBuffer bias numCol_A
                   offs pA0 i)
  = init_accs bias i offs.
Proof.
  intros H. unfold row_accs_u8.
  replace (Z.shiftr numCol_A 2) with 0; [reflexivity|].
  rewrite Z.shiftr_div_pow2 by lia. symmetry. apply Z.div_small. lia.
Qed.

Lemma row_accs_u4_short A pInBuffer bias numCol_A offs pA0 i :
  0 <= numCol_A < 8 ->
  fst (row_accs_u4 read_and_pad_reordered_u4 A pInBuffer bias numCol_A
                   offs pA0 i)
  = init_accs bias i offs.
Proof.
  intros H. unfold row_accs_u4.
  replace (Z.shiftr numCol_A 3) with 0; [reflexivity|].
  rewrite Z.shiftr_div_pow2 by lia. symmetry. apply Z.div_small. lia.
Qed.

End Accumulation.

(** C1.  With two columns of u8 weights (four columns of u4 weights), all
    weights and activations 1, [z_a = 0] and zero bias, the four sums of
    the first row pair are 0 when the accumulation loop is left, while the
    scalar reference is 2 (respectively 4): the columns that do not fill an
    unrolled pass are never accumulated. *)
Theorem left_over_columns_dropped :
  forall (rap8 : mem -> Z -> Z * Z * Z)
         (rap4 : mem -> Z -> Z * Z * Z * Z * Z),
    let ones := fun _ : Z => 1 in
    let bias := mem_of_list [0; 0] in
    let pInBuffer2 := mem_of_list [1; 1; 1; 1] in
    let A2 := mem_of_list [1; 1; 1; 1] in
    let pInBuffer4 := mem_of_list [1; 1; 1; 1; 1; 1; 1; 1] in
    let A4 := mem_of_list [17; 17; 17; 17] in
    fst (row_accs_u8 rap8 A2 pInBuffer2 bias 2
           (z_a_offsets pInBuffer2 2 0) 0 0)
    = Accs 0 0 0 0 /\
    naive_reference 0 2 ones ones 0 = 2 /\
    fst (row_accs_u4 rap4 A4 pInBuffer4 bias 4
           (z_a_offsets pInBuffer4 4 0) 0 0)
    = Accs 0 0 0 0 /\
    naive_reference 0 4 ones ones 0 = 4.
Proof. intros. repeat split; vm_compute; reflexivity. Qed.

End MatMultFacts.

(** ** The u2 to int16 conversion *)

Module U2Facts.
Import U2ToInt16.

(** *** The unrolled pass *)

Section UnrolledPass.

(** [__UXTB16(__ROR(__UXTB16(x), 6))] keeps the bits 6, 7 and 22, 23 of
    [x], in the lowest two bits of each halfword. *)
Lemma lanes_of_mask x : lanes_of x = Z.land (Z.shiftr x 6) 196611.
Proof.
  unfold lanes_of. rewrite !UXTB16_land.
  pose proof (land_bound x 16711935 24 ltac:(lia) ltac:(lia)) as Hy.
  unfold ROR, uint32.
  rewrite (Z.mod_small (Z.land x 16711935)) by lia.
  rewrite land_wrap32 by lia.
  rewrite Z.land_lor_distr_l, land_mod32 by lia.
  rewrite land_shiftl_above by lia.
  rewrite Z.lor_0_r, Z.shiftr_land, <- Z.land_assoc. reflexivity.
Qed.

Lemma lo16s_lanes_of x : lo16s (lanes_of x) = bits2 x 6.
Proof.
  unfold lo16s, int16. rewrite lanes_of_mask, <- sint_mod by lia.
  rewrite <- Z.land_ones, <- Z.land_assoc by lia.
  change (Z.land 196611 (Z.ones 16)) with 3.
  pose proof (bits2_range x 6). apply sint_small; unfold bits2 in *; lia.
Qed.

Lemma hi16s_lanes_of x : hi16s (lanes_of x) = bits2 x 22.
Proof.
  unfold hi16s, int16. rewrite lanes_of_mask, Z.shiftr_land.
  rewrite Z.shiftr_shiftr by lia.
  change (Z.shiftr 196611 16) with 3. change (6 + 16) with 22.
  pose proof (bits2_range x 22). apply sint_small; unfold bits2 in *; lia.
Qed.

(** The sixteen lanes of one pass are the sixteen 2-bit fields of the
    word, reordered. *)
Lemma block_words_lanes inw :
  flat_map store_simd16 (block_words inw)
  = map (fun j => bits2 inw (2 * j)) reorder16.
Proof.
  unfold block_words, reorder16. cbn [flat_map store_simd16 app map].
  rewrite !lo16s_lanes_of, !hi16s_lanes_of.
  rewrite !bits2_shl32, !bits2_asr32 by lia. reflexivity.
Qed.

Lemma block_words_small inw :
  Forall (fun w => 0 <= lo16s w <= 3 /\ 0 <= hi16s w <= 3) (block_words inw).
Proof.
  unfold block_words.
  repeat (apply Forall_cons;
          [rewrite lo16s_lanes_of, hi16s_lanes_of;
           split; apply bits2_range |]).
  apply Forall_nil.
Qed.

Lemma SSUB16_lanes w offset :
  in_uint8 offset -> 0 <= lo16s w <= 3 -> 0 <= hi16s w <= 3 ->
  store_simd16 (SSUB16 w (pack16 offset offset))
  = [lo16s w - offset; hi16s w - offset].
Proof.
  unfold in_uint8. intros Ho Hl Hh. unfold store_simd16, SSUB16.
  rewrite !lo16s_pack16, !hi16s_pack16.
  rewrite (int16_small offset) by (unfold in_int16; lia).
  rewrite (int16_small (lo16s w - offset)) by (unfold in_int16; lia).
  rewrite (int16_small (hi16s w - offset)) by (unfold in_int16; lia).
  reflexivity.
Qed.

Lemma flat_map_SSUB16 offset ws :
  in_uint8 offset ->
  Forall (fun w => 0 <= lo16s w <= 3 /\ 0 <= hi16s w <= 3) ws ->
  flat_map store_simd16 (map (fun w => SSUB16 w (pack16 offset offset)) ws)
  = map (fun v => v - offset) (flat_map store_simd16 ws).
Proof.
  intros Ho H. induction H as [|w ws [Hl Hh] _ IH]; [reflexivity|].
  cbn [map flat_map]. rewrite SSUB16_lanes, IH by assumption.
  rewrite map_app. reflexivity.
Qed.

(** The 2-bit field [4 q + r] of a word read from memory is the field [r]
    of its byte [q]. *)
Lemma word_code_byte pSrc p q r :
  0 <= q < 4 -> 0 <= r < 4 ->
  bits2 (load_simd8 pSrc p) (2 * (4 * q + r))
  = bits2 (uint8 (pSrc (p + q))) (2 * r).
Proof.
  intros Hq Hr. unfold load_simd8.
  rewrite pack8_add, bits2_wrap32 by lia.
  pose proof (uint8_range (pSrc p)) as H0.
  pose proof (uint8_range (pSrc (p + 1))) as H1.
  pose proof (uint8_range (pSrc (p + 2))) as H2.
  pose proof (uint8_range (pSrc (p + 3))) as H3.
  unfold in_uint8 in *.
  assert (Cq : q = 0 \/ q = 1 \/ q = 2 \/ q = 3) by lia.
  assert (Cr : r = 0 \/ r = 1 \/ r = 2 \/ r = 3) by lia.
  destruct Cq as [-> | [-> | [-> | ->]]];
    destruct Cr as [-> | [-> | [-> | ->]]];
    rewrite ?(Z.add_0_r p), !bits2_div by lia;
    match goal with
    | |- context [2 ^ (2 * (4 * ?a + ?b))] =>
        let v := eval vm_compute in (2 ^ (2 * (4 * a + b))) in
        change (2 ^ (2 * (4 * a + b))) with v
    end;
    match goal with
    | |- context [2 ^ (2 * ?b)] =>
        let v := eval vm_compute in (2 ^ (2 * b)) in
        change (2 ^ (2 * b)) with v
    end;
    Z.div_mod_to_equations; lia.
Qed.

Lemma word_code pSrc p j :
  0 <= j < 16 ->
  bits2 (load_simd8 pSrc p) (2 * j) = u2_code (offset_mem pSrc p) j.
Proof.
  intros Hj. unfold u2_code, offset_mem.
  fold (bits2 (uint8 (pSrc (p + j / 4))) (2 * (j mod 4))).
  pose proof (Z.div_mod j 4 ltac:(lia)) as E.
  pose proof (Z.mod_pos_bound j 4 ltac:(lia)).
  rewrite E at 1. apply word_code_byte; [|assumption].
  split; [apply Z.div_pos; lia | apply Z.div_lt_upper_bound; lia].
Qed.

Lemma reorder16_range j : In j reorder16 -> 0 <= j < 16.
Proof.
  unfold reorder16. cbn [In]. intros H.
  repeat (destruct H as [<- | H]; [lia|]). contradiction.
Qed.

(** One unrolled pass appends sixteen lanes, each the zero-point-adjusted
    value of one code of the word read at [pIn], for every content of the
    source and every offset. *)
Lemma unrolled_pass_adjusted pSrc offset pIn dst :
  in_uint8 offset ->
  block_body_offset pSrc (pack16 offset offset) (pIn, dst)
  = (pIn + 4,
     dst ++ map (adjusted_lane (offset_mem pSrc pIn) offset) reorder16).
Proof.
  intros Ho. unfold block_body_offset.
  rewrite flat_map_SSUB16 by (exact Ho || apply block_words_small).
  rewrite block_words_lanes, map_map. do 2 f_equal.
  apply map_ext_in. intros j Hj. unfold adjusted_lane.
  now rewrite word_code by (apply reorder16_range; exact Hj).
Qed.

Lemma unrolled_pass_plain pSrc pIn dst :
  block_body_plain pSrc (pIn, dst)
  = (pIn + 4, dst ++ map (adjusted_lane (offset_mem pSrc pIn) 0) reorder16).
Proof.
  unfold block_body_plain. rewrite block_words_lanes. do 2 f_equal.
  apply map_ext_in. intros j Hj. unfold adjusted_lane.
  rewrite word_code by (apply reorder16_range; exact Hj). lia.
Qed.

End UnrolledPass.

(** *** The two loops in closed form *)

Section ClosedForm.

Import U2Closed.

Lemma bits2_ROR2 x t :
  0 <= t <= 30 -> Z.even t = true ->
  bits2 (ROR x 2) t = bits2 x ((t + 2) mod 32).
Proof.
  intros Ht He. unfold ROR. rewrite bits2_wrap32 by lia.
  unfold bits2. apply Z.bits_inj'. intros i Hi.
  rewrite !Z.land_spec. destruct (Z.ltb_spec i 2) as [Hlt | Hge].
  2:{ replace (Z.testbit 3 i) with false; [now rewrite !andb_false_r|].
      symmetry. change 3 with (Z.ones 2). apply Z.ones_spec_high. lia. }
  f_equal. rewrite !Z.shiftr_spec, Z.lor_spec by lia.
  rewrite Z.shiftr_spec by lia.
  assert (Hu : forall j, 0 <= j < 32 ->
                 Z.testbit (uint32 x) j = Z.testbit x j).
  { intros j Hj. unfold uint32. apply Z.mod_pow2_bits_low. lia. }
  assert (Ht' : t = 30 \/ t <= 28).
  { rewrite Zdiv.Zeven_mod in He. apply Z.eqb_eq in He.
    destruct (Z.eq_dec t 30); [now left | right].
    destruct (Z.eq_dec t 29); [subst; discriminate He | lia]. }
  destruct Ht' as [-> | Ht'].
  - change ((30 + 2) mod 32) with 0.
    replace (Z.testbit (uint32 x) (i + 30 + 2)) with false.
    2:{ symmetry. unfold uint32. apply Z.mod_pow2_bits_high. lia. }
    cbn [orb]. unfold uint32 at 1. rewrite Z.mod_pow2_bits_low by lia.
    rewrite Z.shiftl_spec by lia. rewrite Hu by lia. f_equal. lia.
  - rewrite Z.mod_small by lia.
    replace (Z.testbit (uint32 (Z.shiftl (uint32 x) (32 - 2))) (i + t))
      with false.
    2:{ symmetry. unfold uint32 at 1. rewrite Z.mod_pow2_bits_low by lia.
        apply Z.shiftl_spec_low. lia. }
    rewrite orb_false_r, Hu by lia. f_equal. lia.
Qed.

Lemma lo16s_int16 w : int16 w = lo16s w.
Proof. reflexivity. Qed.

Lemma tail_lane x : int16 (lanes_of (shl32 x 6)) = bits2 x 0.
Proof.
  rewrite lo16s_int16, lo16s_lanes_of, bits2_shl32 by lia.
  replace (6 - 6) with 0 by lia. reflexivity.
Qed.

Lemma tail_loop w n : forall dst,
  let '(w', dst') := loop n tail_body (w, dst) in
  (forall t, 0 <= t <= 30 -> Z.even t = true ->
     bits2 w' t = bits2 w ((t + 2 * Z.of_nat n) mod 32)) /\
  dst' = dst ++ map (fun k => bits2 w (2 * (k mod 16))) (zrange 0 n).
Proof.
  induction n as [|n IH]; intros dst.
  - cbn [loop zrange map]. rewrite app_nil_r. split; [|reflexivity].
    intros t Ht _. rewrite Z.add_0_r, Z.mod_small by lia. reflexivity.
  - rewrite loop_succ_r. specialize (IH dst).
    destruct (loop n tail_body (w, dst)) as [w1 d1]. destruct IH as [Hb Hd].
    unfold tail_body. split.
    + intros t Ht He. rewrite bits2_ROR2 by assumption.
      assert (E : Z.even ((t + 2) mod 32) = true).
      { rewrite Zdiv.Zeven_mod in *. apply Z.eqb_eq in He. apply Z.eqb_eq.
        pose proof (Z.div_mod (t + 2) 32 ltac:(lia)).
        pose proof (Z.mod_pos_bound (t + 2) 32 ltac:(lia)).
        Z.div_mod_to_equations. lia. }
      assert (B : 0 <= (t + 2) mod 32 <= 30).
      { pose proof (Z.mod_pos_bound (t + 2) 32 ltac:(lia)).
        rewrite Zdiv.Zeven_mod in E. apply Z.eqb_eq in E.
        generalize dependent ((t + 2) mod 32). intros m Hm Hm2.
        Z.div_mod_to_equations. lia. }
      rewrite Hb by assumption. f_equal.
      rewrite Zplus_mod_idemp_l. f_equal. lia.
    + rewrite tail_lane, Hd.
      replace (S n) with (n + 1)%nat by lia.
      rewrite zrange_app, map_app, <- app_assoc. do 2 f_equal.
      cbn [zrange map]. f_equal.
      rewrite Hb by (lia || reflexivity). f_equal.
      rewrite Z.add_0_l.
      change 32 with (2 * 16). rewrite Zmult_mod_distr_l. reflexivity.
Qed.

Lemma unrolled_loop pSrc offset n : forall dst,
  in_uint8 offset ->
  loop n (block_body_offset pSrc (pack16 offset offset)) (0, dst)
  = (4 * Z.of_nat n, dst ++ unrolled_lanes pSrc offset n).
Proof.
  intros dst Ho. induction n as [|n IH].
  - cbn [loop]. unfold unrolled_lanes. cbn. now rewrite app_nil_r.
  - rewrite loop_succ_r, IH, unrolled_pass_adjusted by exact Ho.
    f_equal; [lia|]. unfold unrolled_lanes.
    replace (S n) with (n + 1)%nat by lia.
    rewrite zrange_app, flat_map_app, <- app_assoc. do 2 f_equal.
Qed.

Lemma unrolled_loop_plain pSrc n : forall dst,
  loop n (block_body_plain pSrc) (0, dst)
  = (4 * Z.of_nat n, dst ++ unrolled_lanes pSrc 0 n).
Proof.
  intros dst. induction n as [|n IH].
  - cbn [loop]. unfold unrolled_lanes. cbn. now rewrite app_nil_r.
  - rewrite loop_succ_r, IH, unrolled_pass_plain.
    f_equal; [lia|]. unfold unrolled_lanes.
    replace (S n) with (n + 1)%nat by lia.
    rewrite zrange_app, flat_map_app, <- app_assoc. do 2 f_equal.
Qed.

Lemma length_unrolled_lanes pSrc offset n :
  length (unrolled_lanes pSrc offset n) = (16 * n)%nat.
Proof.
  unfold unrolled_lanes. generalize 0 at 1. induction n as [|n IH]; intros s.
  - reflexivity.
  - cbn [zrange flat_map]. rewrite length_app, IH, length_map.
    change (length reorder16) with 16%nat. lia.
Qed.

Lemma unrolled_loops pSrc offset n :
  in_uint8 offset ->
  (if negb (offset =? 0)
   then loop n (block_body_offset pSrc (pack16 offset offset)) (0, [])
   else loop n (block_body_plain pSrc) (0, []))
  = (4 * Z.of_nat n, unrolled_lanes pSrc offset n).
Proof.
  intros Ho. destruct (Z.eqb_spec offset 0) as [-> | Hne]; cbn [negb].
  - apply (unrolled_loop_plain pSrc n []).
  - apply (unrolled_loop pSrc offset n [] Ho).
Qed.

(** The conversion in closed form.  The unrolled loop consumes
    [blockSize / 16] words of four bytes and writes, for each, the sixteen
    codes of the word minus the offset, the codes of the lower halfword
    alternating with those of the upper.  The tail loop then runs
    [blockSize mod 22] times on the next word and writes its codes as they
    are and in their order, starting over after sixteen. *)
Theorem u2_conversion_lanes :
  forall (pSrc : mem) (blockSize offset : Z),
    in_uint8 offset -> 0 <= blockSize ->
    let n := Z.to_nat (blockSize / 16) in
    arm_u2_to_int16_reordered pSrc blockSize offset
    = unrolled_lanes pSrc offset n
      ++ tail_lanes pSrc (4 * Z.of_nat n) (Z.to_nat (blockSize mod 22)).
Proof.
  intros pSrc blockSize offset Ho Hb n. unfold arm_u2_to_int16_reordered.
  rewrite Z.shiftr_div_pow2 by lia. change (2 ^ 4) with 16. fold n.
  rewrite (unrolled_loops pSrc offset n Ho).
  pose proof (tail_loop (load_simd8 pSrc (4 * Z.of_nat n))
                (Z.to_nat (blockSize mod 22))
                (unrolled_lanes pSrc offset n)) as T.
  destruct (loop _ tail_body _) as [w' d']. destruct T as [_ ->].
  cbn [snd]. f_equal. unfold tail_lanes. apply map_ext.
  intros k. apply word_code. apply Z.mod_pos_bound. lia.
Qed.

Lemma u2_conversion_lanes_witness :
  in_uint8 1 /\ 0 <= 17 /\
  arm_u2_to_int16_reordered
    (mem_of_list [228; 228; 228; 228; 27; 0; 0; 0]) 17 1
  = [-1; -1; 0; 0; 1; 1; 2; 2; -1; -1; 0; 0; 1; 1; 2; 2;
     3; 2; 1; 0; 0; 0; 0; 0; 0; 0; 0; 0; 0; 0; 0; 0; 3].
Proof.
  assert (Ho : in_uint8 1) by (unfold in_uint8; lia).
  assert (Hb : 0 <= 17) by lia.
  split; [exact Ho|]. split; [exact Hb|].
  rewrite (u2_conversion_lanes _ 17 1 Ho Hb). reflexivity.
Defined.

(** The number of lanes the conversion writes: sixteen for every full
    group of sixteen elements, and [blockSize mod 22] more. *)
Theorem u2_conversion_length :
  forall (pSrc : mem) (blockSize offset : Z),
    in_uint8 offset -> 0 <= blockSize ->
    Z.of_nat (length (arm_u2_to_int16_reordered pSrc blockSize offset))
    = 16 * (blockSize / 16) + blockSize mod 22.
Proof.
  intros pSrc blockSize offset Ho Hb. unfold arm_u2_to_int16_reordered.
  rewrite Z.shiftr_div_pow2 by lia. change (2 ^ 4) with 16.
  rewrite (unrolled_loops pSrc offset _ Ho).
  pose proof (tail_loop (load_simd8 pSrc (4 * Z.of_nat
                                                (Z.to_nat (blockSize / 16))))
                (Z.to_nat (blockSize mod 22))
                (unrolled_lanes pSrc offset (Z.to_nat (blockSize / 16))))
    as T.
  destruct (loop _ tail_body _) as [w' d']. destruct T as [_ ->].
  cbn [snd].
  rewrite length_app, length_map, length_zrange, length_unrolled_lanes.
  pose proof (Z.mod_pos_bound blockSize 22 ltac:(lia)).
  assert (0 <= blockSize / 16) by (apply Z.div_pos; lia).
  lia.
Qed.

Lemma u2_conversion_length_witness :
  in_uint8 1 /\ 0 <= 22 /\
  Z.of_nat (length (arm_u2_to_int16_reordered
                      (mem_of_list [228; 85; 170; 51; 27; 0]) 22 1))
  = 16.
Proof.
  assert (Ho : in_uint8 1) by (unfold in_uint8; lia).
  assert (Hb : 0 <= 22) by lia.
  split; [exact Ho|]. split; [exact Hb|].
  rewrite (u2_conversion_length _ 22 1 Ho Hb). reflexivity.
Defined.

End ClosedForm.

(** *** The tail loop *)

(** C5.  One element, code 3, offset 4: the destination lane holds the raw
    code 3, not the zero-point-adjusted value [3 - 4 = -1].  Sixteen
    elements: after the unrolled pass the tail loop runs [16 % 0x16 = 16]
    more times and 32 lanes are written.  Twenty-two elements: the tail
    loop does not run at all and only 16 lanes are written. *)
Theorem u2_tail_not_adjusted :
  arm_u2_to_int16_reordered (mem_of_list [3; 0; 0; 0]) 1 4 = [3] /\
  adjusted_lane (mem_of_list [3; 0; 0; 0]) 4 0 = -1 /\
  length (arm_u2_to_int16_reordered (mem_of_list [228; 85; 170; 51]) 16 1)
  = 32%nat /\
  length (arm_u2_to_int16_reordered
            (mem_of_list [228; 85; 170; 51; 27; 0]) 22 1)
  = 16%nat.
Proof. repeat split; vm_compute; reflexivity. Qed.

End U2Facts.

(** ** The depthwise driver *)

Module DepthwiseFacts.
Import Depthwise Examples.

(** *** Loops with an [int16_t] counter *)

Section Loops.

Context {St : Type}.
Variable body : Z -> St -> option St.
Variable bound : Z.

(** A bound above the largest [int16_t] value is never reached. *)
Lemma for_int16_diverges :
  32767 < bound ->
  forall fuel i s, in_int16 i -> for_int16 fuel i bound body s = None.
Proof.
  intros Hb. induction fuel as [|fuel IH]; intros i s Hi; [reflexivity|].
  cbn [for_int16]. unfold in_int16 in Hi.
  destruct (Z.ltb_spec i bound); [|lia].
  destruct (body i s); [|reflexivity].
  apply IH, int16_range.
Qed.

Lemma for_int16_terminates :
  bound <= 32767 ->
  forall fuel i s,
    - 32768 <= i ->
    (forall j s', i <= j < bound -> exists s'', body j s' = Some s'') ->
    (Z.to_nat (bound - i) < fuel)%nat ->
    exists s', for_int16 fuel i bound body s = Some s'.
Proof.
  intros Hb. induction fuel as [|fuel IH]; intros i s Hi Hbody Hf; [lia|].
  cbn [for_int16]. destruct (Z.ltb_spec i bound) as [Hlt | Hge].
  - destruct (Hbody i s ltac:(lia)) as [s1 E]. rewrite E.
    rewrite int16_small by (unfold in_int16; lia).
    apply IH; [lia | | lia].
    intros j s' Hj. apply Hbody. lia.
  - now exists s.
Qed.

End Loops.

(** *** Termination of the driver *)

Section Termination.

Variable int16_to_u2 : Z -> mem -> Z.
Variable a : conv_args.
Hypothesis fit : counters_fit a.
Variable fuel : nat.
Hypothesis enough :
  (Z.to_nat (Z.max (dim_im_out a) (dim_kernel a)) < fuel)%nat.

Lemma im2col_row_terminates i_out_x i_ker_y s :
  0 <= i_out_x < dim_im_out a ->
  exists s', im2col_row a fuel i_out_x i_ker_y s = Some s'.
Proof.
  intros Hx. pose proof fit as [? ? ? ? ? ? ?]. unfold im2col_row.
  assert (i_out_x * stride a <= (dim_im_out a - 1) * stride a) by nia.
  assert (0 <= i_out_x * stride a) by nia.
  rewrite int16_small by (unfold in_int16; lia).
  apply for_int16_terminates; [lia | lia | | lia].
  intros j [c p] _. unfold im2col_tap. eauto.
Qed.

Lemma im2col_terminates i_out_y i_out_x s :
  0 <= i_out_y < dim_im_out a -> 0 <= i_out_x < dim_im_out a ->
  exists s', im2col a fuel i_out_y i_out_x s = Some s'.
Proof.
  intros Hy Hx. pose proof fit as [? ? ? ? ? ? ?]. unfold im2col.
  assert (i_out_y * stride a <= (dim_im_out a - 1) * stride a) by nia.
  assert (0 <= i_out_y * stride a) by nia.
  rewrite int16_small by (unfold in_int16; lia).
  apply for_int16_terminates; [lia | lia | | lia].
  intros j s' _. now apply im2col_row_terminates.
Qed.

Lemma position_terminates i_out_y i_out_x s :
  0 <= i_out_y < dim_im_out a -> 0 <= i_out_x < dim_im_out a ->
  exists s', position int16_to_u2 a fuel i_out_y i_out_x s = Some s'.
Proof.
  intros Hy Hx. destruct s as [[[colBuffer pBuffer] Out] pOut0].
  unfold position.
  destruct (im2col_terminates i_out_y i_out_x (colBuffer, pBuffer) Hy Hx)
    as [[c p] E].
  rewrite E. eauto.
Qed.

Lemma out_rows_terminates s :
  exists s', out_rows int16_to_u2 a fuel s = Some s'.
Proof.
  pose proof fit as [? ? ? ? ? ? ?]. unfold out_rows.
  apply for_int16_terminates; [lia | lia | | lia].
  intros y s' Hy.
  apply for_int16_terminates; [lia | lia | | lia].
  intros x s'' Hx. now apply position_terminates.
Qed.

End Termination.

(** *** The returned status *)

(** C6, as amended.  For every argument tuple and every number of loop
    iterations granted: when [ch_im_in <> ch_im_out] the driver returns
    [ARM_MATH_SIZE_MISMATCH]; whenever it returns, the status is
    [ARM_MATH_SIZE_MISMATCH] if and only if [ch_im_in <> ch_im_out] and
    [ARM_MATH_SUCCESS] otherwise; and when [ch_im_in = ch_im_out] and the
    loop bounds fit the [int16_t] loop counters, it does return, with
    [ARM_MATH_SUCCESS]. *)
Theorem depthwise_status :
  forall (int16_to_u2 : Z -> mem -> Z) (a : conv_args) (fuel : nat),
    (ch_im_in a <> ch_im_out a ->
     exists r, arm_depthwise_separable_conv_HWC_u8_u2_u8_thr
                 int16_to_u2 a fuel = Some r /\
               status_of r = ARM_MATH_SIZE_MISMATCH) /\
    (forall r, arm_depthwise_separable_conv_HWC_u8_u2_u8_thr
                 int16_to_u2 a fuel = Some r ->
               (status_of r = ARM_MATH_SIZE_MISMATCH
                <-> ch_im_in a <> ch_im_out a) /\
               (status_of r = ARM_MATH_SUCCESS
                <-> ch_im_in a = ch_im_out a)) /\
    (ch_im_in a = ch_im_out a -> counters_fit a ->
     (Z.to_nat (Z.max (dim_im_out a) (dim_kernel a)) < fuel)%nat ->
     exists r, arm_depthwise_separable_conv_HWC_u8_u2_u8_thr
                 int16_to_u2 a fuel = Some r /\
               status_of r = ARM_MATH_SUCCESS).
Proof.
  intros q a fuel.
  unfold arm_depthwise_separable_conv_HWC_u8_u2_u8_thr.
  destruct (Z.eqb_spec (ch_im_in a) (ch_im_out a)) as [E | E]; cbn [negb].
  - split; [intros H; contradiction|]. split.
    + intros r Hr.
      destruct (out_rows q a fuel _) as [[[[c p] o] p']|]; [|discriminate].
      injection Hr as <-. cbn [status_of].
      split; split; intros H; try discriminate; try contradiction;
        try reflexivity; exact E.
    + intros _ Hfit Hfuel.
      destruct (out_rows_terminates q a Hfit fuel Hfuel
                  (bufferA a, 0, Im_out a, 0)) as [[[[c p] o] p'] Hs].
      rewrite Hs. eexists. split; reflexivity.
  - split; [intros _; eexists; split; reflexivity|]. split.
    + intros r Hr. injection Hr as <-. cbn [status_of].
      split; split; intros H; try discriminate; try contradiction;
        try reflexivity; exact E.
    + intros H; contradiction.
Qed.

Lemma depthwise_status_witness :
  ch_im_in small_args = ch_im_out small_args /\
  counters_fit small_args /\
  (Z.to_nat (Z.max (dim_im_out small_args) (dim_kernel small_args)) < 3)%nat /\
  exists r, arm_depthwise_separable_conv_HWC_u8_u2_u8_thr
              quant_zero small_args 3 = Some r /\
            status_of r = ARM_MATH_SUCCESS.
Proof.
  assert (E : ch_im_in small_args = ch_im_out small_args) by reflexivity.
  assert (C : counters_fit small_args) by (constructor; cbn; lia).
  assert (F : (Z.to_nat (Z.max (dim_im_out small_args)
                               (dim_kernel small_args)) < 3)%nat)
    by (cbn; lia).
  split; [exact E|]. split; [exact C|]. split; [exact F|].
  exact (proj2 (proj2 (depthwise_status quant_zero small_args 3)) E C F).
Defined.

(** C6 as stated fails: with equal channel counts and [dim_im_out = 32768]
    the [int16_t] counter [i_out_x] never reaches the bound, and the driver
    returns no status at all, however many loop iterations are granted. *)
Lemma depthwise_no_status :
  ch_im_in wide_args = ch_im_out wide_args /\
  ~ exists fuel r,
      arm_depthwise_separable_conv_HWC_u8_u2_u8_thr
        quant_zero wide_args fuel = Some r.
Proof.
  split; [reflexivity|]. intros (fuel & r & H).
  unfold arm_depthwise_separable_conv_HWC_u8_u2_u8_thr in H.
  cbn [negb Z.eqb ch_im_in ch_im_out wide_args] in H.
  unfold out_rows in H.
  rewrite for_int16_diverges in H; [discriminate | cbn; lia |].
  unfold in_int16; lia.
Qed.

(** C10.  When [ch_im_in <> ch_im_out] the driver returns
    [ARM_MATH_SIZE_MISMATCH] without running a single loop iteration (for
    every number of iterations granted, none included) and hands back
    [Im_out], [bufferA] and [bufferB] as it received them; and whenever
    the returned status is [ARM_MATH_SIZE_MISMATCH], the channel counts
    differ and the three buffers are the ones received. *)
Theorem size_mismatch_writes_nothing :
  forall (int16_to_u2 : Z -> mem -> Z) (a : conv_args) (fuel : nat),
    (ch_im_in a <> ch_im_out a ->
     arm_depthwise_separable_conv_HWC_u8_u2_u8_thr int16_to_u2 a fuel
       = Some (ARM_MATH_SIZE_MISMATCH, Im_out a, bufferA a, bufferB a)) /\
    (forall Out bufA bufB,
        arm_depthwise_separable_conv_HWC_u8_u2_u8_thr int16_to_u2 a fuel
          = Some (ARM_MATH_SIZE_MISMATCH, Out, bufA, bufB) ->
        ch_im_in a <> ch_im_out a /\
        Out = Im_out a /\ bufA = bufferA a /\ bufB = bufferB a).
Proof.
  intros q a fuel.
  unfold arm_depthwise_separable_conv_HWC_u8_u2_u8_thr.
  destruct (Z.eqb_spec (ch_im_in a) (ch_im_out a)) as [E | E]; cbn [negb].
  - split; [intros H; contradiction|].
    intros Out bufA bufB H.
    destruct (out_rows q a fuel _) as [[[[c p] o] p']|]; discriminate.
  - split; [reflexivity|].
    intros Out bufA bufB H. injection H as <- <- <-. auto.
Qed.

Lemma size_mismatch_writes_nothing_witness :
  ch_im_in mismatched_args <> ch_im_out mismatched_args /\
  arm_depthwise_separable_conv_HWC_u8_u2_u8_thr quant_zero mismatched_args 0
  = Some (ARM_MATH_SIZE_MISMATCH, Im_out mismatched_args,
          bufferA mismatched_args, bufferB mismatched_args).
Proof.
  assert (E : ch_im_in mismatched_args <> ch_im_out mismatched_args)
    by (cbn; lia).
  split; [exact E|].
  exact (proj1 (size_mismatch_writes_nothing quant_zero mismatched_args 0) E).
Defined.

(** *** The 4-channel pass *)

Section QuadPass.

Variable a : conv_args.
Variable colBuffer : mem.
Hypothesis z_wt_range : in_uint8 (z_wt a).
Hypothesis z_in_range : in_uint8 (z_in a).

Lemma mac_lane_bytes inA inB acc :
  mac_lane a inA inB acc
  = wrap32 (acc
            + ((byte_of inA 0 - z_wt a) * (byte_of inB 0 - z_in a)
               + (byte_of inA 2 - z_wt a) * (byte_of inB 2 - z_in a))).
Proof.
  unfold mac_lane, inz_wt, inz_in, SSUB16.
  rewrite SMLAD_pack16, !lo16s_pack16, !hi16s_pack16.
  rewrite !lo16s_UXTB16, !hi16s_UXTB16.
  pose proof (byte_of_range inA 0). pose proof (byte_of_range inA 2).
  pose proof (byte_of_range inB 0). pose proof (byte_of_range inB 2).
  unfold in_uint8 in *.
  rewrite (int16_small (z_wt a)), (int16_small (z_in a))
    by (unfold in_int16; lia).
  rewrite !int16_small by (unfold in_int16; lia). reflexivity.
Qed.

Lemma tap_at q q' : q = q' -> tap a colBuffer q = tap a colBuffer q'.
Proof. now intros ->. Qed.

(** Equality of two states of the column loop, up to the arithmetic of the
    addresses. *)
Ltac align_taps :=
  repeat first
    [ lia
    | apply tap_at; lia
    | match goal with
      | |- (_, _) = (_, _) => apply f_equal2
      | |- Accs _ _ _ _ = Accs _ _ _ _ => f_equal
      | |- wrap32 _ = wrap32 _ => apply f_equal
      | |- _ + (_ + _) = _ => rewrite Z.add_assoc
      | |- _ + tap _ _ _ = _ + tap _ _ _ => apply f_equal2
      end ].

Lemma quad_col_step_taps c p :
  quad_col_step a colBuffer (c, p, p)
  = (Accs
       (wrap32 (sum c + (tap a colBuffer p
                         + tap a colBuffer (p + ch_im_in a))))
       (wrap32 (sum2 c + (tap a colBuffer (p + 1)
                          + tap a colBuffer (p + ch_im_in a + 1))))
       (wrap32 (sum3 c + (tap a colBuffer (p + 2)
                          + tap a colBuffer (p + ch_im_in a + 2))))
       (wrap32 (sum4 c + (tap a colBuffer (p + 3)
                          + tap a colBuffer (p + ch_im_in a + 3)))),
     p + 2 * ch_im_in a, p + 2 * ch_im_in a).
Proof.
  unfold quad_col_step. rewrite !mac_lane_bytes.
  rewrite !byte_of_ROR8 by lia. cbn [Z.add Pos.add].
  destruct (byte_of_PKHBT16 (load_simd8 (wt a) p)
              (load_simd8 (wt a) (p + ch_im_in a))) as (A0 & A1 & A2 & A3).
  destruct (byte_of_PKHTB16 (load_simd8 (wt a) (p + ch_im_in a))
              (load_simd8 (wt a) p)) as (A4 & A5 & A6 & A7).
  destruct (byte_of_PKHBT16 (load_simd8 colBuffer p)
              (load_simd8 colBuffer (p + ch_im_in a)))
    as (B0 & B1 & B2 & B3).
  destruct (byte_of_PKHTB16 (load_simd8 colBuffer (p + ch_im_in a))
              (load_simd8 colBuffer p)) as (B4 & B5 & B6 & B7).
  rewrite A0, A1, A2, A3, A4, A5, A6, A7, B0, B1, B2, B3, B4, B5, B6, B7.
  destruct (byte_of_load (wt a) p) as (W0 & W1 & W2 & W3).
  destruct (byte_of_load (wt a) (p + ch_im_in a)) as (W4 & W5 & W6 & W7).
  destruct (byte_of_load colBuffer p) as (X0 & X1 & X2 & X3).
  destruct (byte_of_load colBuffer (p + ch_im_in a))
    as (X4 & X5 & X6 & X7).
  rewrite W0, W1, W2, W3, W4, W5, W6, W7, X0, X1, X2, X3, X4, X5, X6, X7.
  reflexivity.
Qed.

Lemma quad_col_tail_taps c p :
  quad_col_tail a colBuffer (c, p, p)
  = (Accs (wrap32 (sum c + tap a colBuffer p))
          (wrap32 (sum2 c + tap a colBuffer (p + 1)))
          (wrap32 (sum3 c + tap a colBuffer (p + 2)))
          (wrap32 (sum4 c + tap a colBuffer (p + 3))),
     p + ch_im_in a, p + ch_im_in a).
Proof.
  unfold quad_col_tail.
  destruct (byte_of_load (wt a) p) as (W0 & W1 & W2 & W3).
  destruct (byte_of_load colBuffer p) as (X0 & X1 & X2 & X3).
  rewrite W0, W1, W2, W3, X0, X1, X2, X3. reflexivity.
Qed.

Lemma quad_col_loop ch n :
  loop n (quad_col_step a colBuffer) (reference_accs 0 a colBuffer ch, ch, ch)
  = (reference_accs (2 * n) a colBuffer ch,
     ch + Z.of_nat (2 * n) * ch_im_in a, ch + Z.of_nat (2 * n) * ch_im_in a).
Proof.
  induction n as [|n IH].
  - cbn [loop Nat.mul Z.of_nat]. now rewrite Z.mul_0_l, Z.add_0_r.
  - rewrite loop_succ_r, IH, quad_col_step_taps.
    replace (2 * S n)%nat with (S (S (2 * n))) by lia.
    unfold reference_accs. cbn [sum sum2 sum3 sum4 reference_acc].
    rewrite !wrap32_add_l, !Nat2Z.inj_succ.
    align_taps.
Qed.

Lemma quad_tail_loop ch t n :
  (n <= 1)%nat ->
  loop n (quad_col_tail a colBuffer)
       (reference_accs t a colBuffer ch,
        ch + Z.of_nat t * ch_im_in a, ch + Z.of_nat t * ch_im_in a)
  = (reference_accs (t + n) a colBuffer ch,
     ch + Z.of_nat (t + n) * ch_im_in a,
     ch + Z.of_nat (t + n) * ch_im_in a).
Proof.
  intros Hn. destruct n as [|[|n]]; [| |lia].
  - cbn [loop]. now rewrite Nat.add_0_r.
  - cbn [loop]. rewrite quad_col_tail_taps.
    replace (t + 1)%nat with (S t) by lia.
    unfold reference_accs. cbn [sum sum2 sum3 sum4 reference_acc].
    rewrite !wrap32_add_l, !Nat2Z.inj_succ.
    align_taps.
Qed.

(** The 4-channel pass leaves the specified sums in the channels
    [ch .. ch + 3], for every content of the weight and column buffers:
    codes below their zero point included. *)
Lemma quad_accs_reference ch :
  let kk := wrap32 (dim_kernel a * dim_kernel a) in
  let taps := (2 * Z.to_nat (uint16 (Z.shiftr kk 1))
               + Z.to_nat (uint16 (Z.land kk 1)))%nat in
  quad_accs a colBuffer ch ch = reference_accs taps a colBuffer ch.
Proof.
  cbv zeta. unfold quad_accs.
  change (Accs (wrap32 (bias a ch)) (wrap32 (bias a (ch + 1)))
               (wrap32 (bias a (ch + 2))) (wrap32 (bias a (ch + 3))))
    with (reference_accs 0 a colBuffer ch).
  rewrite quad_col_loop, quad_tail_loop; [reflexivity|].
  change 1 with (Z.ones 1). rewrite Z.land_ones by lia.
  pose proof (Z.mod_pos_bound (wrap32 (dim_kernel a * dim_kernel a)) (2 ^ 1)
                ltac:(lia)).
  unfold uint16. rewrite Z.mod_small by lia. lia.
Qed.

End QuadPass.

(** *** The remainder channels *)

Section Remainder.

Variable a : conv_args.
Variable colBuffer : mem.

Lemma USAT_uint8 x : USAT (uint8 x) 8 = uint8 x.
Proof.
  pose proof (uint8_range x) as H. unfold in_uint8 in H. unfold USAT.
  destruct (Z.ltb_spec (uint8 x) 0); [lia|].
  destruct (Z.ltb_spec (2 ^ 8 - 1) (uint8 x)); [lia | reflexivity].
Qed.

Lemma rem_col_loop ch n :
  loop n (rem_col_step a colBuffer) (wrap32 (bias a ch), ch, ch)
  = (wrap32 (unsigned_acc n a colBuffer ch),
     ch + Z.of_nat n * ch_im_in a, ch + Z.of_nat n * ch_im_in a).
Proof.
  induction n as [|n IH].
  - cbn [loop unsigned_acc Z.of_nat]. now rewrite Z.mul_0_l, Z.add_0_r.
  - rewrite loop_succ_r, IH. unfold rem_col_step.
    rewrite USAT_uint8, uint8_idem, wrap32_add_l. cbn [unsigned_acc].
    f_equal; [f_equal|]; lia.
Qed.

(** The sum the remainder loop leaves for channel [ch]: both factors of
    every tap are reduced to [uint8_t]. *)
Lemma rem_acc_unsigned ch :
  rem_acc a colBuffer ch ch
  = wrap32 (unsigned_acc
              (Z.to_nat (uint16 (wrap32 (dim_kernel a * dim_kernel a))))
              a colBuffer ch).
Proof. unfold rem_acc. now rewrite rem_col_loop. Qed.

(** It is the specified sum as long as no code is below its zero point. *)
Lemma unsigned_acc_reference ch n :
  0 <= z_wt a -> 0 <= z_in a ->
  (forall k, (k < n)%nat ->
     z_wt a <= uint8 (wt a (ch + Z.of_nat k * ch_im_in a)) /\
     z_in a <= uint8 (colBuffer (ch + Z.of_nat k * ch_im_in a))) ->
  unsigned_acc n a colBuffer ch = reference_acc n a colBuffer ch.
Proof.
  intros Hw Hi H. induction n as [|n IH]; [reflexivity|].
  cbn [unsigned_acc reference_acc]. rewrite IH by (intros; apply H; lia).
  destruct (H n ltac:(lia)) as [H1 H2]. unfold tap.
  pose proof (uint8_range (wt a (ch + Z.of_nat n * ch_im_in a))).
  pose proof (uint8_range (colBuffer (ch + Z.of_nat n * ch_im_in a))).
  unfold in_uint8 in *.
  rewrite (uint8_small (_ - z_wt a)), (uint8_small (_ - z_in a))
    by (unfold in_uint8; lia).
  reflexivity.
Qed.

End Remainder.

(** C2.  Five channels, one kernel tap, every code 0 and both zero points
    1, zero bias.  The remainder loop leaves channel 4 with the sum
    [255 * 255 = 65025]: the offsets are subtracted in [uint8_t] and wrap.
    The specified sum is [(0 - 1) * (0 - 1) = 1], which is what the
    4-channel pass computes for the channels 0 to 3 from the same codes. *)
Theorem remainder_channel_unsigned_wrap :
  rem_acc five_ch_args five_ch_patch 4 4 = 65025 /\
  reference_acc 1 five_ch_args five_ch_patch 4 = 1 /\
  quad_accs five_ch_args five_ch_patch 0 0 = Accs 1 1 1 1 /\
  reference_acc 1 five_ch_args five_ch_patch 0 = 1.
Proof. repeat split; vm_compute; reflexivity. Qed.

(** *** The two channel loops of one output position *)

Section ChannelLoops.

Variable q : Z -> mem -> Z.
Variable a : conv_args.
Variables (colBuffer Out : mem) (pOut0 : Z).
Hypothesis ch_range : 0 <= ch_im_out a < 65536.

Let nq := Z.shiftr (ch_im_out a) 2.
Let nr := Z.land (ch_im_out a) 3.

Lemma channel_split :
  0 <= nq /\ 0 <= nr < 4 /\ ch_im_out a = 4 * nq + nr.
Proof.
  subst nq nr. rewrite Z.shiftr_div_pow2 by lia. change 3 with (Z.ones 2).
  rewrite Z.land_ones by lia. change (2 ^ 2) with 4.
  pose proof (Z.div_mod (ch_im_out a) 4 ltac:(lia)).
  pose proof (Z.mod_pos_bound (ch_im_out a) 4 ltac:(lia)).
  assert (0 <= ch_im_out a / 4) by (apply Z.div_pos; lia).
  lia.
Qed.

Lemma quad_loop_succ k :
  quad_loop q a colBuffer Out pOut0 (S k)
  = quad_step q a colBuffer (quad_loop q a colBuffer Out pOut0 k).
Proof. apply loop_succ_r. Qed.

Lemma rem_loop_succ k :
  rem_loop q a colBuffer Out pOut0 (S k)
  = rem_step q a colBuffer (rem_loop q a colBuffer Out pOut0 k).
Proof. apply loop_succ_r. Qed.

Lemma quad_loop_invariant k :
  Z.of_nat k <= nq ->
  let s := quad_loop q a colBuffer Out pOut0 k in
  pBias s = 4 * Z.of_nat k /\ row_shift s = 4 * Z.of_nat k /\
  ch_out_id s = 4 * Z.of_nat k /\ pOut s = pOut0 + Z.of_nat k /\
  row_per_byte_out s = 4.
Proof.
  destruct channel_split as (Hq & Hr & Hc).
  induction k as [|k IH]; intros Hk; cbv zeta.
  - cbn. repeat split; lia.
  - rewrite quad_loop_succ.
    destruct IH as (E1 & E2 & E3 & E4 & E5); [lia|].
    unfold quad_step. cbn [pBias row_shift ch_out_id pOut row_per_byte_out].
    rewrite E1, E2, E3, E4, E5. unfold uint16.
    rewrite Z.mod_small by lia. repeat split; lia.
Qed.

Lemma rem_loop_invariant k :
  Z.of_nat k <= nr ->
  let s := rem_loop q a colBuffer Out pOut0 k in
  pBias s = 4 * nq + Z.of_nat k /\ row_shift s = 4 * nq + Z.of_nat k /\
  ch_out_id s = 4 * nq + Z.of_nat k /\ pOut s = pOut0 + nq /\
  row_per_byte_out s = 4 - Z.of_nat k.
Proof.
  destruct channel_split as (Hq & Hr & Hc).
  induction k as [|k IH]; intros Hk; cbv zeta.
  - unfold rem_loop. cbn [loop]. fold nq. unfold uint16.
    rewrite Z.mod_small by lia.
    destruct (quad_loop_invariant (Z.to_nat nq))
      as (E1 & E2 & E3 & E4 & E5); [lia|].
    rewrite Z2Nat.id in * by lia. repeat split; lia.
  - rewrite rem_loop_succ.
    destruct IH as (E1 & E2 & E3 & E4 & E5); [lia|].
    set (s := rem_loop q a colBuffer Out pOut0 k) in *.
    unfold rem_step. rewrite E5.
    assert (C : (k = 0 \/ k = 1 \/ k = 2)%nat) by lia.
    destruct C as [-> | [-> | ->]];
      [ change (4 - Z.of_nat 0) with 4
      | change (4 - Z.of_nat 1) with 3
      | change (4 - Z.of_nat 2) with 2 ];
      cbn [pBias row_shift ch_out_id pOut row_per_byte_out];
      rewrite E1, E2, E3, E4; unfold uint16;
      rewrite Z.mod_small by lia; repeat split; lia.
Qed.

Lemma quad_loop_store k :
  Z.of_nat k < nq ->
  let s := quad_loop q a colBuffer Out pOut0 k in
  let s' := quad_loop q a colBuffer Out pOut0 (S k) in
  let c := 4 * Z.of_nat k in
  let sums := quad_accs a colBuffer c c in
  let code := fun j x =>
    USAT (channel_code q (thresholds a) (2 ^ 2) (c + j) x) 2 in
  out s' =
  store (out s) (pOut s)
    (uint8 (Z.lor (Z.lor (Z.lor (code 0 (sum sums))
                                (Z.shiftl (code 1 (sum2 sums)) 2))
                         (Z.shiftl (code 2 (sum3 sums)) 4))
                  (Z.shiftl (code 3 (sum4 sums)) 6))).
Proof.
  intros Hk. cbv zeta. rewrite quad_loop_succ.
  destruct (quad_loop_invariant k) as (E1 & E2 & E3 & _); [lia|].
  unfold quad_step. cbn [out]. rewrite E1, E2, E3.
  unfold quantize, channel_code, channel_thresholds.
  rewrite !Z.shiftl_mul_pow2, Z.add_0_r by lia. reflexivity.
Qed.

Lemma rem_loop_store k :
  Z.of_nat k < nr ->
  let s := rem_loop q a colBuffer Out pOut0 k in
  let s' := rem_loop q a colBuffer Out pOut0 (S k) in
  let c := 4 * nq + Z.of_nat k in
  let code :=
    USAT (channel_code q (thresholds a) (2 ^ 2) c (rem_acc a colBuffer c c))
         2 in
  out s' =
  store (out s) (pOut s)
    (uint8 (match k with
            | O => code
            | S _ => Z.lor (uint8 (out s (pOut s)))
                           (Z.shiftl code (2 * Z.of_nat k))
            end)).
Proof.
  intros Hk. cbv zeta. rewrite rem_loop_succ.
  destruct channel_split as (Hq & Hr & Hc).
  destruct (rem_loop_invariant k) as (E1 & E2 & E3 & _ & E5); [lia|].
  set (s := rem_loop q a colBuffer Out pOut0 k) in *.
  unfold rem_step. rewrite E1, E2, E3, E5.
  unfold quantize, channel_code, channel_thresholds.
  rewrite !Z.shiftl_mul_pow2 by lia.
  assert (C : (k = 0 \/ k = 1 \/ k = 2)%nat) by lia.
  destruct C as [-> | [-> | ->]];
    [ change (4 - Z.of_nat 0) with 4
    | change (4 - Z.of_nat 1) with 3
    | change (4 - Z.of_nat 2) with 2 ];
    cbn [out]; reflexivity.
Qed.

Lemma channel_pass_rem_loop :
  channel_pass q a colBuffer Out pOut0
  = rem_loop q a colBuffer Out pOut0 (Z.to_nat nr).
Proof.
  destruct channel_split as (Hq & Hr & Hc).
  unfold channel_pass. fold nr. unfold uint16.
  now rewrite Z.mod_small by lia.
Qed.

Lemma rem_loop_0 :
  rem_loop q a colBuffer Out pOut0 0
  = quad_loop q a colBuffer Out pOut0 (Z.to_nat nq).
Proof.
  destruct channel_split as (Hq & Hr & Hc).
  unfold rem_loop. cbn [loop]. fold nq. unfold uint16.
  now rewrite Z.mod_small by lia.
Qed.

End ChannelLoops.

(** *** Pointer, frame and layout of one channel pass *)

Section ChannelFrames.

Variable q : Z -> mem -> Z.
Variable a : conv_args.
Variables (colBuffer Out : mem) (pOut0 : Z).
Hypothesis ch_range : 0 <= ch_im_out a < 65536.

Let nq := Z.shiftr (ch_im_out a) 2.
Let nr := Z.land (ch_im_out a) 3.

(** Later passes of the first channel loop leave the bytes of earlier ones
    alone. *)
Lemma quad_loop_frame k d p :
  Z.of_nat (k + d) <= nq ->
  ~ pOut0 + Z.of_nat k <= p < pOut0 + Z.of_nat (k + d) ->
  out (quad_loop q a colBuffer Out pOut0 (k + d)) p
  = out (quad_loop q a colBuffer Out pOut0 k) p.
Proof.
  induction d as [|d IH]; intros Hk Hp.
  - now rewrite Nat.add_0_r.
  - replace (k + S d)%nat with (S (k + d)) in * by lia.
    rewrite quad_loop_succ.
    destruct (quad_loop_invariant q a colBuffer Out pOut0 ch_range (k + d))
      as (_ & _ & _ & E4 & _); [subst nq; lia|].
    unfold quad_step. cbn [out]. rewrite E4.
    rewrite store_other by lia. apply IH; lia.
Qed.

(** The second channel loop only writes the byte the first loop stopped
    at. *)
Lemma rem_loop_frame k p :
  Z.of_nat k <= nr -> p <> pOut0 + nq ->
  out (rem_loop q a colBuffer Out pOut0 k) p
  = out (quad_loop q a colBuffer Out pOut0 (Z.to_nat nq)) p.
Proof.
  induction k as [|k IH]; intros Hk Hp.
  - now rewrite rem_loop_0.
  - rewrite rem_loop_succ.
    destruct (rem_loop_invariant q a colBuffer Out pOut0 ch_range k)
      as (_ & _ & _ & E4 & E5); [subst nr; lia|].
    fold nq in E4. rewrite <- IH by lia.
    set (s := rem_loop q a colBuffer Out pOut0 k) in *.
    unfold rem_step. rewrite E5, E4.
    destruct (channel_split a ch_range) as (_ & Hr & _). fold nr in Hr.
    assert (C : (k = 0 \/ k = 1 \/ k = 2)%nat) by lia.
    destruct C as [-> | [-> | ->]];
      [ change (4 - Z.of_nat 0) with 4
      | change (4 - Z.of_nat 1) with 3
      | change (4 - Z.of_nat 2) with 2 ];
      cbn [out]; now rewrite store_other by lia.
Qed.

End ChannelFrames.

(** One channel pass advances the output pointer by one byte per four
    channels, so that the byte of the channels that do not fill a group of
    four is not stepped over, and changes no byte other than those of the
    groups and that one. *)
Theorem channel_pass_output_block :
  forall (q : Z -> mem -> Z) (a : conv_args) (colBuffer Out : mem)
         (pOut0 : Z),
    0 <= ch_im_out a < 65536 ->
    let s := channel_pass q a colBuffer Out pOut0 in
    pOut s = pOut0 + ch_im_out a / 4 /\
    forall p,
      p < pOut0 \/ pOut0 + (ch_im_out a + 3) / 4 <= p -> out s p = Out p.
Proof.
  intros q a colBuffer Out pOut0 Hc s. subst s.
  destruct (channel_split a Hc) as (Hq & Hr & Hs).
  rewrite channel_pass_rem_loop by exact Hc.
  set (nq := Z.shiftr (ch_im_out a) 2) in *.
  set (nr := Z.land (ch_im_out a) 3) in *.
  assert (E1 : ch_im_out a / 4 = nq) by (Z.div_mod_to_equations; lia).
  assert (E2 : nq <= (ch_im_out a + 3) / 4)
    by (Z.div_mod_to_equations; lia).
  assert (E3 : 0 < nr -> nq + 1 <= (ch_im_out a + 3) / 4)
    by (Z.div_mod_to_equations; lia).
  destruct (rem_loop_invariant q a colBuffer Out pOut0 Hc (Z.to_nat nr))
    as (_ & _ & _ & E4 & _); [fold nr; lia|]. fold nq in E4.
  split; [lia|].
  intros p Hp.
  assert (Hq0 : out (quad_loop q a colBuffer Out pOut0 (Z.to_nat nq)) p
                = Out p).
  { pose proof (quad_loop_frame q a colBuffer Out pOut0 Hc 0 (Z.to_nat nq) p)
      as F.
    cbn [Nat.add] in F. apply F; fold nq; lia. }
  destruct (Z.eq_dec nr 0) as [Z0 | NZ].
  - rewrite Z0. cbn [Z.to_nat]. now rewrite rem_loop_0 by exact Hc.
  - rewrite rem_loop_frame by (exact Hc || fold nr nq; lia). exact Hq0.
Qed.

Lemma channel_pass_output_block_witness :
  0 <= ch_im_out five_ch_args < 65536 /\
  pOut (channel_pass quant_id five_ch_args five_ch_patch zero_mem 10) = 11.
Proof.
  assert (H : 0 <= ch_im_out five_ch_args < 65536) by (cbn; lia).
  split; [exact H|].
  exact (proj1 (channel_pass_output_block quant_id five_ch_args five_ch_patch
                  zero_mem 10 H)).
Defined.

Section KernelTaps.

Variable a : conv_args.
Hypothesis kernel_range : 0 <= dim_kernel a <= 255.

Let taps := Z.to_nat (dim_kernel a * dim_kernel a).

Lemma kernel_taps :
  wrap32 (dim_kernel a * dim_kernel a) = dim_kernel a * dim_kernel a /\
  0 <= dim_kernel a * dim_kernel a < 65536.
Proof.
  assert (0 <= dim_kernel a * dim_kernel a <= 255 * 255) by nia.
  split; [apply wrap32_small; unfold in_int32|]; lia.
Qed.

Lemma quad_taps :
  let kk := wrap32 (dim_kernel a * dim_kernel a) in
  (2 * Z.to_nat (uint16 (Z.shiftr kk 1)) + Z.to_nat (uint16 (Z.land kk 1)))%nat
  = taps.
Proof.
  cbv zeta. destruct kernel_taps as [-> Hk]. subst taps.
  set (kk := dim_kernel a * dim_kernel a) in *.
  rewrite Z.shiftr_div_pow2 by lia. change 1 with (Z.ones 1) at 2.
  rewrite Z.land_ones by lia. change (2 ^ 1) with 2.
  pose proof (Z.div_mod kk 2 ltac:(lia)).
  pose proof (Z.mod_pos_bound kk 2 ltac:(lia)).
  assert (0 <= kk / 2 < 65536) by (Z.div_mod_to_equations; lia).
  unfold uint16. rewrite !Z.mod_small by lia. lia.
Qed.

Lemma rem_taps :
  Z.to_nat (uint16 (wrap32 (dim_kernel a * dim_kernel a))) = taps.
Proof.
  destruct kernel_taps as [-> Hk]. subst taps. unfold uint16.
  now rewrite Z.mod_small by lia.
Qed.

End KernelTaps.

Lemma quad_byte_crumbs x0 x1 x2 x3 :
  let b := uint8 (Z.lor (Z.lor (Z.lor (USAT x0 2) (Z.shiftl (USAT x1 2) 2))
                               (Z.shiftl (USAT x2 2) 4))
                        (Z.shiftl (USAT x3 2) 6)) in
  crumb 0 b = USAT x0 2 /\ crumb 1 b = USAT x1 2 /\
  crumb 2 b = USAT x2 2 /\ crumb 3 b = USAT x3 2.
Proof.
  cbv zeta.
  destruct (MatMultFacts.USAT2_cases x0) as [-> | [-> | [-> | ->]]];
  destruct (MatMultFacts.USAT2_cases x1) as [-> | [-> | [-> | ->]]];
  destruct (MatMultFacts.USAT2_cases x2) as [-> | [-> | [-> | ->]]];
  destruct (MatMultFacts.USAT2_cases x3) as [-> | [-> | [-> | ->]]];
  repeat split; reflexivity.
Qed.

Lemma channel_code_wrap32 q thr stride c x :
  channel_code q thr stride c (wrap32 x) = channel_code q thr stride c x.
Proof. unfold channel_code. now rewrite int16_wrap32. Qed.

(** Where the codes of a group of four channels land: when the channel
    pass is left, crumb [m] of byte [j] of the output position holds the
    code of channel [c = 4j + m], which is the answer of the quantizer,
    saturated to two bits, for the accumulator
    [bias[c] + sum over the staged taps of (weight - z_wt) * (input - z_in)]
    on the thresholds from index [4c] on. *)
Theorem channel_pass_group_layout :
  forall (q : Z -> mem -> Z) (a : conv_args) (colBuffer Out : mem)
         (pOut0 : Z) (j : nat) (m : Z),
    0 <= ch_im_out a < 65536 -> 0 <= dim_kernel a <= 255 ->
    in_uint8 (z_wt a) -> in_uint8 (z_in a) ->
    (j < Z.to_nat (ch_im_out a / 4))%nat -> 0 <= m < 4 ->
    let c := 4 * Z.of_nat j + m in
    let taps := Z.to_nat (dim_kernel a * dim_kernel a) in
    crumb m (out (channel_pass q a colBuffer Out pOut0) (pOut0 + Z.of_nat j))
    = USAT (channel_code q (thresholds a) (2 ^ 2) c
              (reference_acc taps a colBuffer c)) 2.
Proof.
  intros q a colBuffer Out pOut0 j m Hc Hk Hw Hi Hj Hm c taps.
  destruct (channel_split a Hc) as (Hq & Hr & Hs).
  set (nq := Z.shiftr (ch_im_out a) 2) in *.
  set (nr := Z.land (ch_im_out a) 3) in *.
  assert (E1 : ch_im_out a / 4 = nq) by (Z.div_mod_to_equations; lia).
  rewrite E1 in Hj.
  rewrite channel_pass_rem_loop by exact Hc.
  rewrite rem_loop_frame by (exact Hc || fold nr nq; lia). fold nq.
  pose proof (quad_loop_frame q a colBuffer Out pOut0 Hc (S j)
                (Z.to_nat nq - S j) (pOut0 + Z.of_nat j)) as F.
  replace (S j + (Z.to_nat nq - S j))%nat with (Z.to_nat nq) in F by lia.
  rewrite F by (fold nq; lia). clear F.
  pose proof (quad_loop_store q a colBuffer Out pOut0 Hc j) as St.
  cbv zeta in St. rewrite St by (fold nq; lia). clear St.
  destruct (quad_loop_invariant q a colBuffer Out pOut0 Hc j)
    as (_ & _ & _ & E4 & _); [fold nq; lia|].
  rewrite E4, store_same.
  rewrite (quad_accs_reference a colBuffer Hw Hi).
  rewrite (quad_taps a Hk). fold taps.
  unfold reference_accs. cbn [sum sum2 sum3 sum4].
  rewrite !channel_code_wrap32.
  match goal with
  | |- crumb m (uint8 (Z.lor (Z.lor (Z.lor (USAT ?x0 2)
                                            (Z.shiftl (USAT ?x1 2) 2))
                                     (Z.shiftl (USAT ?x2 2) 4))
                              (Z.shiftl (USAT ?x3 2) 6))) = _ =>
      destruct (quad_byte_crumbs x0 x1 x2 x3) as (B0 & B1 & B2 & B3)
  end.
  assert (C : m = 0 \/ m = 1 \/ m = 2 \/ m = 3) by lia.
  subst c.
  destruct C as [-> | [-> | [-> | ->]]];
    [rewrite B0 | rewrite B1 | rewrite B2 | rewrite B3];
    rewrite ?Z.add_0_r; reflexivity.
Qed.

Lemma channel_pass_group_layout_witness :
  0 <= ch_im_out five_ch_args < 65536 /\
  0 <= dim_kernel five_ch_args <= 255 /\
  in_uint8 (z_wt five_ch_args) /\ in_uint8 (z_in five_ch_args) /\
  (0 < Z.to_nat (ch_im_out five_ch_args / 4))%nat /\ 0 <= 2 < 4 /\
  crumb 2 (out (channel_pass quant_id five_ch_args five_ch_patch zero_mem 10)
               10)
  = 1.
Proof.
  assert (Hc : 0 <= ch_im_out five_ch_args < 65536) by (cbn; lia).
  assert (Hk : 0 <= dim_kernel five_ch_args <= 255) by (cbn; lia).
  assert (Hw : in_uint8 (z_wt five_ch_args)) by (unfold in_uint8; cbn; lia).
  assert (Hi : in_uint8 (z_in five_ch_args)) by (unfold in_uint8; cbn; lia).
  assert (Hj : (0 < Z.to_nat (ch_im_out five_ch_args / 4))%nat)
    by (vm_compute; lia).
  assert (Hm : 0 <= 2 < 4) by lia.
  repeat (split; [assumption|]).
  exact (channel_pass_group_layout quant_id five_ch_args five_ch_patch
           zero_mem 10 0%nat 2 Hc Hk Hw Hi Hj Hm).
Defined.

Lemma crumb_shifted_code x t r :
  0 <= t < 4 -> 0 <= r < 4 ->
  crumb t (Z.shiftl (USAT x 2) (2 * r)) = if t =? r then USAT x 2 else 0.
Proof.
  intros Ht Hr.
  assert (Ct : t = 0 \/ t = 1 \/ t = 2 \/ t = 3) by lia.
  assert (Cr : r = 0 \/ r = 1 \/ r = 2 \/ r = 3) by lia.
  destruct (MatMultFacts.USAT2_cases x) as [-> | [-> | [-> | ->]]];
  destruct Ct as [-> | [-> | [-> | ->]]];
  destruct Cr as [-> | [-> | [-> | ->]]]; reflexivity.
Qed.

Lemma crumb_code x t :
  0 <= t < 4 -> crumb t (USAT x 2) = if t =? 0 then USAT x 2 else 0.
Proof.
  intros Ht.
  assert (Ct : t = 0 \/ t = 1 \/ t = 2 \/ t = 3) by lia.
  destruct (MatMultFacts.USAT2_cases x) as [-> | [-> | [-> | ->]]];
  destruct Ct as [-> | [-> | [-> | ->]]]; reflexivity.
Qed.

Section RemainderByte.

Variable q : Z -> mem -> Z.
Variable a : conv_args.
Variables (colBuffer Out : mem) (pOut0 : Z).
Hypothesis ch_range : 0 <= ch_im_out a < 65536.

Let nq := Z.shiftr (ch_im_out a) 2.
Let nr := Z.land (ch_im_out a) 3.
Let code (t : Z) : Z :=
  USAT (channel_code q (thresholds a) (2 ^ 2) (4 * nq + t)
          (rem_acc a colBuffer (4 * nq + t) (4 * nq + t))) 2.

(** The byte of the remaining channels after [r] of them: the codes of the
    channels done so far, LSB first, and nothing else. *)
Lemma rem_byte r :
  (1 <= r)%nat -> Z.of_nat r <= nr ->
  forall t, 0 <= t < 4 ->
    crumb t (out (rem_loop q a colBuffer Out pOut0 r) (pOut0 + nq))
    = if t <? Z.of_nat r then code t else 0.
Proof.
  destruct (channel_split a ch_range) as (_ & Hn & _). fold nr in Hn.
  induction r as [|r IH]; intros H1 Hr t Ht; [lia|].
  pose proof (rem_loop_store q a colBuffer Out pOut0 ch_range r) as St.
  cbv zeta in St. fold nq nr in St. rewrite St by lia. clear St.
  destruct (rem_loop_invariant q a colBuffer Out pOut0 ch_range r)
    as (_ & _ & _ & E4 & _); [fold nr; lia|].
  fold nq in E4. rewrite E4, store_same.
  fold (code (Z.of_nat r)).
  destruct r as [|r].
  - rewrite MatMultFacts.crumb_uint8 by lia. unfold code at 1.
    rewrite crumb_code by lia. change (Z.of_nat 1) with 1.
    destruct (Z.eqb_spec t 0) as [-> | Hne]; [reflexivity|].
    destruct (Z.ltb_spec t 1); [lia | reflexivity].
  - rewrite MatMultFacts.crumb_uint8, MatMultFacts.crumb_lor,
      MatMultFacts.crumb_uint8 by lia.
    rewrite IH by lia. unfold code at 2.
    rewrite crumb_shifted_code by lia. fold (code (Z.of_nat (S r))).
    destruct (Z.ltb_spec t (Z.of_nat (S r)));
      destruct (Z.eqb_spec t (Z.of_nat (S r)));
      destruct (Z.ltb_spec t (Z.of_nat (S (S r)))); try lia.
    + apply Z.lor_0_r.
    + subst t. apply Z.lor_0_l.
    + reflexivity.
Qed.

End RemainderByte.

(** Where the codes of the channels that do not fill a group of four land:
    when the channel pass is left, crumb [r] of the byte after the groups
    holds the code of channel [c = 4 * (ch_im_out / 4) + r], which is the
    answer of the quantizer, saturated to two bits, on the thresholds from
    index [4c] on, for the sum the one-channel loop forms: both factors of
    every tap reduced to [uint8_t].  The crumbs above the last such channel
    are clear. *)
Theorem channel_pass_remainder_layout :
  forall (q : Z -> mem -> Z) (a : conv_args) (colBuffer Out : mem)
         (pOut0 r : Z),
    0 <= ch_im_out a < 65536 -> 0 <= dim_kernel a <= 255 ->
    0 < ch_im_out a mod 4 -> 0 <= r < 4 ->
    let c := 4 * (ch_im_out a / 4) + r in
    let taps := Z.to_nat (dim_kernel a * dim_kernel a) in
    crumb r (out (channel_pass q a colBuffer Out pOut0)
                 (pOut0 + ch_im_out a / 4))
    = if r <? ch_im_out a mod 4
      then USAT (channel_code q (thresholds a) (2 ^ 2) c
                   (unsigned_acc taps a colBuffer c)) 2
      else 0.
Proof.
  intros q a colBuffer Out pOut0 r Hc Hk Hm Hr c taps.
  destruct (channel_split a Hc) as (Hq & Hn & Hs).
  set (nq := Z.shiftr (ch_im_out a) 2) in *.
  set (nr := Z.land (ch_im_out a) 3) in *.
  assert (E1 : ch_im_out a / 4 = nq) by (Z.div_mod_to_equations; lia).
  assert (E2 : ch_im_out a mod 4 = nr) by (Z.div_mod_to_equations; lia).
  subst c. rewrite E1, E2 in *.
  rewrite channel_pass_rem_loop by exact Hc. fold nr.
  pose proof (rem_byte q a colBuffer Out pOut0 Hc (Z.to_nat nr)) as B.
  fold nq nr in B. rewrite B by lia. rewrite Z2Nat.id by lia.
  destruct (r <? nr); [|reflexivity].
  rewrite rem_acc_unsigned, (rem_taps a Hk), channel_code_wrap32.
  reflexivity.
Qed.

Lemma channel_pass_remainder_layout_witness :
  0 <= ch_im_out five_ch_args < 65536 /\
  0 <= dim_kernel five_ch_args <= 255 /\
  0 < ch_im_out five_ch_args mod 4 /\ 0 <= 0 < 4 /\
  crumb 0 (out (channel_pass quant_id five_ch_args five_ch_patch zero_mem 10)
               11)
  = 1.
Proof.
  assert (Hc : 0 <= ch_im_out five_ch_args < 65536) by (cbn; lia).
  assert (Hk : 0 <= dim_kernel five_ch_args <= 255) by (cbn; lia).
  assert (Hm : 0 < ch_im_out five_ch_args mod 4) by (cbn; lia).
  assert (Hr : 0 <= 0 < 4) by lia.
  repeat (split; [assumption|]).
  exact (channel_pass_remainder_layout quant_id five_ch_args five_ch_patch
           zero_mem 10 0 Hc Hk Hm Hr).
Defined.

(** The sum of the one-channel loop is the specified accumulator as long
    as no weight code and no input code of the channel is below its zero
    point. *)
Theorem remainder_sum_reference :
  forall (a : conv_args) (colBuffer : mem) (ch : Z),
    0 <= dim_kernel a <= 255 -> 0 <= z_wt a -> 0 <= z_in a ->
    let taps := Z.to_nat (dim_kernel a * dim_kernel a) in
    (forall k, (k < taps)%nat ->
       z_wt a <= uint8 (wt a (ch + Z.of_nat k * ch_im_in a)) /\
       z_in a <= uint8 (colBuffer (ch + Z.of_nat k * ch_im_in a))) ->
    rem_acc a colBuffer ch ch = wrap32 (reference_acc taps a colBuffer ch).
Proof.
  intros a colBuffer ch Hk Hw Hi taps H.
  rewrite rem_acc_unsigned, (rem_taps a Hk). fold taps.
  now rewrite unsigned_acc_reference.
Qed.

Lemma remainder_sum_reference_witness :
  0 <= dim_kernel two_ch_args <= 255 /\
  0 <= z_wt two_ch_args /\ 0 <= z_in two_ch_args /\
  rem_acc two_ch_args two_ch_patch 1 1 = 2.
Proof.
  assert (Hk : 0 <= dim_kernel two_ch_args <= 255) by (cbn; lia).
  assert (Hw : 0 <= z_wt two_ch_args) by (cbn; lia).
  assert (Hi : 0 <= z_in two_ch_args) by (cbn; lia).
  repeat (split; [assumption|]).
  rewrite (remainder_sum_reference two_ch_args two_ch_patch 1 Hk Hw Hi).
  - reflexivity.
  - intros k _. split; apply (uint8_range _).
Defined.

End DepthwiseFacts.

(** ** The layout of the threshold table *)

Section ThresholdLayout.

Import Examples.

(** C4, as amended.  In both threshold-folding kernels the code of output
    channel [c] is the answer of the quantizer on the sub-array of the
    thresholds array that starts at the flat index [c * 2^bits].  In the
    2-bit depthwise kernel the pass with index [k] of the first channel
    loop stores the byte built from the codes of the channels
    [4k .. 4k + 3], each quantized from the index [c * 4] on, and the pass
    with index [k] of the second channel loop stores (in the byte the first
    loop left, or or-ed into it) the code of the channel
    [c = 4 * (ch_im_out >> 2) + k], quantized from the index [c * 4] on;
    the second loop starts where the first ends and the channel pass is
    the second loop run to its end.  In the 4-bit matrix-multiplication
    kernel the row-pair iteration with index [k] stores, on each of the two
    streams, the codes of the rows [i = 2k] and [i + 1], quantized from the
    indices [i * 16] and [(i + 1) * 16] on. *)
Theorem thresholds_flat_index :
  (forall q a colBuffer Out pOut0 (k : nat),
      0 <= Depthwise.ch_im_out a < 65536 ->
      (k < Z.to_nat (Z.shiftr (Depthwise.ch_im_out a) 2))%nat ->
      let s := Depthwise.quad_loop q a colBuffer Out pOut0 k in
      let s' := Depthwise.quad_loop q a colBuffer Out pOut0 (S k) in
      let c := 4 * Z.of_nat k in
      let sums := Depthwise.quad_accs a colBuffer c c in
      let code := fun j x =>
        USAT (channel_code q (Depthwise.thresholds a) (2 ^ 2) (c + j) x) 2 in
      Depthwise.out s' =
      store (Depthwise.out s) (Depthwise.pOut s)
        (uint8
           (Z.lor (Z.lor (Z.lor (code 0 (Depthwise.sum sums))
                                (Z.shiftl (code 1 (Depthwise.sum2 sums)) 2))
                         (Z.shiftl (code 2 (Depthwise.sum3 sums)) 4))
                  (Z.shiftl (code 3 (Depthwise.sum4 sums)) 6)))) /\
  (forall q a colBuffer Out pOut0 (k : nat),
      0 <= Depthwise.ch_im_out a < 65536 ->
      (k < Z.to_nat (Z.land (Depthwise.ch_im_out a) 3))%nat ->
      let s := Depthwise.rem_loop q a colBuffer Out pOut0 k in
      let s' := Depthwise.rem_loop q a colBuffer Out pOut0 (S k) in
      let c := 4 * Z.shiftr (Depthwise.ch_im_out a) 2 + Z.of_nat k in
      let code :=
        USAT (channel_code q (Depthwise.thresholds a) (2 ^ 2) c
                (Depthwise.rem_acc a colBuffer c c)) 2 in
      Depthwise.out s' =
      store (Depthwise.out s) (Depthwise.pOut s)
        (uint8 (match k with
                | O => code
                | S _ => Z.lor (uint8 (Depthwise.out s (Depthwise.pOut s)))
                               (Z.shiftl code (2 * Z.of_nat k))
                end))) /\
  (forall q a colBuffer Out pOut0,
      0 <= Depthwise.ch_im_out a < 65536 ->
      Depthwise.rem_loop q a colBuffer Out pOut0 0
      = Depthwise.quad_loop q a colBuffer Out pOut0
          (Z.to_nat (Z.shiftr (Depthwise.ch_im_out a) 2)) /\
      Depthwise.channel_pass q a colBuffer Out pOut0
      = Depthwise.rem_loop q a colBuffer Out pOut0
          (Z.to_nat (Z.land (Depthwise.ch_im_out a) 3))) /\
  (forall rap8 q A pInBuffer ch_im_out numCol_A bias Out pOut0 z_a
          thresholds (k : nat),
      (k < MatMult.trips_by2 ch_im_out)%nat ->
      let rows :=
        MatMult.rows_u8_int16_u4_thr rap8 q A pInBuffer ch_im_out numCol_A
          bias Out pOut0 z_a thresholds in
      let '(pA0, i, o) := rows k in
      let '(_, _, o') := rows (S k) in
      let s :=
        fst (MatMult.row_accs_u8 rap8 A pInBuffer bias numCol_A
               (MatMult.z_a_offsets pInBuffer numCol_A z_a) pA0 i) in
      let code := channel_code q thresholds (2 ^ 4) in
      i = 2 * Z.of_nat k /\
      MatMult.out o' =
      store (store (MatMult.out o) (MatMult.pOut o)
               (MatMult.nibbles (code i (MatMult.sum s))
                                (code (i + 1) (MatMult.sum3 s))))
            (MatMult.pOut2 o)
            (MatMult.nibbles (code i (MatMult.sum2 s))
                             (code (i + 1) (MatMult.sum4 s)))).
Proof.
  split; [|split; [|split]].
  - intros q a colBuffer Out pOut0 k Hc Hk.
    apply DepthwiseFacts.quad_loop_store; [exact Hc | lia].
  - intros q a colBuffer Out pOut0 k Hc Hk.
    apply DepthwiseFacts.rem_loop_store; [exact Hc | lia].
  - intros q a colBuffer Out pOut0 Hc. split.
    + now apply DepthwiseFacts.rem_loop_0.
    + now apply DepthwiseFacts.channel_pass_rem_loop.
  - intros rap8 q A pInBuffer ch_im_out numCol_A bias Out pOut0 z_a
           thresholds k _ rows.
    pose proof (MatMultFacts.rowsthr_index rap8 q A pInBuffer ch_im_out
                  numCol_A bias Out pOut0 z_a thresholds k) as I.
    pose proof (MatMultFacts.rowsthr_succ rap8 q A pInBuffer ch_im_out
                  numCol_A bias Out pOut0 z_a thresholds k) as Sk.
    fold rows in I, Sk. rewrite Sk. destruct (rows k) as [[pA0 i] o].
    cbn [fst snd] in I. unfold MatMult.row_step_u8_u4_thr.
    destruct (MatMult.row_accs_u8 _ _ _ _ _ _ _ _) as [s cur]. cbn [fst].
    split; [exact I|].
    unfold MatMult.store_u4_thr, MatMult.thr_codes_u4.
    cbn [MatMult.out MatMult.sum MatMult.sum2 MatMult.sum3 MatMult.sum4].
    unfold channel_code, channel_thresholds.
    rewrite !Z.shiftl_mul_pow2 by lia. reflexivity.
Qed.

Lemma thresholds_flat_index_witness :
  0 <= Depthwise.ch_im_out two_ch_args < 65536 /\
  (1 < Z.to_nat (Z.land (Depthwise.ch_im_out two_ch_args) 3))%nat /\
  Depthwise.out
    (Depthwise.rem_loop quant_first two_ch_args two_ch_patch
                        zero_mem 0 2) 0
  = 8 /\
  channel_code quant_first first_table4 (2 ^ 2) 1 0 = 2.
Proof.
  assert (H : 0 <= Depthwise.ch_im_out two_ch_args < 65536) by (cbn; lia).
  assert (K : (1 < Z.to_nat (Z.land (Depthwise.ch_im_out two_ch_args) 3))%nat)
    by (cbn; lia).
  split; [exact H|]. split; [exact K|]. split; [|reflexivity].
  rewrite (proj1 (proj2 thresholds_flat_index) quant_first two_ch_args
             two_ch_patch zero_mem 0 1%nat H K).
  reflexivity.
Defined.

(** C4 as stated fails: with [2^bits - 1] entries per channel in place of
    [2^bits], the bytes the kernels store are not the ones the statement
    above gives.  With a quantizer that answers with the first entry it is
    handed, channel 1 receives the entry at index 4 in the depthwise kernel
    and row 1 the entry at index 16 in the matrix-multiplication kernel,
    not the entries at [2^2 - 1 = 3] and [2^4 - 1 = 15]. *)
Lemma thresholds_stride_not_levels_minus_one :
  ~ (forall q a colBuffer Out pOut0 (k : nat),
        0 <= Depthwise.ch_im_out a < 65536 ->
        (k < Z.to_nat (Z.land (Depthwise.ch_im_out a) 3))%nat ->
        let s := Depthwise.rem_loop q a colBuffer Out pOut0 k in
        let s' := Depthwise.rem_loop q a colBuffer Out pOut0 (S k) in
        let c := 4 * Z.shiftr (Depthwise.ch_im_out a) 2 + Z.of_nat k in
        let code :=
          USAT (channel_code q (Depthwise.thresholds a) (2 ^ 2 - 1) c
                  (Depthwise.rem_acc a colBuffer c c)) 2 in
        Depthwise.out s' =
        store (Depthwise.out s) (Depthwise.pOut s)
          (uint8 (match k with
                  | O => code
                  | S _ => Z.lor (uint8 (Depthwise.out s (Depthwise.pOut s)))
                                 (Z.shiftl code (2 * Z.of_nat k))
                  end))) /\
  ~ (forall rap8 q A pInBuffer ch_im_out numCol_A bias Out pOut0 z_a
            thresholds (k : nat),
        (k < MatMult.trips_by2 ch_im_out)%nat ->
        let rows :=
          MatMult.rows_u8_int16_u4_thr rap8 q A pInBuffer ch_im_out numCol_A
            bias Out pOut0 z_a thresholds in
        let '(pA0, i, o) := rows k in
        let '(_, _, o') := rows (S k) in
        let s :=
          fst (MatMult.row_accs_u8 rap8 A pInBuffer bias numCol_A
                 (MatMult.z_a_offsets pInBuffer numCol_A z_a) pA0 i) in
        let code := channel_code q thresholds (2 ^ 4 - 1) in
        i = 2 * Z.of_nat k /\
        MatMult.out o' =
        store (store (MatMult.out o) (MatMult.pOut o)
                 (MatMult.nibbles (code i (MatMult.sum s))
                                  (code (i + 1) (MatMult.sum3 s))))
              (MatMult.pOut2 o)
              (MatMult.nibbles (code i (MatMult.sum2 s))
                               (code (i + 1) (MatMult.sum4 s)))).
Proof.
  split; intros H.
  - specialize (H quant_first two_ch_args two_ch_patch zero_mem 0 1%nat
                  ltac:(cbn; lia) ltac:(cbn; lia)).
    apply (f_equal (fun m => m 0)) in H. vm_compute in H. discriminate H.
  - specialize (H reader_zero quant_first zero_mem zero_mem 2 0 zero_mem
                  zero_mem 0 0 first_table16 0%nat ltac:(cbn; lia)).
    destruct H as [_ H].
    apply (f_equal (fun m => m 1)) in H. vm_compute in H. discriminate H.
Qed.

End ThresholdLayout.
